(** * The sound engine and the savegame serializer

    A shallow embedding of [src/sound/s_sound.cpp] (channel scheduling,
    eviction, rolloff) and of the scalar and string layer of
    [src/serializer.cpp], with the properties stated about them.

    Conventions.  C integers are [Z]; pointers are addresses in [Z] with
    [0] for the null pointer; [char] buffers are lists of byte values.
    The scheduler's [float] quantities (volumes, attenuations, positions)
    are carried as rationals, the rolloff curve is evaluated over the
    reals: rounding is not part of the model. *)

From Stdlib Require Import String Ascii.
From Stdlib Require Import ZArith QArith Qminmax Qround List Bool Lia Permutation.
From Stdlib Require Import Reals Lra.
Import ListNotations.

(** * String escaping of the serializer ([serializer.cpp], lines 66-117) *)

Module Strings.
Local Open Scope Z_scope.

(** A [char] buffer is the list of its bytes.  A read past the end of the
    list finds the terminating NUL. *)
Definition peek (buf : list Z) (i : nat) : Z := nth i buf 0.

(** [buf[i] = v]; the stores of the two functions below stay inside the
    buffer they sized, a store outside of it is left out. *)
Fixpoint poke (buf : list Z) (i : nat) (v : Z) : list Z :=
  match buf, i with
  | [], _ => []
  | _ :: t, O => v :: t
  | h :: t, S j => h :: poke t j v
  end.

Fixpoint poke_all (buf : list Z) (i : nat) (vs : list Z) : list Z :=
  match vs with
  | [] => buf
  | v :: vs' => poke_all (poke buf i v) (S i) vs'
  end.

(** [TArray<char>::Resize]; fresh elements are shown as 0, no reader below
    depends on their value. *)
Definition Resize (n : nat) (buf : list Z) : list Z :=
  firstn n buf ++ repeat 0 (n - length buf).

Fixpoint strlen (buf : list Z) : nat :=
  match buf with
  | [] => O
  | b :: t => if b =? 0 then O else S (strlen t)
  end.

(** The C string that starts at the head of [buf]. *)
Definition cstring (buf : list Z) : list Z := firstn (strlen buf) buf.

(** Modelled from the spec: [utf8_encode] of utf8.h, which is not among the
    sources; the UTF-8 encoding of a code point, [None] for the error return
    (no byte written, size untouched). *)
Definition utf8_encode (codepoint : Z) : option (list Z) :=
  if codepoint <? 0 then None
  else if codepoint <? 128 then Some [codepoint]
  else if codepoint <? 2048 then
    Some [192 + Z.shiftr (Z.land codepoint 1984) 6; 128 + Z.land codepoint 63]
  else if codepoint <? 65536 then
    Some [224 + Z.shiftr (Z.land codepoint 61440) 12;
          128 + Z.shiftr (Z.land codepoint 4032) 6;
          128 + Z.land codepoint 63]
  else if codepoint <=? 1114111 then
    Some [240 + Z.shiftr (Z.land codepoint 1835008) 18;
          128 + Z.shiftr (Z.land codepoint 258048) 12;
          128 + Z.shiftr (Z.land codepoint 4032) 6;
          128 + Z.land codepoint 63]
  else None.

Definition continuation (b : Z) : bool := (128 <=? b) && (b <? 192).

(** Modelled from the spec: [utf8_decode] of utf8.h, which is not among the
    sources; [src] reads the bytes at the pointer, the result is the code
    point (or -1) and the number of bytes consumed. *)
Definition utf8_decode (src : nat -> Z) : Z * nat :=
  let c := src 0%nat in
  if Z.land c 128 =? 0 then (c, 1%nat)
  else
    let c1 := src 1%nat in
    if negb (continuation c1) then (-1, 1%nat)
    else
      let c1 := Z.land c1 63 in
      if Z.land c 224 =? 192 then
        let r := Z.lor (Z.shiftl (Z.land c 31) 6) c1 in
        if 128 <=? r then (r, 2%nat) else (-1, 1%nat)
      else
        let c2 := src 2%nat in
        if negb (continuation c2) then (-1, 1%nat)
        else
          let c2 := Z.land c2 63 in
          if Z.land c 240 =? 224 then
            let r := Z.lor (Z.lor (Z.shiftl (Z.land c 15) 12) (Z.shiftl c1 6)) c2 in
            if (2048 <=? r) && ((r <? 55296) || (57343 <? r))
            then (r, 3%nat) else (-1, 1%nat)
          else
            let c3 := src 3%nat in
            if negb (continuation c3) then (-1, 1%nat)
            else
              let c3 := Z.land c3 63 in
              if Z.land c 248 =? 240 then
                let r := Z.lor (Z.lor (Z.lor (Z.shiftl (Z.land c 7) 18)
                                 (Z.shiftl c1 12)) (Z.shiftl c2 6)) c3 in
                if (65536 <=? r) && (r <=? 1114111)
                then (r, 4%nat) else (-1, 1%nat)
              else (-1, 1%nat).

(** Both functions return a pointer either into the caller's string or into
    the one static buffer [out] they share. *)
Inductive CharPtr : Type :=
| ArgPtr (off : nat)
| OutPtr (off : nat).

Definition advance (p : CharPtr) (n : nat) : CharPtr :=
  match p with
  | ArgPtr o => ArgPtr (o + n)
  | OutPtr o => OutPtr (o + n)
  end.

Definition load (arg out : list Z) (p : CharPtr) (j : nat) : Z :=
  match p with
  | ArgPtr o => peek arg (o + j)
  | OutPtr o => peek out (o + j)
  end.

Definition strlen_at (arg out : list Z) (p : CharPtr) : nat :=
  match p with
  | ArgPtr o => strlen (skipn o arg)
  | OutPtr o => strlen (skipn o out)
  end.

(** First loop of [StringToUnicode]: [count] output bytes, [count1] input
    bytes, up to the NUL or to [size] bytes. *)
Fixpoint count_loop (c : list Z) (size count count1 : Z) : Z * Z :=
  match c with
  | [] => (count, count1)
  | b :: c' =>
      let ch := Z.land b 255 in
      if ch =? 0 then (count, count1)
      else
        let count1 := count1 + 1 in
        let count := if 128 <=? ch then count + 2 else count + 1 in
        if (count1 =? size) && (0 <? size) then (count, count1)
        else count_loop c' size count count1
  end.

(** Second loop: every byte up to the NUL is encoded at [out + i]. *)
Fixpoint encode_loop (c : list Z) (i : nat) (count1 : nat) (out : list Z)
  : list Z :=
  match c with
  | [] => out
  | ch :: c' =>
      if ch =? 0 then out
      else
        match utf8_encode ch with
        | Some bs =>
            encode_loop c' (i + length bs) (length bs) (poke_all out i bs)
        | None => encode_loop c' (i + count1) count1 out
        end
  end.

(** [StringToUnicode(cc, size)]: the returned pointer and the new content of
    the static buffer. *)
Definition StringToUnicode (cc : list Z) (size : Z) (out : list Z)
  : CharPtr * list Z :=
  let out := @nil Z in
  let '(count, count1) := count_loop cc size 0 0 in
  if count =? count1 then (ArgPtr 0, out)
  else
    let out := Resize (Z.to_nat (count + 1)) out in
    let out := poke out (length out - 1) 0 in
    (OutPtr 0, encode_loop cc 0 (Z.to_nat count1) out).

(** The loop of [UnicodeToString].  It reads through [cc] and stores into
    [out]; when [cc] points into [out] itself the stores are seen by the
    later reads.  Every round consumes a byte, [fuel] bounds the rounds. *)
Fixpoint decode_loop (fuel : nat) (arg out : list Z) (cc : CharPtr) (ndx : nat)
  : option (list Z) :=
  match fuel with
  | O => None
  | S fuel' =>
      if load arg out cc 0 =? 0 then Some (poke out ndx 0)
      else
        let '(c, size) := utf8_decode (load arg out cc) in
        let c := if (c <? 0) || (255 <? c) then 63 else c in
        decode_loop fuel' arg (poke out ndx c) (advance cc size) (S ndx)
  end.

(** [UnicodeToString(cc)], [arg] being the caller's memory that [ArgPtr]
    points into. *)
Definition UnicodeToString (arg : list Z) (cc : CharPtr) (out : list Z)
  : option (CharPtr * list Z) :=
  let n := strlen_at arg out cc in
  let out := Resize (n + 1) out in
  match decode_loop (S n) arg out cc 0 with
  | Some out' => Some (OutPtr 0, out')
  | None => None
  end.

(** [UnicodeToString(StringToUnicode(s))] as a C string. *)
Definition decode_encode (s : list Z) (out : list Z) : option (list Z) :=
  let '(p, out1) := StringToUnicode s (-1) out in
  match UnicodeToString s p out1 with
  | Some (q, out2) => Some (cstring (skipn (match q with ArgPtr o => o | OutPtr o => o end)
                                           (match q with ArgPtr _ => s | OutPtr _ => out2 end)))
  | None => None
  end.

(** The bytes [StringToUnicode] emits for a string without NUL, as a list
    function; used to state what the static buffer holds. *)
Definition enc1 (ch : Z) : list Z :=
  match utf8_encode ch with
  | Some bs => bs
  | None => []
  end.

Definition enc (s : list Z) : list Z := flat_map enc1 s.

(** What the decoder needs to know of the encoding of one byte value. *)
Definition enc1_ok (ch : Z) : bool :=
  match utf8_encode ch with
  | Some [b0] =>
      (b0 =? ch) && (Z.land b0 128 =? 0) && negb (b0 =? 0) && (ch <? 128)
  | Some [b0; b1] =>
      negb (Z.land b0 128 =? 0) && continuation b1 && (Z.land b0 224 =? 192)
      && (Z.lor (Z.shiftl (Z.land b0 31) 6) (Z.land b1 63) =? ch)
      && (128 <=? ch) && negb (b0 =? 0) && negb (b1 =? 0)
  | _ => false
  end.

Definition nonzero_byte (b : Z) : Prop := 0 < b < 256.

Definition byte_values : list Z := map Z.of_nat (seq 1 255).

End Strings.

(** * Rolloff evaluation ([s_sound.cpp], [SoundEngine::GetRolloff]) *)

Module Rolloff.

(** Rolloff types ([s_soundinternal.h]); the field is an [int], every value
    other than the three named ones behaves as [ROLLOFF_Doom]. *)
Definition ROLLOFF_Doom : Z := 0.
Definition ROLLOFF_Linear : Z := 1.
Definition ROLLOFF_Log : Z := 2.
Definition ROLLOFF_Custom : Z := 3.

(** Modelled from the spec: [FRolloffInfo], whose declaration is not among
    the sources; type, minimum and maximum distance and factor.  [F] is the
    carrier of the [float] fields. *)
Record FRolloffInfo (F : Type) : Type := mkRolloff {
  RolloffType : Z;
  MinDistance : F;
  MaxDistance : F;
  RolloffFactor : F
}.
Arguments mkRolloff {F}.
Arguments RolloffType {F}.
Arguments MinDistance {F}.
Arguments MaxDistance {F}.
Arguments RolloffFactor {F}.

Local Open Scope R_scope.

(** The conversion [int(x)]: truncation toward zero. *)
Definition float_to_int (x : R) : Z :=
  if Rle_dec 0 x then Int_part x else (- Int_part (- x))%Z.

(** [GetRolloff(rolloff, distance)], for the global table [S_SoundCurve];
    [None] is the null pointer.  A table index outside the table reads 0. *)
Definition GetRolloff (S_SoundCurve : list Z)
    (rolloff : option (FRolloffInfo R)) (distance : R) : R :=
  match rolloff with
  | None => 0
  | Some r =>
      if Rle_dec distance (MinDistance r) then 1
      else if (RolloffType r =? ROLLOFF_Log)%Z then
        MinDistance r
        / (MinDistance r + RolloffFactor r * (distance - MinDistance r))
      else if Rge_dec distance (MaxDistance r) then 0
      else
        let volume :=
          (MaxDistance r - distance) / (MaxDistance r - MinDistance r) in
        if (RolloffType r =? ROLLOFF_Linear)%Z then volume
        else if ((RolloffType r =? ROLLOFF_Custom)%Z
                 && (0 <? length S_SoundCurve)%nat)%bool then
          IZR (nth (Z.to_nat (float_to_int
                                (INR (length S_SoundCurve) * (1 - volume))))
                   S_SoundCurve 0%Z)
          / 127
        else (Rpower 10 volume - 1) / 9
  end.

(** The linear fraction of the range that is left at a distance. *)
Definition fraction (r : FRolloffInfo R) (d : R) : R :=
  (MaxDistance r - d) / (MaxDistance r - MinDistance r).

(** The table index used at a distance. *)
Definition curve_index (S_SoundCurve : list Z) (r : FRolloffInfo R) (d : R) : nat :=
  Z.to_nat (float_to_int (INR (length S_SoundCurve) * (1 - fraction r d))).

(** The rolloff as the specification words it: the table is sampled for
    every Custom descriptor; [None] where that sample does not exist. *)
Definition GetRolloff_as_specified (S_SoundCurve : list Z)
    (r : FRolloffInfo R) (d : R) : option R :=
  if Rlt_dec d (MinDistance r) then Some 1
  else if (RolloffType r =? ROLLOFF_Log)%Z then
    Some (MinDistance r / (MinDistance r + RolloffFactor r * (d - MinDistance r)))
  else if Rge_dec d (MaxDistance r) then Some 0
  else if (RolloffType r =? ROLLOFF_Linear)%Z then Some (fraction r d)
  else if (RolloffType r =? ROLLOFF_Custom)%Z then
    option_map (fun b => IZR b / 127)
               (nth_error S_SoundCurve (curve_index S_SoundCurve r d))
  else Some ((Rpower 10 (fraction r d) - 1) / 9).

(** A table of bytes that never rises and starts at 127 or below. *)
Definition falling_curve (curve : list Z) : Prop :=
  Forall (fun b => 0 <= b <= 127)%Z curve /\
  forall i j, (i <= j < length curve)%nat ->
              (nth j curve 0 <= nth i curve 0)%Z.

(** The descriptors for which the rolloff is claimed to fall with the
    distance. *)
Definition falling_descriptor (curve : list Z) (r : FRolloffInfo R) : Prop :=
  if (RolloffType r =? ROLLOFF_Log)%Z
  then 0 < MinDistance r /\ 0 <= RolloffFactor r
  else MinDistance r < MaxDistance r /\
       (RolloffType r = ROLLOFF_Custom -> falling_curve curve).

End Rolloff.

(** * The sound engine ([s_sound.cpp], [s_soundinternal.h]) *)

Module Sound.
Import Rolloff.
Local Open Scope Z_scope.

(** ** Constants of [s_soundinternal.h] *)

Definition CHAN_AUTO : Z := 0.
Definition CHAN_LISTENERZ : Z := 8.
Definition CHAN_MAYBE_LOCAL : Z := 16.
Definition CHAN_UI : Z := 32.
Definition CHAN_NOPAUSE : Z := 64.
Definition CHAN_AREA : Z := 128.
Definition CHAN_LOOP : Z := 256.
Definition CHAN_IS3D : Z := 1.
Definition CHAN_EVICTED : Z := 2.
Definition CHAN_FORGETTABLE : Z := 4.
Definition CHAN_JUSTSTARTED : Z := 512.
Definition CHAN_ABSTIME : Z := 1024.
Definition CHAN_VIRTUAL : Z := 2048.
Definition CHAN_NOSTOP : Z := 4096.

Definition SOURCE_None : Z := 0.
Definition SOURCE_Actor : Z := 1.
Definition SOURCE_Sector : Z := 2.
Definition SOURCE_Polyobj : Z := 3.
Definition SOURCE_Unattached : Z := 4.

Definition NO_LINK : Z := 4294967295.
Definition DEFAULT_PITCH : Z := 128.

(** Modelled from the spec: the backend start flags (Loop, Area, NoPause,
    NoReverb) of i_sound.h, which is not among the sources; only their being
    distinct bits matters. *)
Definition SNDF_LOOP : Z := 1.
Definition SNDF_NOPAUSE : Z := 2.
Definition SNDF_AREA : Z := 4.
Definition SNDF_NOREVERB : Z := 16.

(** [flags & mask] as a C condition. *)
Definition has (flags mask : Z) : bool := negb (Z.land flags mask =? 0).

(** Stores into the narrow fields of [FSoundChan]. *)
Definition to_uint8 (z : Z) : Z := Z.land z 255.
Definition to_int8 (z : Z) : Z := (z + 128) mod 256 - 128.
Definition to_int16 (z : Z) : Z := (z + 32768) mod 65536 - 32768.

(** ** Data *)

Record FVector3 : Type := mkVec { X : Q; Y : Q; Zc : Q }.

Definition vsub (a b : FVector3) : FVector3 :=
  mkVec (X a - X b)%Q (Y a - Y b)%Q (Zc a - Zc b)%Q.

Definition LengthSquared (v : FVector3) : Q :=
  (X v * X v + Y v * Y v + Zc v * Zc v)%Q.

(** A [SoundHandle]: [None] when nothing is loaded. *)
Definition SoundHandle : Type := option Z.

Definition isValid (h : SoundHandle) : bool :=
  match h with Some _ => true | None => false end.

(** [sfxinfo_t], the fields the scheduler and the loader use. *)
Record sfxinfo_t : Type := mkSfx {
  data : SoundHandle;
  data3d : SoundHandle;
  lumpnum : Z;
  Volume : Q;
  PitchMask : Z;
  NearLimit : Z;
  LimitRange : Q;
  bRandomHeader : bool;
  bLoadRAW : bool;
  bSingular : bool;
  link : Z;
  Rolloff : FRolloffInfo Q;
  Attenuation : Q
}.

Record FRandomSoundList : Type := mkRnd {
  Choices : list Z;
  Owner : Z
}.

(** [FSoundChan] with the members of its base [FISoundChannel] the engine
    touches.  [Addr] is the address of the object, which names it while it
    moves between the two lists.  [Source] and [Point] are the two members
    of the anonymous union. *)
Record FSoundChan : Type := mkChan {
  Addr : nat;
  SysChannel : Z;
  StartTime : Z;
  DistanceScale : Q;
  ChanFlags : Z;
  SoundID : Z;
  OrgID : Z;
  ChanVolume : Q;
  Pitch : Z;
  EntChannel : Z;
  Priority : Z;
  ChanNearLimit : Z;
  SourceType : Z;
  ChanLimitRange : Q;
  Source : Z;
  Point : FVector3
}.

(** [memset] of the whole object to 0. *)
Definition zeroed (addr : nat) : FSoundChan :=
  mkChan addr 0 0 0%Q 0 0 0 0%Q 0 0 0 0 0 0%Q 0 (mkVec 0 0 0).

Definition set_SysChannel (c : FSoundChan) (v : Z) : FSoundChan :=
  mkChan (Addr c) v (StartTime c) (DistanceScale c) (ChanFlags c) (SoundID c)
         (OrgID c) (ChanVolume c) (Pitch c) (EntChannel c) (Priority c)
         (ChanNearLimit c) (SourceType c) (ChanLimitRange c) (Source c) (Point c).

Definition set_StartTime (c : FSoundChan) (v : Z) : FSoundChan :=
  mkChan (Addr c) (SysChannel c) v (DistanceScale c) (ChanFlags c) (SoundID c)
         (OrgID c) (ChanVolume c) (Pitch c) (EntChannel c) (Priority c)
         (ChanNearLimit c) (SourceType c) (ChanLimitRange c) (Source c) (Point c).

Definition set_ChanFlags (c : FSoundChan) (v : Z) : FSoundChan :=
  mkChan (Addr c) (SysChannel c) (StartTime c) (DistanceScale c) v (SoundID c)
         (OrgID c) (ChanVolume c) (Pitch c) (EntChannel c) (Priority c)
         (ChanNearLimit c) (SourceType c) (ChanLimitRange c) (Source c) (Point c).

Definition set_Pitch (c : FSoundChan) (v : Z) : FSoundChan :=
  mkChan (Addr c) (SysChannel c) (StartTime c) (DistanceScale c) (ChanFlags c)
         (SoundID c) (OrgID c) (ChanVolume c) v (EntChannel c) (Priority c)
         (ChanNearLimit c) (SourceType c) (ChanLimitRange c) (Source c) (Point c).

Definition set_sfx_lumpnum (s : sfxinfo_t) (v : Z) : sfxinfo_t :=
  mkSfx (data s) (data3d s) v (Volume s) (PitchMask s) (NearLimit s)
        (LimitRange s) (bRandomHeader s) (bLoadRAW s) (bSingular s) (link s)
        (Rolloff s) (Attenuation s).

Definition set_sfx_link (s : sfxinfo_t) (v : Z) : sfxinfo_t :=
  mkSfx (data s) (data3d s) (lumpnum s) (Volume s) (PitchMask s) (NearLimit s)
        (LimitRange s) (bRandomHeader s) (bLoadRAW s) (bSingular s) v
        (Rolloff s) (Attenuation s).

Definition set_sfx_Rolloff (s : sfxinfo_t) (v : FRolloffInfo Q) : sfxinfo_t :=
  mkSfx (data s) (data3d s) (lumpnum s) (Volume s) (PitchMask s) (NearLimit s)
        (LimitRange s) (bRandomHeader s) (bLoadRAW s) (bSingular s) (link s)
        v (Attenuation s).

Definition set_sfx_data (s : sfxinfo_t) (v : SoundHandle) : sfxinfo_t :=
  mkSfx v (data3d s) (lumpnum s) (Volume s) (PitchMask s) (NearLimit s)
        (LimitRange s) (bRandomHeader s) (bLoadRAW s) (bSingular s) (link s)
        (Rolloff s) (Attenuation s).

Definition set_sfx_data3d (s : sfxinfo_t) (v : SoundHandle) : sfxinfo_t :=
  mkSfx (data s) v (lumpnum s) (Volume s) (PitchMask s) (NearLimit s)
        (LimitRange s) (bRandomHeader s) (bLoadRAW s) (bSingular s) (link s)
        (Rolloff s) (Attenuation s).

(** An entry of [AddSoundLump]: the defaults of a freshly added sound. *)
Definition default_sfx (lump pitchmask : Z) : sfxinfo_t :=
  mkSfx None None lump 1%Q pitchmask 2 (65536 # 1)%Q false false false NO_LINK
        (mkRolloff ROLLOFF_Doom 0%Q 0%Q 0%Q) 1%Q.

(** ** The collaborators

    The backend [GSnd] keeps a state of its own, of a type [BS] the engine
    never looks into. *)
Record SoundRenderer (BS : Type) : Type := mkRenderer {
  GSnd_IsNull : BS -> bool;
  (** [StartSound(handle, volume, pitch, flags, NULL)]: the voice, if any. *)
  GSnd_StartSound : BS -> SoundHandle -> Q -> Z -> Z -> option Z * BS;
  (** [StartSound3D(handle3d, listener, volume, rolloff, distance_scale,
      pitch, priority, pos, vel, slot, flags, NULL)]. *)
  GSnd_StartSound3D :
    BS -> SoundHandle -> Z -> Q -> FRolloffInfo Q -> Q -> Z -> Z ->
    FVector3 -> FVector3 -> Z -> Z -> option Z * BS;
  (** The time [MarkStartTime] writes into the channel. *)
  GSnd_MarkStartTime : BS -> FSoundChan -> Z;
  GSnd_GetPosition : BS -> FSoundChan -> Z;
  GSnd_GetSampleLength : BS -> SoundHandle -> Z;
  (** The four loaders [LoadSoundVoc], [LoadSoundRaw] (raw and DMX) and
      [LoadSound], which [LoadSound] of the engine picks among by the format
      of the bytes, taken together: the handle and whether it also serves
      as the 3D handle. *)
  GSnd_Decode : BS -> sfxinfo_t -> list Z -> (SoundHandle * bool) * BS;
  (** The same for [LoadSound3D]. *)
  GSnd_Decode3D : BS -> sfxinfo_t -> list Z -> SoundHandle * BS;
  (** What [StopChannel] and [ChannelPitch] do to the backend itself. *)
  GSnd_StopChannel : BS -> FSoundChan -> BS;
  GSnd_ChannelPitch : BS -> FSoundChan -> Q -> BS
}.
Arguments GSnd_IsNull {BS}.
Arguments GSnd_StartSound {BS}.
Arguments GSnd_StartSound3D {BS}.
Arguments GSnd_MarkStartTime {BS}.
Arguments GSnd_GetPosition {BS}.
Arguments GSnd_GetSampleLength {BS}.
Arguments GSnd_Decode {BS}.
Arguments GSnd_Decode3D {BS}.
Arguments GSnd_StopChannel {BS}.
Arguments GSnd_ChannelPitch {BS}.

(** The pure virtual members the client of the engine provides. *)
Record SoundClient : Type := mkClient {
  (** [CalcPosVel(type, source, pt, channel, chanflags, &pos, &vel)]. *)
  client_CalcPosVel :
    Z -> Z -> option FVector3 -> Z -> Z -> FVector3 * FVector3;
  client_ValidatePosVel : Z -> Z -> FVector3 -> FVector3 -> bool;
  client_ReadSound : Z -> list Z
}.

(** The engine object together with the globals it reads. *)
Record SoundEngine (BS : Type) : Type := mkEngine {
  SoundPaused : bool;
  ListenerObject : Z;
  Channels : list FSoundChan;
  FreeChannels : list FSoundChan;
  S_sfx : list sfxinfo_t;
  S_Rolloff : FRolloffInfo Q;
  S_SoundCurve : list Z;
  S_rnd : list FRandomSoundList;
  nosfx : bool;
  nosound : bool;
  sfx_empty : Z;
  GSndState : BS;
  (** number of calls of [rand()] so far *)
  rand_calls : nat;
  (** number of [FSoundChan] objects allocated so far *)
  allocated : nat
}.
Arguments mkEngine {BS}.
Arguments SoundPaused {BS}.
Arguments ListenerObject {BS}.
Arguments Channels {BS}.
Arguments FreeChannels {BS}.
Arguments S_sfx {BS}.
Arguments S_Rolloff {BS}.
Arguments S_SoundCurve {BS}.
Arguments S_rnd {BS}.
Arguments nosfx {BS}.
Arguments nosound {BS}.
Arguments sfx_empty {BS}.
Arguments GSndState {BS}.
Arguments rand_calls {BS}.
Arguments allocated {BS}.

Definition set_Channels {BS} (st : SoundEngine BS) (l : list FSoundChan) :=
  mkEngine (SoundPaused st) (ListenerObject st) l (FreeChannels st) (S_sfx st)
           (S_Rolloff st) (S_SoundCurve st) (S_rnd st) (nosfx st) (nosound st)
           (sfx_empty st) (GSndState st) (rand_calls st) (allocated st).

Definition set_FreeChannels {BS} (st : SoundEngine BS) (l : list FSoundChan) :=
  mkEngine (SoundPaused st) (ListenerObject st) (Channels st) l (S_sfx st)
           (S_Rolloff st) (S_SoundCurve st) (S_rnd st) (nosfx st) (nosound st)
           (sfx_empty st) (GSndState st) (rand_calls st) (allocated st).

Definition set_S_sfx {BS} (st : SoundEngine BS) (l : list sfxinfo_t) :=
  mkEngine (SoundPaused st) (ListenerObject st) (Channels st) (FreeChannels st)
           l (S_Rolloff st) (S_SoundCurve st) (S_rnd st) (nosfx st) (nosound st)
           (sfx_empty st) (GSndState st) (rand_calls st) (allocated st).

Definition set_GSndState {BS} (st : SoundEngine BS) (b : BS) :=
  mkEngine (SoundPaused st) (ListenerObject st) (Channels st) (FreeChannels st)
           (S_sfx st) (S_Rolloff st) (S_SoundCurve st) (S_rnd st) (nosfx st)
           (nosound st) (sfx_empty st) b (rand_calls st) (allocated st).

Definition set_rand_calls {BS} (st : SoundEngine BS) (n : nat) :=
  mkEngine (SoundPaused st) (ListenerObject st) (Channels st) (FreeChannels st)
           (S_sfx st) (S_Rolloff st) (S_SoundCurve st) (S_rnd st) (nosfx st)
           (nosound st) (sfx_empty st) (GSndState st) n (allocated st).

Definition set_allocated {BS} (st : SoundEngine BS) (n : nat) :=
  mkEngine (SoundPaused st) (ListenerObject st) (Channels st) (FreeChannels st)
           (S_sfx st) (S_Rolloff st) (S_SoundCurve st) (S_rnd st) (nosfx st)
           (nosound st) (sfx_empty st) (GSndState st) (rand_calls st) n.

Section Engine.

Context {BS : Type}.

(** The backend, the client, the successive values of [rand()], and how
    the two members of the union in [FSoundChan] overlay each other. *)
Variable GSnd : SoundRenderer BS.
Variable client : SoundClient.
Variable rand_value : nat -> Z.
Variable ptr_of_point : FVector3 -> Z.
Variable point_of_ptr : Z -> FVector3.

Abbreviation Engine := (SoundEngine BS).

(** ** Tables *)

Fixpoint update_nth {A : Type} (n : nat) (f : A -> A) (l : list A) : list A :=
  match l, n with
  | [], _ => []
  | x :: t, O => f x :: t
  | x :: t, S m => x :: update_nth m f t
  end.

(** [S_sfx[id]]; an index outside the table (not checked by the code) is
    shown as a lumpless default entry. *)
Definition sfx_at (st : Engine) (id : Z) : sfxinfo_t :=
  nth (Z.to_nat id) (S_sfx st) (default_sfx (-1) 0).

Definition update_sfx (st : Engine) (id : Z) (f : sfxinfo_t -> sfxinfo_t)
  : Engine :=
  set_S_sfx st (update_nth (Z.to_nat id) f (S_sfx st)).

Definition rnd_at (st : Engine) (i : Z) : FRandomSoundList :=
  nth (Z.to_nat i) (S_rnd st) (mkRnd [] 0).

Definition rand (st : Engine) : Z * Engine :=
  (rand_value (rand_calls st), set_rand_calls st (S (rand_calls st))).

(** ** The two channel lists

    A pointer to a channel is its address; the lists hold the objects in
    list order, head first. *)

Definition at_addr (a : nat) (c : FSoundChan) : bool := (Addr c =? a)%nat.

Definition find_chan (a : nat) (l : list FSoundChan) : option FSoundChan :=
  find (at_addr a) l.

Definition remove_chan (a : nat) (l : list FSoundChan) : list FSoundChan :=
  filter (fun c => negb (at_addr a c)) l.

Definition update_chan (a : nat) (f : FSoundChan -> FSoundChan)
    (l : list FSoundChan) : list FSoundChan :=
  map (fun c => if at_addr a c then f c else c) l.

(** The object behind a pointer, in whichever list it is linked. *)
Definition deref (st : Engine) (a : nat) : option FSoundChan :=
  match find_chan a (Channels st) with
  | Some c => Some c
  | None => find_chan a (FreeChannels st)
  end.

(** An assignment through a pointer. *)
Definition assign (st : Engine) (a : nat) (f : FSoundChan -> FSoundChan)
  : Engine :=
  set_FreeChannels
    (set_Channels st (update_chan a f (Channels st)))
    (update_chan a f (FreeChannels st)).

Definition UnlinkChannel (st : Engine) (a : nat) : Engine :=
  set_FreeChannels
    (set_Channels st (remove_chan a (Channels st)))
    (remove_chan a (FreeChannels st)).

(** [GetChannel(syschan)]: the new head of the active list. *)
Definition GetChannel (st : Engine) (syschan : Z) : nat * Engine :=
  let '(chan, st) :=
    match FreeChannels st with
    | c :: _ => (c, UnlinkChannel st (Addr c))
    | [] => (zeroed (allocated st), set_allocated st (S (allocated st)))
    end in
  let chan := set_SysChannel chan syschan in
  (Addr chan, set_Channels st (chan :: Channels st)).

(** [ReturnChannel(chan)]. *)
Definition ReturnChannel (st : Engine) (a : nat) : Engine :=
  let st := UnlinkChannel st a in
  set_FreeChannels st (zeroed a :: FreeChannels st).

(** [CalcPosVel(chan, &pos, &vel)], the version for a playing sound. *)
Definition CalcPosVel_chan (chan : FSoundChan) : FVector3 * FVector3 :=
  client_CalcPosVel client (SourceType chan) (Source chan) (Some (Point chan))
                    (EntChannel chan) (ChanFlags chan).

(** ** Policy checks *)

(** [CheckSingular(sound_id)]. *)
Definition CheckSingular (st : Engine) (sound_id : Z) : bool :=
  existsb (fun chan => OrgID chan =? sound_id) (Channels st).

(** The loop of [CheckSoundLimit]; [sfx] is the index the pointer [sfx]
    points at. *)
Fixpoint CheckSoundLimit_from (chans : list FSoundChan) (count : Z)
    (sfx : Z) (pos : FVector3) (near_limit : Z) (limit_range : Q)
    (sourcetype actor channel : Z) : bool :=
  match chans with
  | [] => near_limit <=? count
  | chan :: next =>
      if negb (count <? near_limit) then near_limit <=? count
      else if negb (has (ChanFlags chan) CHAN_EVICTED)
              && (SoundID chan =? sfx) then
        if negb (actor =? 0) && (EntChannel chan =? channel)
           && (SourceType chan =? sourcetype) && (Source chan =? actor)
        then false
        else
          let chanorigin := fst (CalcPosVel_chan chan) in
          if Qle_bool (LengthSquared (vsub chanorigin pos)) limit_range
          then CheckSoundLimit_from next (count + 1) sfx pos near_limit
                                    limit_range sourcetype actor channel
          else CheckSoundLimit_from next count sfx pos near_limit
                                    limit_range sourcetype actor channel
      else CheckSoundLimit_from next count sfx pos near_limit limit_range
                                sourcetype actor channel
  end.

Definition CheckSoundLimit (st : Engine) (sfx : Z) (pos : FVector3)
    (near_limit : Z) (limit_range : Q) (sourcetype actor channel : Z) : bool :=
  CheckSoundLimit_from (Channels st) 0 sfx pos near_limit limit_range
                       sourcetype actor channel.

(** The scan of [IsChannelUsed]. *)
Fixpoint IsChannelUsed_scan (chans : list FSoundChan)
    (sourcetype actor channel seen : Z) : bool * Z :=
  match chans with
  | [] => (false, seen)
  | chan :: next =>
      if (SourceType chan =? sourcetype) && (Source chan =? actor) then
        let seen := Z.lor seen (Z.shiftl 1 (EntChannel chan)) in
        if EntChannel chan =? channel then (true, seen)
        else IsChannelUsed_scan next sourcetype actor channel seen
      else IsChannelUsed_scan next sourcetype actor channel seen
  end.

(** [IsChannelUsed(sourcetype, actor, channel, &seen)]: the result and the
    new [seen]. *)
Definition IsChannelUsed (st : Engine) (sourcetype actor channel seen : Z)
  : bool * Z :=
  if has seen (Z.shiftl 1 channel) then (true, seen)
  else IsChannelUsed_scan (Channels st) sourcetype actor channel seen.

(** ** The registry *)

(** [PickReplacement(refid)]; [None] when [fuel] rounds did not leave the
    random headers. *)
Fixpoint PickReplacement (fuel : nat) (st : Engine) (refid : Z)
  : option (Z * Engine) :=
  if bRandomHeader (sfx_at st refid) then
    match fuel with
    | O => None
    | S fuel' =>
        let list := rnd_at st (link (sfx_at st refid)) in
        let '(r, st) := rand st in
        let refid :=
          nth (Z.to_nat (Z.rem r (Z.of_nat (length (Choices list)))))
              (Choices list) 0 in
        PickReplacement fuel' st refid
    end
  else Some (refid, st).

(** ** Loading *)

(** The scan of [LoadSound] for a loaded sound with the same lump. *)
Fixpoint same_lump_from (l : list sfxinfo_t) (i : Z) (lump : Z) : option Z :=
  match l with
  | [] => None
  | s :: t =>
      if isValid (data s) && (link s =? NO_LINK) && (lumpnum s =? lump)
      then Some i
      else same_lump_from t (i + 1) lump
  end.

Inductive LoadStep : Type :=
| LoadDone (sfx : Z)
| LoadAgain.

(** One round of the loop of [LoadSound], entered with no valid [data]. *)
Definition LoadSound_round (st : Engine) (sfx : Z) : Engine * LoadStep :=
  let st :=
    if lumpnum (sfx_at st sfx) =? -1
    then update_sfx st sfx (fun s => set_sfx_lumpnum s (sfx_empty st))
    else st in
  match same_lump_from (S_sfx st) 0 (lumpnum (sfx_at st sfx)) with
  | Some i =>
      let st := update_sfx st sfx (fun s => set_sfx_link s i) in
      let st :=
        if Qeq_bool (MinDistance (Rolloff (sfx_at st sfx))) 0
        then update_sfx st sfx (fun s => set_sfx_Rolloff s (S_Rolloff st))
        else st in
      (st, LoadDone i)
  | None =>
      let sfxdata := client_ReadSound client (lumpnum (sfx_at st sfx)) in
      let st :=
        if (8 <? length sfxdata)%nat then
          let '((snd, also3d), bs) :=
            GSnd_Decode GSnd (GSndState st) (sfx_at st sfx) sfxdata in
          let st := set_GSndState st bs in
          let st := update_sfx st sfx (fun s => set_sfx_data s snd) in
          if also3d
          then update_sfx st sfx (fun s => set_sfx_data3d s (data s))
          else st
        else st in
      if negb (isValid (data (sfx_at st sfx)))
         && negb (lumpnum (sfx_at st sfx) =? sfx_empty st)
      then (update_sfx st sfx (fun s => set_sfx_lumpnum s (sfx_empty st)),
            LoadAgain)
      else (st, LoadDone sfx)
  end.

(** [LoadSound(sfx, pBuffer)]: the index of the entry that holds the data.
    A second round starts from the empty sound and cannot ask for a third. *)
Definition LoadSound (st : Engine) (sfx : Z) : Engine * Z :=
  if GSnd_IsNull GSnd (GSndState st) then (st, sfx)
  else if isValid (data (sfx_at st sfx)) then (st, sfx)
  else
    match LoadSound_round st sfx with
    | (st, LoadDone i) => (st, i)
    | (st, LoadAgain) =>
        if isValid (data (sfx_at st sfx)) then (st, sfx)
        else
          match LoadSound_round st sfx with
          | (st, LoadDone i) => (st, i)
          | (st, LoadAgain) => (st, sfx)
          end
    end.

(** [LoadSound3D(sfx, pBuffer)]. *)
Definition LoadSound3D (st : Engine) (sfx : Z) : Engine :=
  if GSnd_IsNull GSnd (GSndState st) then st
  else if isValid (data3d (sfx_at st sfx)) then st
  else
    let sfxdata := client_ReadSound client (lumpnum (sfx_at st sfx)) in
    let '(snd, bs) :=
      GSnd_Decode3D GSnd (GSndState st) (sfx_at st sfx) sfxdata in
    update_sfx (set_GSndState st bs) sfx (fun s => set_sfx_data3d s snd).

(** ** The callbacks and stopping *)

(** [ChannelEnded(ichan)]: whether the channel counts as evicted. *)
Definition ended_evicted (st : Engine) (schan : FSoundChan) : bool :=
  if has (ChanFlags schan) CHAN_FORGETTABLE then false
  else if has (ChanFlags schan) (Z.lor CHAN_LOOP CHAN_EVICTED) then true
  else
    let pos := GSnd_GetPosition GSnd (GSndState st) schan in
    let len := GSnd_GetSampleLength GSnd (GSndState st)
                                    (data (sfx_at st (SoundID schan))) in
    if pos =? 0 then has (ChanFlags schan) CHAN_JUSTSTARTED
    else pos <? len.

Definition ChannelEnded (st : Engine) (ichan : option nat) : Engine :=
  match ichan with
  | None => st
  | Some a =>
      match deref st a with
      | None => st
      | Some schan =>
          if negb (ended_evicted st schan) then ReturnChannel st a
          else
            assign st a (fun c =>
              set_SysChannel
                (set_ChanFlags c (Z.lor (ChanFlags c) CHAN_EVICTED)) 0)
      end
  end.

Definition set_Source (c : FSoundChan) (v : Z) : FSoundChan :=
  mkChan (Addr c) (SysChannel c) (StartTime c) (DistanceScale c) (ChanFlags c)
         (SoundID c) (OrgID c) (ChanVolume c) (Pitch c) (EntChannel c)
         (Priority c) (ChanNearLimit c) (SourceType c) (ChanLimitRange c)
         v (point_of_ptr v).

Definition set_Point (c : FSoundChan) (v : FVector3) : FSoundChan :=
  mkChan (Addr c) (SysChannel c) (StartTime c) (DistanceScale c) (ChanFlags c)
         (SoundID c) (OrgID c) (ChanVolume c) (Pitch c) (EntChannel c)
         (Priority c) (ChanNearLimit c) (SourceType c) (ChanLimitRange c)
         (ptr_of_point v) v.

(** Modelled from the spec: [GSnd->StopChannel(chan)], the backend's side of
    stopping, which is not among the sources; the backend releases the voice
    and reports it through the [ChannelEnded] callback. *)
Definition backend_StopChannel (st : Engine) (chan : FSoundChan) : Engine :=
  let st := set_GSndState st (GSnd_StopChannel GSnd (GSndState st) chan) in
  ChannelEnded st (Some (Addr chan)).

(** [StopChannel(chan)]. *)
Definition StopChannel (st : Engine) (chan : option nat) : Engine :=
  match chan with
  | None => st
  | Some a =>
      match deref st a with
      | None => st
      | Some c =>
          if negb (SysChannel c =? 0) then
            let st :=
              if negb (has (ChanFlags c) CHAN_EVICTED) then
                let st := assign st a (fun c =>
                  set_ChanFlags c (Z.lor (ChanFlags c) CHAN_FORGETTABLE)) in
                if SourceType c =? SOURCE_Actor
                then assign st a (fun c => set_Source c 0)
                else st
              else st in
            match deref st a with
            | Some c => backend_StopChannel st c
            | None => st
            end
          else ReturnChannel st a
      end
  end.

(** The loop of the one-argument [StopSound], over the channels that were
    active when it started ([next] is read before the channel is stopped). *)
Fixpoint StopSound_from (st : Engine) (chans : list FSoundChan) : Engine :=
  match chans with
  | [] => st
  | chan :: next =>
      let st :=
        match deref st (Addr chan) with
        | Some c =>
            if SourceType c =? SOURCE_None
            then StopChannel st (Some (Addr chan))
            else st
        | None => st
        end in
      StopSound_from st next
  end.

(** [StopSound(channel)]. *)
Definition StopSound (st : Engine) (channel : Z) : Engine :=
  StopSound_from st (Channels st).

(** ** The scheduler: [StartSound] *)

(** How a call ends: a returned pointer (or null) and the state left
    behind, or no return within the given number of loop rounds. *)
Inductive Outcome : Type :=
| Returns (chan : option nat) (st : Engine)
| NoReturn.

(** The parameters and locals of [StartSound]; [sfx] is the index the
    pointer [sfx] points at, [rolloff] the descriptor [rolloff] points at. *)
Record Locals : Type := mkLocals {
  l_type : Z;
  l_source : Z;
  l_pt : option FVector3;
  l_channel : Z;
  l_sound_id : Z;
  l_volume : Q;
  l_attenuation : Q;
  l_forcedrolloff : option (FRolloffInfo Q);
  l_spitch : Q;
  l_sfx : Z;
  l_chanflags : Z;
  l_basepriority : Z;
  l_org_id : Z;
  l_pitch : Z;
  l_pos : FVector3;
  l_vel : FVector3;
  l_rolloff : FRolloffInfo Q;
  l_near_limit : Z;
  l_limit_range : Q;
  l_pitchmask : Z;
  l_seen : Z
}.

(** The loop "Resolve player sounds, random sounds, and aliases". *)
Fixpoint resolve_links (fuel : nat) (st : Engine) (sound_id : Z)
    (attenuation : Q) (near_limit : Z) (limit_range : Q)
    (rolloff : FRolloffInfo Q)
  : option (Engine * Z * Q * Z * Q * FRolloffInfo Q) :=
  let sfx := sfx_at st sound_id in
  if link sfx =? NO_LINK
  then Some (st, sound_id, attenuation, near_limit, limit_range, rolloff)
  else
    match fuel with
    | O => None
    | S fuel' =>
        let picked :=
          if bRandomHeader sfx then
            match PickReplacement fuel' st sound_id with
            | Some (id, st) => Some (st, id, (attenuation * Attenuation sfx)%Q)
            | None => None
            end
          else Some (st, link sfx, attenuation) in
        match picked with
        | None => None
        | Some (st, sound_id, attenuation) =>
            let '(near_limit, limit_range) :=
              if near_limit <? 0
              then (NearLimit (sfx_at st sound_id),
                    LimitRange (sfx_at st sound_id))
              else (near_limit, limit_range) in
            let rolloff :=
              if Qeq_bool (MinDistance rolloff) 0
              then Rolloff (sfx_at st sound_id)
              else rolloff in
            resolve_links fuel' st sound_id attenuation near_limit
                          limit_range rolloff
        end
    end.

(** Lines 371-469: the guards, the resolution of the sound and the singular
    and near-limit checks.  [inl] is an early return. *)
Definition StartSound_check (fuel : nat) (st : Engine) (type source : Z)
    (pt : option FVector3) (channel sound_id : Z) (volume attenuation : Q)
    (forcedrolloff : option (FRolloffInfo Q)) (spitch : Q)
  : Outcome + Engine * Locals :=
  if (sound_id <=? 0) || Qle_bool volume 0 || nosfx st || nosound st
  then inl (Returns None st)
  else
    let type :=
      if (type =? SOURCE_Unattached)
         && match pt with None => true | Some _ => false end
      then SOURCE_None else type in
    let org_id := sound_id in
    let chanflags := Z.land channel (Z.lnot 7) in
    let channel := Z.land channel 7 in
    let '(pos, vel) :=
      client_CalcPosVel client type source pt channel chanflags in
    if negb (client_ValidatePosVel client type source pos vel)
    then inl (Returns None st)
    else
      let sfx := sfx_at st sound_id in
      let volume := Qmin (volume * Volume sfx) 1 in
      if Qle_bool volume 0 then inl (Returns None st)
      else
        let pitchmask := PitchMask sfx in
        match resolve_links fuel st sound_id attenuation (NearLimit sfx)
                            (LimitRange sfx) (Rolloff sfx) with
        | None => inl NoReturn
        | Some (st, sound_id, attenuation, near_limit, limit_range, rolloff) =>
            let sfx := sfx_at st sound_id in
            let attenuation := (attenuation * Attenuation sfx)%Q in
            let rolloff :=
              match forcedrolloff with
              | Some f => if negb (Qeq_bool (MinDistance f) 0) then f
                          else rolloff
              | None => rolloff
              end in
            let rolloff :=
              if Qeq_bool (MinDistance rolloff) 0 then S_Rolloff st
              else rolloff in
            let chanflags :=
              if bSingular sfx && CheckSingular st sound_id
              then Z.lor chanflags CHAN_EVICTED else chanflags in
            let near_limit :=
              if (type =? SOURCE_None) || (source =? ListenerObject st)
              then 0 else near_limit in
            let chanflags :=
              if (0 <? near_limit)
                 && CheckSoundLimit st sound_id pos near_limit limit_range
                      type (if type =? SOURCE_Actor then source else 0)
                      channel
              then Z.lor chanflags CHAN_EVICTED else chanflags in
            inr (st,
                 mkLocals type source pt channel sound_id volume attenuation
                          forcedrolloff spitch sound_id chanflags 0 org_id 0
                          pos vel rolloff near_limit limit_range pitchmask 0)
        end.

(** The search of lines 509-515 for a free channel, from [channel] down. *)
Fixpoint search_down (n : nat) (st : Engine) (type source seen : Z) : Z * Z :=
  match n with
  | O => (0, seen)
  | S m =>
      let '(used, seen) := IsChannelUsed st type source (Z.of_nat n) seen in
      if negb used then (Z.of_nat n, seen)
      else search_down m st type source seen
  end.

(** Lines 498-521: [None] is "No free channels". *)
Definition select_channel (st : Engine) (type source channel : Z)
  : option (Z * Z) :=
  let seen := 0 in
  if negb (source =? 0) && (channel =? CHAN_AUTO) then
    let '(used, seen) := IsChannelUsed st type source 0 seen in
    if negb used then Some (0, seen)
    else
      let '(channel, seen) := search_down 7 st type source seen in
      if channel =? 0 then None else Some (channel, seen)
  else Some (channel, seen).

Definition Qeq_vec (a b : FVector3) : bool :=
  Qeq_bool (X a) (X b) && Qeq_bool (Zc a) (Zc b) && Qeq_bool (Y a) (Y b).

(** The loop of lines 526-540: the channel to stop, if there is one. *)
Fixpoint playing_on (chans : list FSoundChan) (type source : Z)
    (pt : option FVector3) (channel : Z) : option nat :=
  match chans with
  | [] => None
  | chan :: next =>
      if (SourceType chan =? type) && (EntChannel chan =? channel)
         && (if type =? SOURCE_Unattached
             then match pt with
                  | Some p => Qeq_vec (Point chan) p
                  | None => false
                  end
             else Source chan =? source)
      then Some (Addr chan)
      else playing_on next type source pt channel
  end.

(** Lines 471-558: the early return for a blocked sound, loading, priority,
    the channel, the sound it replaces, the pause gate and the pitch. *)
Definition StartSound_select (st : Engine) (l : Locals)
  : Outcome + Engine * Locals :=
  if Z.land (l_chanflags l) (Z.lor CHAN_EVICTED CHAN_LOOP) =? CHAN_EVICTED
  then inl (Returns None st)
  else
    let '(st, sfx) := LoadSound st (l_sfx l) in
    if lumpnum (sfx_at st sfx) =? sfx_empty st then inl (Returns None st)
    else
      let basepriority :=
        if (l_type l =? SOURCE_None) || (l_source l =? ListenerObject st)
        then 80 else 0 in
      match select_channel st (l_type l) (l_source l) (l_channel l) with
      | None => inl (Returns None st)
      | Some (channel, seen) =>
          let '(stop, seen) :=
            if negb (l_type l =? SOURCE_None) then
              if (l_source l =? 0) && negb (channel =? CHAN_AUTO)
              then (true, seen)
              else if negb (l_source l =? 0)
              then IsChannelUsed st (l_type l) (l_source l) channel seen
              else (false, seen)
            else (false, seen) in
          let st :=
            if stop
            then StopChannel st (playing_on (Channels st) (l_type l)
                                            (l_source l) (l_pt l) channel)
            else st in
          if negb (has (l_chanflags l) CHAN_LOOP)
             && negb (has (l_chanflags l) (Z.lor CHAN_UI CHAN_NOPAUSE))
             && SoundPaused st
          then inl (Returns None st)
          else
            let '(pitch, st) :=
              if negb (l_pitchmask l =? 0) then
                let '(r1, st) := rand st in
                let '(r2, st) := rand st in
                (DEFAULT_PITCH - Z.land r1 (l_pitchmask l)
                 + Z.land r2 (l_pitchmask l), st)
              else (DEFAULT_PITCH, st) in
            inr (st,
                 mkLocals (l_type l) (l_source l) (l_pt l) channel
                          (l_sound_id l) (l_volume l) (l_attenuation l)
                          (l_forcedrolloff l) (l_spitch l) sfx (l_chanflags l)
                          basepriority (l_org_id l) pitch (l_pos l) (l_vel l)
                          (l_rolloff l) (l_near_limit l) (l_limit_range l)
                          (l_pitchmask l) seen)
      end.

(** The flags handed to the backend (lines 566-570). *)
Definition startflags_of (chanflags : Z) : Z :=
  let f := 0 in
  let f := if has chanflags CHAN_LOOP then Z.lor f SNDF_LOOP else f in
  let f := if has chanflags CHAN_AREA then Z.lor f SNDF_AREA else f in
  let f := if has chanflags (Z.lor CHAN_UI CHAN_NOPAUSE)
           then Z.lor f SNDF_NOPAUSE else f in
  if has chanflags CHAN_UI then Z.lor f SNDF_NOREVERB else f.

(** Lines 560-581: the request to the backend; the voice it grants, if it
    was asked and did not refuse. *)
Definition start_voice (st : Engine) (l : Locals) : option Z * Engine :=
  if has (l_chanflags l) CHAN_EVICTED then (None, st)
  else
    let startflags := startflags_of (l_chanflags l) in
    if negb (Qle_bool (l_attenuation l) 0) then
      let st := LoadSound3D st (l_sfx l) in
      let '(voice, bs) :=
        GSnd_StartSound3D GSnd (GSndState st) (data3d (sfx_at st (l_sfx l)))
          (ListenerObject st) (l_volume l) (l_rolloff l) (l_attenuation l)
          (l_pitch l) (l_basepriority l) (l_pos l) (l_vel l) (l_channel l)
          startflags in
      (voice, set_GSndState st bs)
    else
      let '(voice, bs) :=
        GSnd_StartSound GSnd (GSndState st) (data (sfx_at st (l_sfx l)))
          (l_volume l) (l_pitch l) startflags in
      (voice, set_GSndState st bs).

(** Truncation of a [float] to [int]. *)
Definition Qtruncate (q : Q) : Z :=
  if Qle_bool 0 q then Qfloor q else Qceiling q.

(** [SetPitch(chan, pitch)]. *)
Definition SetPitch (st : Engine) (a : nat) (pitch : Q) : Engine :=
  match deref st a with
  | None => st
  | Some c =>
      let st := set_GSndState st
        (GSnd_ChannelPitch GSnd (GSndState st) c (Qmax (1 # 10000) pitch)) in
      assign st a (fun c =>
        set_Pitch c (to_int16 (Z.max 1
          (Qtruncate (inject_Z DEFAULT_PITCH * pitch)))))
  end.

(** The assignments of lines 598-616. *)
Definition record_start (l : Locals) (chanflags : Z) (c : FSoundChan)
  : FSoundChan :=
  let c :=
    mkChan (Addr c) (SysChannel c) (StartTime c) (l_attenuation l)
           (Z.lor (ChanFlags c) chanflags) (l_sound_id l) (l_org_id l)
           (l_volume l) (to_int16 (l_pitch l)) (to_uint8 (l_channel l))
           (to_int8 (l_basepriority l)) (to_int16 (l_near_limit l))
           (to_uint8 (l_type l)) (l_limit_range l) (Source c) (Point c) in
  if l_type l =? SOURCE_Unattached then
    match l_pt l with
    | Some p => set_Point c p
    | None => c
    end
  else if negb (l_type l =? SOURCE_None) then set_Source c (l_source l)
  else c.

(** Lines 560-622: starting, or parking a loop that could not start, and
    recording the channel.  A voice the backend grants comes with the
    channel the backend took from [GetChannel]. *)
Definition StartSound_play (st : Engine) (l : Locals) : Outcome :=
  let '(voice, st) := start_voice st l in
  let '(chan, st, chanflags) :=
    match voice with
    | Some syschan =>
        let '(a, st) := GetChannel st syschan in
        (Some a, st, l_chanflags l)
    | None =>
        if has (l_chanflags l) CHAN_LOOP then
          let '(a, st) := GetChannel st 0 in
          let st :=
            match deref st a with
            | Some c =>
                assign st a (fun c =>
                  set_StartTime c (GSnd_MarkStartTime GSnd (GSndState st) c))
            | None => st
            end in
          (Some a, st, Z.lor (l_chanflags l) CHAN_EVICTED)
        else (None, st, l_chanflags l)
    end in
  let chanflags :=
    if negb (Qle_bool (l_attenuation l) 0)
    then Z.lor chanflags (Z.lor CHAN_IS3D CHAN_JUSTSTARTED)
    else Z.lor chanflags (Z.lor CHAN_LISTENERZ CHAN_JUSTSTARTED) in
  match chan with
  | Some a =>
      let st := assign st a (record_start l chanflags) in
      let st :=
        if negb (Qle_bool (l_spitch l) 0) then SetPitch st a (l_spitch l)
        else st in
      Returns (Some a) st
  | None => Returns None st
  end.

(** [StartSound(type, source, pt, channel, sound_id, volume, attenuation,
    forcedrolloff, spitch)]. *)
Definition StartSound (fuel : nat) (st : Engine) (type source : Z)
    (pt : option FVector3) (channel sound_id : Z) (volume attenuation : Q)
    (forcedrolloff : option (FRolloffInfo Q)) (spitch : Q) : Outcome :=
  match StartSound_check fuel st type source pt channel sound_id volume
                         attenuation forcedrolloff spitch with
  | inl out => out
  | inr (st, l) =>
      match StartSound_select st l with
      | inl out => out
      | inr (st, l) => StartSound_play st l
      end
  end.

(** ** Notions used to state the properties *)

(** Distinct channel objects have distinct addresses, below the allocation
    counter. *)
Definition well_formed (st : Engine) : Prop :=
  NoDup (map Addr (Channels st ++ FreeChannels st)) /\
  Forall (fun c => (Addr c < allocated st)%nat)
         (Channels st ++ FreeChannels st).

(** Two states with the same channel lists and allocation counter. *)
Definition same_channels (st st' : Engine) : Prop :=
  Channels st' = Channels st /\ FreeChannels st' = FreeChannels st /\
  allocated st' = allocated st.

(** The channel [c] at address [a] heads the active list, before [old]. *)
Definition headed (st : Engine) (old : list FSoundChan) (a : nat)
    (c : FSoundChan) : Prop :=
  Channels st = c :: old /\ Addr c = a /\ well_formed st.

(** Every bit set in the mask [seen] stands for a slot the emitter uses. *)
Definition seen_sound (st : Engine) (sourcetype actor seen : Z) : Prop :=
  forall k, Z.testbit seen k = true ->
            In k (map EntChannel
                      (filter (fun c => (SourceType c =? sourcetype)
                                        && (Source c =? actor))
                              (Channels st))).

(** The order in which the automatic slot search hands out the slots. *)
Definition auto_order : list Z := [0; 7; 6; 5; 4; 3; 2; 1].

(** A channel of the emitter [(sourcetype, actor)]. *)
Definition emitted_by (sourcetype actor : Z) (chan : FSoundChan) : bool :=
  (SourceType chan =? sourcetype) && (Source chan =? actor).

(** The slots the emitter has channels on, newest first. *)
Definition slots_of (st : Engine) (sourcetype actor : Z) : list Z :=
  map EntChannel (filter (emitted_by sourcetype actor) (Channels st)).

Definition slot_used (st : Engine) (sourcetype actor channel : Z) : bool :=
  existsb (Z.eqb channel) (slots_of st sourcetype actor).

(** The slot an automatic start is to get: 0 if free, else the highest free
    one of 7..1. *)
Definition first_free (used : Z -> bool) : option Z :=
  if negb (used 0) then Some 0
  else find (fun k => negb (used k)) [7; 6; 5; 4; 3; 2; 1].

(** The type a start works with after its first guard. *)
Definition effective_type (type : Z) (pt : option FVector3) : Z :=
  if (type =? SOURCE_Unattached)
     && match pt with None => true | Some _ => false end
  then SOURCE_None else type.

(** What varies between the starts of one emitter on the automatic slot:
    the flags (upper bits of [channel]), the sound and the volumes. *)
Record AutoStart : Type := mkAutoStart {
  a_flags : Z;
  a_sound_id : Z;
  a_volume : Q;
  a_attenuation : Q;
  a_forcedrolloff : option (FRolloffInfo Q);
  a_spitch : Q
}.

(** Successive starts by one actor; for each call that returned, the slot
    of the channel or [None] for a null pointer.  The list ends at a call
    that did not return. *)
Fixpoint auto_starts (fuel : nat) (st : Engine) (actor : Z)
    (reqs : list AutoStart) : list (option Z) :=
  match reqs with
  | [] => []
  | r :: rest =>
      match StartSound fuel st SOURCE_Actor actor None (a_flags r)
                       (a_sound_id r) (a_volume r) (a_attenuation r)
                       (a_forcedrolloff r) (a_spitch r) with
      | Returns (Some a) st' =>
          option_map EntChannel (find_chan a (Channels st'))
          :: auto_starts fuel st' actor rest
      | Returns None st' => None :: auto_starts fuel st' actor rest
      | NoReturn => []
      end
  end.

(** The state after successive starts, as far as they return. *)
Fixpoint after_starts (fuel : nat) (st : Engine) (actor : Z)
    (reqs : list AutoStart) : Engine :=
  match reqs with
  | [] => st
  | r :: rest =>
      match StartSound fuel st SOURCE_Actor actor None (a_flags r)
                       (a_sound_id r) (a_volume r) (a_attenuation r)
                       (a_forcedrolloff r) (a_spitch r) with
      | Returns _ st' => after_starts fuel st' actor rest
      | NoReturn => st
      end
  end.

(** What [StopSound(channel)] leaves of an active channel: nothing of an
    unpositioned one, unless it was flagged evicted (and not forgettable)
    while still holding a voice, which parks it. *)
Definition after_StopSound (c : FSoundChan) : list FSoundChan :=
  if SourceType c =? SOURCE_None then
    if negb (SysChannel c =? 0) && has (ChanFlags c) CHAN_EVICTED
       && negb (has (ChanFlags c) CHAN_FORGETTABLE)
    then [set_SysChannel (set_ChanFlags c (Z.lor (ChanFlags c) CHAN_EVICTED)) 0]
    else []
  else [c].

(** The two ends of [ChannelEnded] for the channel [schan] at address [a]:
    parked in the active list without a voice, or back in the free list. *)
Definition parked (st' : Engine) (a : nat) (schan : FSoundChan) : Prop :=
  exists c,
    find_chan a (Channels st') = Some c /\
    has (ChanFlags c) CHAN_EVICTED = true /\ SysChannel c = 0 /\
    c = set_SysChannel
          (set_ChanFlags schan (Z.lor (ChanFlags schan) CHAN_EVICTED)) 0.

Definition retired (st st' : Engine) (a : nat) : Prop :=
  find_chan a (Channels st') = None /\
  FreeChannels st' = zeroed a :: remove_chan a (FreeChannels st).

(** The near-limit rule as the specification words it: a playing copy on
    the caller's own [(source_type, actor, channel)] exempts the start
    wherever it stands in the list; otherwise the nearby copies are counted. *)
Definition limit_candidate (sfx : Z) (chan : FSoundChan) : bool :=
  negb (has (ChanFlags chan) CHAN_EVICTED) && (SoundID chan =? sfx).

Definition same_emitter_slot (sourcetype actor channel : Z)
    (chan : FSoundChan) : bool :=
  negb (actor =? 0) && (EntChannel chan =? channel)
  && (SourceType chan =? sourcetype) && (Source chan =? actor).

Definition nearby (pos : FVector3) (limit_range : Q) (chan : FSoundChan)
  : bool :=
  Qle_bool (LengthSquared (vsub (fst (CalcPosVel_chan chan)) pos)) limit_range.

Definition CheckSoundLimit_as_specified (st : Engine) (sfx : Z)
    (pos : FVector3) (near_limit : Z) (limit_range : Q)
    (sourcetype actor channel : Z) : bool :=
  let copies := filter (limit_candidate sfx) (Channels st) in
  if existsb (same_emitter_slot sourcetype actor channel) copies then false
  else near_limit <=? Z.of_nat (length (filter (nearby pos limit_range) copies)).

End Engine.

End Sound.
(** ** A small world to run the engine in *)

Module World.
Import Rolloff Sound.
Local Open Scope Z_scope.

Definition origin : FVector3 := mkVec 0 0 0.

(** A backend that grants every voice and numbers them; its state is the
    number of voices granted so far. *)
Definition granting : SoundRenderer nat :=
  mkRenderer nat
    (fun _ => false)
    (fun bs _ _ _ _ => (Some (Z.of_nat (S bs)), S bs))
    (fun bs _ _ _ _ _ _ _ _ _ _ _ => (Some (Z.of_nat (S bs)), S bs))
    (fun _ _ => 1000)
    (fun _ _ => 0)
    (fun _ _ => 100)
    (fun bs s _ => ((Some (lumpnum s), true), bs))
    (fun bs s _ => (Some (lumpnum s), bs))
    (fun bs _ => bs)
    (fun bs _ _ => bs).

(** A backend that loads every sound and refuses every voice. *)
Definition refusing : SoundRenderer nat :=
  mkRenderer nat
    (fun _ => false)
    (fun bs _ _ _ _ => (None, bs))
    (fun bs _ _ _ _ _ _ _ _ _ _ _ => (None, bs))
    (fun _ _ => 1000)
    (fun _ _ => 0)
    (fun _ _ => 100)
    (fun bs s _ => ((Some (lumpnum s), true), bs))
    (fun bs s _ => (Some (lumpnum s), bs))
    (fun bs _ => bs)
    (fun bs _ _ => bs).

(** A client whose emitters all sit at the origin (an unattached sound at
    its point), and whose lumps are 16 bytes long. *)
Definition still : SoundClient :=
  mkClient
    (fun _ _ pt _ _ => (match pt with Some p => p | None => origin end, origin))
    (fun _ _ _ _ => true)
    (fun lump => if lump =? -1 then [] else repeat 0 16%nat).

Definition no_rand : nat -> Z := fun _ => 0.
Definition ptr_bits : FVector3 -> Z := fun _ => 0.
Definition point_bits : Z -> FVector3 := fun _ => origin.

(** Sound 1 is an alias of sound 2, which is singular; sound 3 keeps the
    defaults of [AddSoundLump] (two nearby copies); sound 4 is unlimited. *)
Definition sounds : list sfxinfo_t :=
  [ default_sfx (-1) 0;
    set_sfx_link (default_sfx (-1) 0) 2;
    mkSfx None None 20 1 0 2 (65536 # 1) false false true NO_LINK
          (mkRolloff ROLLOFF_Doom 0%Q 0%Q 0%Q) 1;
    default_sfx 30 0;
    mkSfx None None 40 1 0 0 (65536 # 1) false false false NO_LINK
          (mkRolloff ROLLOFF_Doom 0%Q 0%Q 0%Q) 1 ].

Definition silence : SoundEngine nat :=
  mkEngine false 99 [] [] sounds
           (mkRolloff ROLLOFF_Doom (200 # 1) (1200 # 1) 1%Q) [] []
           false false (-1) 0%nat 0%nat 0%nat.

(** [StartSound] in this world, at full volume and attenuation 1. *)
Definition start (st : SoundEngine nat) (type source channel sound_id : Z)
  : Outcome :=
  StartSound granting still no_rand ptr_bits point_bits 4 st type source None
             channel sound_id 1 1 None 0.

Definition state_of (o : Outcome (BS := nat)) : SoundEngine nat :=
  match o with
  | Returns _ st => st
  | NoReturn => silence
  end.

Definition pointer_of (o : Outcome (BS := nat)) : option nat :=
  match o with
  | Returns p _ => p
  | NoReturn => None
  end.

(** The state in which actor 1000 plays sound 3 (near-limit 2) on slot 1
    and two unpositioned copies of it were started afterwards. *)
Definition crowded : SoundEngine nat :=
  state_of (start (state_of (start (state_of
    (start silence SOURCE_Actor 1000 1 3)) SOURCE_None 0 2 3)) SOURCE_None 0 3 3).

(** Starts of the singular sound 2 by actor 1000, looping, on the automatic
    slot. *)
Fixpoint loop_starts (n : nat) (st : SoundEngine nat) : SoundEngine nat :=
  match n with
  | O => st
  | S m => loop_starts m (state_of (start st SOURCE_Actor 1000 CHAN_LOOP 2))
  end.

(** Nine starts of the unlimited sound 4 on the automatic slot. *)
Definition nine_starts : list AutoStart :=
  repeat (mkAutoStart CHAN_AUTO 4 1 1 None 0) 9.

End World.

(** * The scalar layer of the serializer ([serializer.cpp]) *)

Module Serializer.
Local Open Scope Z_scope.

(** ** The JSON tree

    Modelled from the spec: the RapidJSON document, which is not among the
    sources.  The writer emits text and the reader parses it again; the
    model goes from the writer's calls straight to the tree the parser
    builds from that text.  An object keeps its members in the order they
    were written, duplicates included. *)
#[warnings="-register-all"]
Inductive JValue : Type :=
| JNull
| JBool (b : bool)
| JInt (z : Z)
| JArray (l : list JValue)
| JObject (m : list (string * JValue)).

Definition IsBool (v : JValue) : bool :=
  match v with JBool _ => true | _ => false end.

Definition in_range (lo hi : Z) (v : JValue) : bool :=
  match v with JInt z => (lo <=? z) && (z <=? hi) | _ => false end.

Definition IsInt : JValue -> bool := in_range (-2147483648) 2147483647.
Definition IsUint : JValue -> bool := in_range 0 4294967295.
Definition IsInt64 : JValue -> bool :=
  in_range (-9223372036854775808) 9223372036854775807.
Definition IsUint64 : JValue -> bool := in_range 0 18446744073709551615.

Definition GetBool (v : JValue) : bool :=
  match v with JBool b => b | _ => false end.

Definition GetInt (v : JValue) : Z :=
  match v with JInt z => z | _ => 0 end.

(** [Value::FindMember]: the first member of that name. *)
Definition FindMember (m : list (string * JValue)) (key : string)
  : option JValue :=
  match find (fun kv => String.eqb (fst kv) key) m with
  | Some kv => Some (snd kv)
  | None => None
  end.

(** ** The writer *)

(** A container the RapidJSON writer has open: an object with the key that
    waits for its value, or an array. *)
Record Level : Type := mkLevel {
  lv_object : bool;
  lv_key : option string;
  lv_members : list (string * JValue);
  lv_elems : list JValue
}.

(** [FWriter]: the stack [mInObject] (top first), the containers the
    RapidJSON writer has open (innermost first) and the finished root. *)
Record FWriter : Type := mkWriter {
  mInObject : list bool;
  open_levels : list Level;
  mOutString : option JValue
}.

Definition inObject (w : FWriter) : bool :=
  match mInObject w with
  | top :: _ => top
  | [] => false
  end.

(** A value arrives at the innermost open container; in an object it takes
    the waiting key (RapidJSON asserts that there is one). *)
Definition put (w : FWriter) (v : JValue) : FWriter :=
  match open_levels w with
  | [] => mkWriter (mInObject w) [] (Some v)
  | lv :: rest =>
      if lv_object lv then
        match lv_key lv with
        | Some k =>
            mkWriter (mInObject w)
                     (mkLevel true None (lv_members lv ++ [(k, v)]) [] :: rest)
                     (mOutString w)
        | None => w
        end
      else
        mkWriter (mInObject w)
                 (mkLevel false None [] (lv_elems lv ++ [v]) :: rest)
                 (mOutString w)
  end.

Definition writer_Key (w : FWriter) (k : string) : FWriter :=
  match open_levels w with
  | [] => w
  | lv :: rest =>
      mkWriter (mInObject w)
               (mkLevel (lv_object lv) (Some k) (lv_members lv) (lv_elems lv)
                :: rest)
               (mOutString w)
  end.

Definition writer_Start (w : FWriter) (object : bool) : FWriter :=
  mkWriter (mInObject w) (mkLevel object None [] [] :: open_levels w)
           (mOutString w).

Definition writer_End (w : FWriter) : FWriter :=
  match open_levels w with
  | [] => w
  | lv :: rest =>
      put (mkWriter (mInObject w) rest (mOutString w))
          (if lv_object lv then JObject (lv_members lv)
           else JArray (lv_elems lv))
  end.

Definition set_mInObject (w : FWriter) (s : list bool) : FWriter :=
  mkWriter s (open_levels w) (mOutString w).

(** ** The reader *)

Record FJSONObject : Type := mkJSONObject {
  mObject : JValue;
  mIndex : Z
}.

(** [FReader]: the stack [mObjects] (top first) and [mKeyValue]. *)
Record FReader : Type := mkReader {
  mObjects : list FJSONObject;
  mKeyValue : option JValue
}.

(** [FReader::FindKey(key)]; [None] for a null key or result. *)
Definition FindKey (r : FReader) (key : option string)
  : option JValue * FReader :=
  match mObjects r with
  | [] => (None, r)
  | obj :: rest =>
      match mObject obj with
      | JObject m =>
          match key with
          | None => (mKeyValue r, mkReader (mObjects r) None)
          | Some k => (FindMember m k, r)
          end
      | JArray l =>
          if (0 <=? mIndex obj) && (mIndex obj <? Z.of_nat (length l)) then
            (nth_error l (Z.to_nat (mIndex obj)),
             mkReader (mkJSONObject (mObject obj) (mIndex obj + 1) :: rest)
                      (mKeyValue r))
          else (None, r)
      | _ => (None, r)
      end
  end.

(** ** [FSerializer] *)

Record FSerializer : Type := mkSerializer {
  w : option FWriter;
  r : option FReader;
  mErrors : Z
}.

Definition isWriting (arc : FSerializer) : bool :=
  match w arc with Some _ => true | None => false end.

(** [WriteKey(key)]; a null key inside an object is a fatal error
    ([I_Error]), shown as [None]. *)
Definition WriteKey (arc : FSerializer) (key : option string)
  : option FSerializer :=
  match w arc with
  | Some wr =>
      if inObject wr then
        match key with
        | Some k => Some (mkSerializer (Some (writer_Key wr k)) (r arc)
                                       (mErrors arc))
        | None => None
        end
      else Some arc
  | None => Some arc
  end.

Definition with_writer (arc : FSerializer) (f : FWriter -> FWriter)
  : FSerializer :=
  match w arc with
  | Some wr => mkSerializer (Some (f wr)) (r arc) (mErrors arc)
  | None => arc
  end.

(** [BeginObject(name)], with its result; [None] is a fatal error. *)
Definition BeginObject (arc : FSerializer) (name : option string)
  : option (FSerializer * bool) :=
  match w arc with
  | Some _ =>
      match WriteKey arc name with
      | Some arc =>
          Some (with_writer arc (fun wr =>
                  set_mInObject (writer_Start wr true) (true :: mInObject wr)),
                true)
      | None => None
      end
  | None =>
      match r arc with
      | None => None
      | Some rd =>
          let '(val, rd) := FindKey rd name in
          match val with
          | Some (JObject m) =>
              Some (mkSerializer None
                      (Some (mkReader (mkJSONObject (JObject m) 0 :: mObjects rd)
                                      (mKeyValue rd)))
                      (mErrors arc), true)
          | Some _ =>
              Some (mkSerializer None (Some rd) (mErrors arc + 1), false)
          | None => Some (mkSerializer None (Some rd) (mErrors arc), false)
          end
      end
  end.

(** [EndObject()]; outside an object it is a fatal error for the writer. *)
Definition EndObject (arc : FSerializer) : option FSerializer :=
  match w arc with
  | Some wr =>
      if inObject wr
      then Some (with_writer arc (fun wr =>
                   set_mInObject (writer_End wr) (tl (mInObject wr))))
      else None
  | None =>
      match r arc with
      | Some rd =>
          Some (mkSerializer None
                  (Some (mkReader (tl (mObjects rd)) (mKeyValue rd)))
                  (mErrors arc))
      | None => None
      end
  end.

(** [OpenWriter]: a fresh writer inside the root object. *)
Definition OpenWriter : option FSerializer :=
  option_map fst
    (BeginObject (mkSerializer (Some (mkWriter [] [] None)) None 0) None).

(** [OpenReader]: the document parsed from the text. *)
Definition OpenReader (doc : JValue) : FSerializer :=
  mkSerializer None (Some (mkReader [mkJSONObject doc 0] None)) 0.

(** [GetOutput]: null for a reader; with no managed object collected,
    [WriteObjects] writes nothing and [EndObject] closes the root. *)
Definition GetOutput (arc : FSerializer) : option JValue :=
  match w arc with
  | Some _ =>
      match EndObject arc with
      | Some arc =>
          match w arc with
          | Some wr => mOutString wr
          | None => None
          end
      | None => None
      end
  | None => None
  end.

(** ** The scalar overloads of [Serialize]

    Each returns the serializer and the new content of [value]; [None] is a
    fatal error.  [defval] is [None] for a null pointer. *)

Definition Serialize_bool (arc : FSerializer) (key : option string)
    (value : bool) (defval : option bool) : option (FSerializer * bool) :=
  match w arc with
  | Some wr =>
      if negb (inObject wr)
         || match defval with
            | None => true
            | Some d => negb (Bool.eqb value d)
            end
      then
        match WriteKey arc key with
        | Some arc => Some (with_writer arc (fun wr => put wr (JBool value)),
                            value)
        | None => None
        end
      else Some (arc, value)
  | None =>
      match r arc with
      | None => Some (arc, value)
      | Some rd =>
          let '(val, rd) := FindKey rd key in
          let arc := mkSerializer (w arc) (Some rd) (mErrors arc) in
          match val with
          | Some val =>
              if IsBool val then Some (arc, GetBool val)
              else Some (mkSerializer (w arc) (r arc) (mErrors arc + 1), value)
          | None => Some (arc, value)
          end
      end
  end.

(** The four integer overloads ([int64_t], [uint64_t], [int32_t],
    [uint32_t]) differ in the RapidJSON type test only. *)
Definition Serialize_integer (is_type : JValue -> bool) (arc : FSerializer)
    (key : option string) (value : Z) (defval : option Z)
  : option (FSerializer * Z) :=
  match w arc with
  | Some wr =>
      if negb (inObject wr)
         || match defval with
            | None => true
            | Some d => negb (value =? d)
            end
      then
        match WriteKey arc key with
        | Some arc => Some (with_writer arc (fun wr => put wr (JInt value)),
                            value)
        | None => None
        end
      else Some (arc, value)
  | None =>
      match r arc with
      | None => Some (arc, value)
      | Some rd =>
          let '(val, rd) := FindKey rd key in
          let arc := mkSerializer (w arc) (Some rd) (mErrors arc) in
          match val with
          | Some val =>
              if is_type val then Some (arc, GetInt val)
              else Some (mkSerializer (w arc) (r arc) (mErrors arc + 1), value)
          | None => Some (arc, value)
          end
      end
  end.

Definition Serialize_int64 := Serialize_integer IsInt64.
Definition Serialize_uint64 := Serialize_integer IsUint64.
Definition Serialize_int32 := Serialize_integer IsInt.
Definition Serialize_uint32 := Serialize_integer IsUint.

(** Conversions to the narrow integer types. *)
Definition wrap_signed (bits : Z) (z : Z) : Z :=
  (z + 2 ^ (bits - 1)) mod 2 ^ bits - 2 ^ (bits - 1).
Definition wrap_unsigned (bits : Z) (z : Z) : Z := z mod 2 ^ bits.

(** The narrow overloads widen to 32 bits and convert back; without a
    default they pass [value - 1], which differs from [value]. *)
Definition Serialize_int8 (arc : FSerializer) (key : option string)
    (value : Z) (defval : option Z) : option (FSerializer * Z) :=
  let vv := value in
  let vvd := match defval with Some d => d | None => value - 1 end in
  match Serialize_int32 arc key vv (Some vvd) with
  | Some (arc, vv) => Some (arc, wrap_signed 8 vv)
  | None => None
  end.

Definition Serialize_uint8 (arc : FSerializer) (key : option string)
    (value : Z) (defval : option Z) : option (FSerializer * Z) :=
  let vv := value in
  let vvd := match defval with
             | Some d => d
             | None => wrap_unsigned 32 (value - 1)
             end in
  match Serialize_uint32 arc key vv (Some vvd) with
  | Some (arc, vv) => Some (arc, wrap_unsigned 8 vv)
  | None => None
  end.

Definition Serialize_int16 (arc : FSerializer) (key : option string)
    (value : Z) (defval : option Z) : option (FSerializer * Z) :=
  let vv := value in
  let vvd := match defval with Some d => d | None => value - 1 end in
  match Serialize_int32 arc key vv (Some vvd) with
  | Some (arc, vv) => Some (arc, wrap_signed 16 vv)
  | None => None
  end.

Definition Serialize_uint16 (arc : FSerializer) (key : option string)
    (value : Z) (defval : option Z) : option (FSerializer * Z) :=
  let vv := value in
  let vvd := match defval with
             | Some d => d
             | None => wrap_unsigned 32 (value - 1)
             end in
  match Serialize_uint32 arc key vv (Some vvd) with
  | Some (arc, vv) => Some (arc, wrap_unsigned 16 vv)
  | None => None
  end.

(** ** Fields *)

Inductive IntKind : Type := I8 | U8 | I16 | U16 | I32 | U32 | I64 | U64.

(** A scalar of one of the supported boolean and integer types. *)
Inductive Scalar : Type :=
| SBool (b : bool)
| SInt (k : IntKind) (z : Z).

Definition kind_range (k : IntKind) : Z * Z :=
  match k with
  | I8 => (-128, 127)
  | U8 => (0, 255)
  | I16 => (-32768, 32767)
  | U16 => (0, 65535)
  | I32 => (-2147483648, 2147483647)
  | U32 => (0, 4294967295)
  | I64 => (-9223372036854775808, 9223372036854775807)
  | U64 => (0, 18446744073709551615)
  end.

(** A value of the C++ type. *)
Definition well_typed (s : Scalar) : Prop :=
  match s with
  | SBool _ => True
  | SInt k z => fst (kind_range k) <= z <= snd (kind_range k)
  end.

Definition same_type (a b : Scalar) : Prop :=
  match a, b with
  | SBool _, SBool _ => True
  | SInt k _, SInt k' _ => k = k'
  | _, _ => False
  end.

Definition Serialize_kind (k : IntKind)
  : FSerializer -> option string -> Z -> option Z -> option (FSerializer * Z) :=
  match k with
  | I8 => Serialize_int8
  | U8 => Serialize_uint8
  | I16 => Serialize_int16
  | U16 => Serialize_uint16
  | I32 => Serialize_int32
  | U32 => Serialize_uint32
  | I64 => Serialize_int64
  | U64 => Serialize_uint64
  end.

(** Overload resolution: [Serialize(arc, key, value, &defval)] by the type
    of [value]. *)
Definition Serialize (arc : FSerializer) (key : string) (value defval : Scalar)
  : option (FSerializer * Scalar) :=
  match value with
  | SBool b =>
      match Serialize_bool arc (Some key) b
              (match defval with SBool d => Some d | _ => None end) with
      | Some (arc, b) => Some (arc, SBool b)
      | None => None
      end
  | SInt k z =>
      match Serialize_kind k arc (Some key) z
              (match defval with SInt _ d => Some d | _ => None end) with
      | Some (arc, z) => Some (arc, SInt k z)
      | None => None
      end
  end.

Record Field : Type := mkField {
  f_key : string;
  f_value : Scalar;
  f_default : Scalar
}.

(** The writing pass over a sequence of fields. *)
Fixpoint write_fields (arc : FSerializer) (fields : list Field)
  : option FSerializer :=
  match fields with
  | [] => Some arc
  | f :: rest =>
      match Serialize arc (f_key f) (f_value f) (f_default f) with
      | Some (arc, _) => write_fields arc rest
      | None => None
      end
  end.

(** The reading pass: every destination starts as its default. *)
Fixpoint read_fields (arc : FSerializer) (fields : list Field)
  : option (FSerializer * list Scalar) :=
  match fields with
  | [] => Some (arc, [])
  | f :: rest =>
      match Serialize arc (f_key f) (f_default f) (f_default f) with
      | Some (arc, v) =>
          match read_fields arc rest with
          | Some (arc, vs) => Some (arc, v :: vs)
          | None => None
          end
      | None => None
      end
  end.

(** Writing the fields into the root object and closing it. *)
Definition written (fields : list Field) : option JValue :=
  match OpenWriter with
  | Some arc =>
      match write_fields arc fields with
      | Some arc => GetOutput arc
      | None => None
      end
  | None => None
  end.

(** The key is absent from the object. *)
Definition absent (key : string) (doc : JValue) : Prop :=
  match doc with
  | JObject m => FindMember m key = None
  | _ => False
  end.

Definition scalar_eqb (a b : Scalar) : bool :=
  match a, b with
  | SBool x, SBool y => Bool.eqb x y
  | SInt _ x, SInt _ y => x =? y
  | _, _ => false
  end.

Definition to_json (s : Scalar) : JValue :=
  match s with
  | SBool b => JBool b
  | SInt _ z => JInt z
  end.

(** The members the writing pass is to leave. *)
Definition members_of (fields : list Field) : list (string * JValue) :=
  flat_map (fun f => if scalar_eqb (f_value f) (f_default f) then []
                     else [(f_key f, to_json (f_value f))]) fields.

(** The serializer while the fields of the root object are written, with
    the members it has so far. *)
Definition root_writer (ms : list (string * JValue)) : FSerializer :=
  mkSerializer (Some (mkWriter [true] [mkLevel true None ms []] None)) None 0.

Definition field_ok (f : Field) : Prop :=
  well_typed (f_value f) /\ well_typed (f_default f) /\
  same_type (f_value f) (f_default f).

(** Sample fields: an elided flag, integers of several widths. *)
Definition sample_fields : list Field :=
  [ mkField "flag" (SBool true) (SBool true);
    mkField "health" (SInt I32 75) (SInt I32 100);
    mkField "skill" (SInt U8 3) (SInt U8 3);
    mkField "offset" (SInt I16 (-12)) (SInt I16 0);
    mkField "tics" (SInt U64 18446744073709551615) (SInt U64 0) ].

(** Two fields written under one key; the second is at its default. *)
Definition repeated_key : list Field :=
  [ mkField "a" (SInt I32 1) (SInt I32 0);
    mkField "a" (SInt I32 0) (SInt I32 0) ].

End Serializer.

(** * Arrays, nesting and closing in the serializer ([serializer.cpp])

    The [assert]s of the source are taken as compiled out, as in a release
    build: a member of another type than the one asked for is reported and
    counted in [mErrors], which is what the code after each [assert] does. *)

Module SerializerNesting.
Import Serializer.
Local Open Scope Z_scope.

Definition isReading (arc : FSerializer) : bool :=
  match r arc with Some _ => true | None => false end.

(** [BeginArray(name)], with its result; [None] is a fatal error. *)
Definition BeginArray (arc : FSerializer) (name : option string)
  : option (FSerializer * bool) :=
  match w arc with
  | Some _ =>
      match WriteKey arc name with
      | Some arc =>
          Some (with_writer arc (fun wr =>
                  set_mInObject (writer_Start wr false)
                                (false :: mInObject wr)),
                true)
      | None => None
      end
  | None =>
      match r arc with
      | None => None
      | Some rd =>
          let '(val, rd) := FindKey rd name in
          match val with
          | Some (JArray l) =>
              Some (mkSerializer None
                      (Some (mkReader (mkJSONObject (JArray l) 0 :: mObjects rd)
                                      (mKeyValue rd)))
                      (mErrors arc), true)
          | Some _ =>
              Some (mkSerializer None (Some rd) (mErrors arc + 1), false)
          | None => Some (mkSerializer None (Some rd) (mErrors arc), false)
          end
      end
  end.

(** [EndArray()]; inside an object it is a fatal error for the writer. *)
Definition EndArray (arc : FSerializer) : option FSerializer :=
  match w arc with
  | Some wr =>
      if negb (inObject wr)
      then Some (with_writer arc (fun wr =>
                   set_mInObject (writer_End wr) (tl (mInObject wr))))
      else None
  | None =>
      match r arc with
      | Some rd =>
          Some (mkSerializer None
                  (Some (mkReader (tl (mObjects rd)) (mKeyValue rd)))
                  (mErrors arc))
      | None => None
      end
  end.

(** [ArraySize()]. *)
Definition ArraySize (arc : FSerializer) : Z :=
  match r arc with
  | Some rd =>
      match mObjects rd with
      | obj :: _ =>
          match mObject obj with
          | JArray l => Z.of_nat (length l)
          | _ => 0
          end
      | [] => 0
      end
  | None => 0
  end.

(** [Close()]: the writer and the reader are released; a count of errors
    above zero ends in [I_Error], shown as [None].  The thinkers the reader
    collected are outside this model. *)
Definition Close (arc : FSerializer) : option FSerializer :=
  match w arc, r arc with
  | None, None => Some arc
  | _, _ =>
      if 0 <? mErrors arc then None
      else Some (mkSerializer None None (mErrors arc))
  end.

(** [SerializePointer(arc, key, value, defval, base)]: a pointer into the
    array at [base] is its index there, [None] the null pointer;
    [defval] is [None] for a null [defval]. *)
Definition SerializePointer (arc : FSerializer) (key : option string)
    (value : option Z) (defval : option (option Z))
  : option (FSerializer * option Z) :=
  let differs :=
    match defval with
    | None => true
    | Some None => match value with None => false | Some _ => true end
    | Some (Some d) =>
        match value with None => true | Some v => negb (v =? d) end
    end in
  if isReading arc
     || match w arc with
        | Some wr => negb (inObject wr) || differs
        | None => true
        end
  then
    let vv := match value with None => -1 | Some i => i end in
    match Serialize_int64 arc key vv None with
    | Some (arc, vv) => Some (arc, if vv <? 0 then None else Some vv)
    | None => None
    end
  else Some (arc, value).

(** ** What a read finds *)

(** The RapidJSON type test of the overload for a destination. *)
Definition type_test (dest : Scalar) : JValue -> bool :=
  match dest with
  | SBool _ => IsBool
  | SInt k _ =>
      match k with
      | I8 | I16 | I32 => IsInt
      | U8 | U16 | U32 => IsUint
      | I64 => IsInt64
      | U64 => IsUint64
      end
  end.

(** The conversion back to the width of the destination. *)
Definition narrow (k : IntKind) (z : Z) : Z :=
  match k with
  | I8 => wrap_signed 8 z
  | U8 => wrap_unsigned 8 z
  | I16 => wrap_signed 16 z
  | U16 => wrap_unsigned 16 z
  | _ => z
  end.

Definition from_json (dest : Scalar) (v : JValue) : Scalar :=
  match dest with
  | SBool _ => SBool (GetBool v)
  | SInt k _ => SInt k (narrow k (GetInt v))
  end.

(** A member of the wrong type for the destination. *)
Definition mismatched (m : list (string * JValue)) (f : Field) : bool :=
  match FindMember m (f_key f) with
  | Some v => negb (type_test (f_default f) v)
  | None => false
  end.

(** What the destination of [f] holds after the read. *)
Definition found (m : list (string * JValue)) (f : Field) : Scalar :=
  match FindMember m (f_key f) with
  | Some v =>
      if type_test (f_default f) v then from_json (f_default f) v
      else f_default f
  | None => f_default f
  end.

(** ** Arrays of scalars *)

(** The elements of an array written one after the other with their
    defaults, between [BeginArray(name)] and [EndArray()]. *)
Definition write_array (arc : FSerializer) (name : string)
    (elems : list Field) : option FSerializer :=
  match BeginArray arc (Some name) with
  | Some (arc, _) =>
      match write_fields arc elems with
      | Some arc => EndArray arc
      | None => None
      end
  | None => None
  end.

Definition written_array (name : string) (elems : list Field)
  : option JValue :=
  match OpenWriter with
  | Some arc =>
      match write_array arc name elems with
      | Some arc => GetOutput arc
      | None => None
      end
  | None => None
  end.

(** The reading side: the result of [BeginArray], the size found, the
    elements read and the serializer after [EndArray]. *)
Definition read_array (arc : FSerializer) (name : string)
    (elems : list Field) : option (FSerializer * bool * Z * list Scalar) :=
  match BeginArray arc (Some name) with
  | Some (arc, true) =>
      let size := ArraySize arc in
      match read_fields arc elems with
      | Some (arc, vs) =>
          match EndArray arc with
          | Some arc => Some (arc, true, size, vs)
          | None => None
          end
      | None => None
      end
  | Some (arc, false) => Some (arc, false, 0, map f_default elems)
  | None => None
  end.

(** ** Nested objects *)

Definition write_object (arc : FSerializer) (name : string)
    (fields : list Field) : option FSerializer :=
  match BeginObject arc (Some name) with
  | Some (arc, _) =>
      match write_fields arc fields with
      | Some arc => EndObject arc
      | None => None
      end
  | None => None
  end.

Definition read_object (arc : FSerializer) (name : string)
    (fields : list Field) : option (FSerializer * bool * list Scalar) :=
  match BeginObject arc (Some name) with
  | Some (arc, true) =>
      match read_fields arc fields with
      | Some (arc, vs) =>
          match EndObject arc with
          | Some arc => Some (arc, true, vs)
          | None => None
          end
      | None => None
      end
  | Some (arc, false) => Some (arc, false, map f_default fields)
  | None => None
  end.

(** The serializer while an object is written: [ms] the members so far,
    [ins] and [outer] the containers around it. *)
Definition object_writer (ms : list (string * JValue)) (ins : list bool)
    (outer : list Level) (errors : Z) : FSerializer :=
  mkSerializer
    (Some (mkWriter (true :: ins) (mkLevel true None ms [] :: outer) None))
    None errors.

(** The serializer while an array is written. *)
Definition array_writer (es : list JValue) (ins : list bool)
    (outer : list Level) (errors : Z) : FSerializer :=
  mkSerializer
    (Some (mkWriter (false :: ins) (mkLevel false None [] es :: outer) None))
    None errors.

(** The reader inside the container [doc], at index [i] of it. *)
Definition reader_at (doc : JValue) (i : Z) (outer : list FJSONObject)
    (errors : Z) : FSerializer :=
  mkSerializer None (Some (mkReader (mkJSONObject doc i :: outer) None)) errors.

(** A pointer field written alone into the root object, and read back
    into a destination that starts as [dest]. *)
Definition pointer_written (key : string) (value : option Z)
    (defval : option (option Z)) : option JValue :=
  match OpenWriter with
  | Some arc =>
      match SerializePointer arc (Some key) value defval with
      | Some (arc, _) => GetOutput arc
      | None => None
      end
  | None => None
  end.

Definition pointer_read (doc : JValue) (key : string) (dest : option Z)
    (defval : option (option Z)) : option (Z * option Z) :=
  match SerializePointer (OpenReader doc) (Some key) dest defval with
  | Some (arc, v) => Some (mErrors arc, v)
  | None => None
  end.

(** A pointer into the array, or null. *)
Definition valid_pointer (p : option Z) : Prop :=
  match p with
  | None => True
  | Some i => 0 <= i <= 9223372036854775807
  end.

Definition sample_document : list (string * JValue) :=
  [ ("flag"%string, JInt 1);
    ("health"%string, JInt 300);
    ("skill"%string, JBool true);
    ("tics"%string, JInt (-1)) ].

Definition sample_destinations : list Field :=
  [ mkField "flag" (SBool false) (SBool false);
    mkField "health" (SInt U8 0) (SInt U8 0);
    mkField "skill" (SInt I32 2) (SInt I32 2);
    mkField "tics" (SInt I64 0) (SInt I64 0);
    mkField "armor" (SInt I16 50) (SInt I16 50) ].

End SerializerNesting.

(** * Strings on their way through a document ([serializer.cpp]) *)

Module StoredStrings.
Import Strings.
Local Open Scope Z_scope.

(** The bytes a byte of the string becomes: itself below 128, the two
    bytes of the UTF-8 form of the code point of the same number above. *)
Definition double_encoded (b : Z) : list Z :=
  if b <? 128 then [b] else [192 + b / 64; 128 + b mod 64].

(** The C string at a pointer [StringToUnicode] or [UnicodeToString]
    returned. *)
Definition string_at (arg out : list Z) (p : CharPtr) : list Z :=
  match p with
  | ArgPtr o => cstring (skipn o arg)
  | OutPtr o => cstring (skipn o out)
  end.

(** What [FWriter::String(k)] hands to the RapidJSON writer, which copies
    it into the document. *)
Definition stored_form (k : list Z) (out : list Z) : list Z :=
  let '(p, out') := StringToUnicode k (-1) out in
  string_at k out' p.

(** What the reader makes of a string of the document:
    [UnicodeToString(val->GetString())]. *)
Definition restored (doc : list Z) (out : list Z) : option (list Z) :=
  match UnicodeToString doc (ArgPtr 0) out with
  | Some (p, out') => Some (string_at doc out' p)
  | None => None
  end.

Definition is_ascii (b : Z) : bool := b <? 128.

End StoredStrings.

(** * The rolloff as a gain *)

Module RolloffGain.
Import Rolloff.
Local Open Scope R_scope.

(** A descriptor as the sound definitions give it: a positive minimum and
    a factor that is not negative for the logarithmic type, else a maximum
    above the minimum; the custom table holds values of 0..127. *)
Definition proper_descriptor (curve : list Z) (r : FRolloffInfo R) : Prop :=
  if (RolloffType r =? ROLLOFF_Log)%Z
  then 0 < MinDistance r /\ 0 <= RolloffFactor r
  else MinDistance r < MaxDistance r /\
       (RolloffType r = ROLLOFF_Custom ->
        Forall (fun b => 0 <= b <= 127)%Z curve).

Definition staircase : list Z := [127; 127; 90; 40; 90; 0]%Z.

End RolloffGain.

(** * Stopping, relinking and evicting channels ([s_sound.cpp]) *)

Module SoundControl.
Import Rolloff Sound.
Local Open Scope Z_scope.

Definition set_SourceType (c : FSoundChan) (v : Z) : FSoundChan :=
  mkChan (Addr c) (SysChannel c) (StartTime c) (DistanceScale c) (ChanFlags c)
         (SoundID c) (OrgID c) (ChanVolume c) (Pitch c) (EntChannel c)
         (Priority c) (ChanNearLimit c) v (ChanLimitRange c)
         (Source c) (Point c).

Definition set_ChanVolume (c : FSoundChan) (v : Q) : FSoundChan :=
  mkChan (Addr c) (SysChannel c) (StartTime c) (DistanceScale c) (ChanFlags c)
         (SoundID c) (OrgID c) v (Pitch c) (EntChannel c)
         (Priority c) (ChanNearLimit c) (SourceType c) (ChanLimitRange c)
         (Source c) (Point c).

Section Control.
Context {BS : Type}.
Variable GSnd : SoundRenderer BS.
(** [GSnd->UpdateSounds()] and [GSnd->ChannelVolume(chan, volume)], as far
    as they change the backend. *)
Variable GSnd_UpdateSounds : BS -> BS.
Variable GSnd_ChannelVolume : BS -> FSoundChan -> Q -> BS.
Variable ptr_of_point : FVector3 -> Z.
Variable point_of_ptr : Z -> FVector3.

Local Abbreviation Engine := (SoundEngine BS).

(** The test of the three-argument [StopSound]. *)
Definition stop_test (sourcetype actor channel : Z) (chan : FSoundChan)
  : bool :=
  (SourceType chan =? sourcetype) && (Source chan =? actor)
  && ((EntChannel chan =? channel) || (channel <? 0)).

(** The loop of [StopSound(sourcetype, actor, channel)] over the channels
    that were active when it started. *)
Fixpoint StopSound_source_from (st : Engine) (chans : list FSoundChan)
    (sourcetype actor channel : Z) : Engine :=
  match chans with
  | [] => st
  | chan :: next =>
      let st :=
        match deref st (Addr chan) with
        | Some c =>
            if stop_test sourcetype actor channel c
            then StopChannel GSnd point_of_ptr st (Some (Addr chan))
            else st
        | None => st
        end in
      StopSound_source_from st next sourcetype actor channel
  end.

(** [StopSound(sourcetype, actor, channel)]. *)
Definition StopSound_source (st : Engine) (sourcetype actor channel : Z)
  : Engine :=
  StopSound_source_from st (Channels st) sourcetype actor channel.

Fixpoint StopAllChannels_from (st : Engine) (chans : list FSoundChan)
  : Engine :=
  match chans with
  | [] => st
  | chan :: next =>
      StopAllChannels_from
        (StopChannel GSnd point_of_ptr st (Some (Addr chan))) next
  end.

(** [StopAllChannels()]. *)
Definition StopAllChannels (st : Engine) : Engine :=
  let st := StopAllChannels_from st (Channels st) in
  set_GSndState st (GSnd_UpdateSounds (GSndState st)).

(** One round of the loop of [RelinkSound] on a matching channel. *)
Definition relink_one (st : Engine) (a : nat) (c : FSoundChan) (to : Z)
    (optpos : option FVector3) : Engine :=
  if negb (to =? 0) then
    assign st a (fun c => set_Source point_of_ptr c to)
  else
    match optpos with
    | Some pos =>
        if negb (has (ChanFlags c) CHAN_LOOP) then
          assign st a (fun c =>
            set_Point ptr_of_point
              (set_SourceType (set_Source point_of_ptr c 0)
                              SOURCE_Unattached)
              pos)
        else StopChannel GSnd point_of_ptr st (Some a)
    | None => StopChannel GSnd point_of_ptr st (Some a)
    end.

Fixpoint RelinkSound_from (st : Engine) (chans : list FSoundChan)
    (sourcetype from to : Z) (optpos : option FVector3) : Engine :=
  match chans with
  | [] => st
  | chan :: next =>
      let st :=
        match deref st (Addr chan) with
        | Some c =>
            if (SourceType c =? sourcetype) && (Source c =? from)
            then relink_one st (Addr chan) c to optpos
            else st
        | None => st
        end in
      RelinkSound_from st next sourcetype from to optpos
  end.

(** [RelinkSound(sourcetype, from, to, optpos)]. *)
Definition RelinkSound (st : Engine) (sourcetype from to : Z)
    (optpos : option FVector3) : Engine :=
  if from =? 0 then st
  else RelinkSound_from st (Channels st) sourcetype from to optpos.

(** One round of the loop of [EvictAllChannels]. *)
Definition evict_one (st : Engine) (a : nat) (c : FSoundChan) : Engine :=
  if negb (has (ChanFlags c) CHAN_EVICTED) then
    let st := assign st a (fun c =>
      set_ChanFlags c (Z.lor (ChanFlags c) CHAN_EVICTED)) in
    match deref st a with
    | Some c =>
        if negb (SysChannel c =? 0) then
          let st :=
            if negb (has (ChanFlags c) CHAN_ABSTIME) then
              let pos := GSnd_GetPosition GSnd (GSndState st) c in
              assign st a (fun c =>
                set_ChanFlags (set_StartTime c pos)
                              (Z.lor (ChanFlags c) CHAN_ABSTIME))
            else st in
          StopChannel GSnd point_of_ptr st (Some a)
        else st
    | None => st
    end
  else st.

Fixpoint EvictAllChannels_from (st : Engine) (chans : list FSoundChan)
  : Engine :=
  match chans with
  | [] => st
  | chan :: next =>
      let st :=
        match deref st (Addr chan) with
        | Some c => evict_one st (Addr chan) c
        | None => st
        end in
      EvictAllChannels_from st next
  end.

(** [EvictAllChannels()]. *)
Definition EvictAllChannels (st : Engine) : Engine :=
  EvictAllChannels_from st (Channels st).

(** The loop of [Init]: the head of the active list goes back to the free
    pool until the list is empty; [fuel] bounds the rounds. *)
Fixpoint Init_loop (fuel : nat) (st : Engine) : option Engine :=
  match Channels st with
  | [] => Some st
  | chan :: _ =>
      match fuel with
      | O => None
      | S fuel' => Init_loop fuel' (ReturnChannel st (Addr chan))
      end
  end.

(** [Init(curve)]. *)
Definition Init (fuel : nat) (st : Engine) (curve : list Z)
  : option Engine :=
  match Init_loop fuel st with
  | Some st =>
      Some (mkEngine (SoundPaused st) (ListenerObject st) (Channels st)
                     (FreeChannels st) (S_sfx st) (S_Rolloff st) curve
                     (S_rnd st) (nosfx st) (nosound st) (sfx_empty st)
                     (GSndState st) (rand_calls st) (allocated st))
  | None => None
  end.

(** [ChangeSoundVolume(sourcetype, source, channel, dvolume)]. *)
Fixpoint ChangeSoundVolume_from (st : Engine) (chans : list FSoundChan)
    (sourcetype source channel : Z) (volume : Q) : Engine :=
  match chans with
  | [] => st
  | chan :: next =>
      if (SourceType chan =? sourcetype) && (Source chan =? source)
         && ((EntChannel chan =? channel) || (channel =? -1))
      then
        let st := set_GSndState st
          (GSnd_ChannelVolume (GSndState st) chan volume) in
        assign st (Addr chan) (fun c => set_ChanVolume c volume)
      else ChangeSoundVolume_from st next sourcetype source channel volume
  end.

Definition ChangeSoundVolume (st : Engine) (sourcetype source channel : Z)
    (dvolume : Q) : Engine :=
  let volume := dvolume in
  let volume :=
    if Qlt_le_dec volume 0 then 0%Q
    else if Qlt_le_dec 1 volume then 1%Q
    else volume in
  ChangeSoundVolume_from st (Channels st) sourcetype source channel volume.

(** [GetSoundPlayingInfo(sourcetype, source, sound_id)]. *)
Fixpoint GetSoundPlayingInfo_from (chans : list FSoundChan)
    (sourcetype source sound_id : Z) : bool :=
  match chans with
  | [] => false
  | chan :: next =>
      if (OrgID chan =? sound_id) && (SourceType chan =? sourcetype)
         && (Source chan =? source)
      then true
      else GetSoundPlayingInfo_from next sourcetype source sound_id
  end.

Definition GetSoundPlayingInfo (st : Engine) (sourcetype source sound_id : Z)
  : bool :=
  if 0 <? sound_id
  then GetSoundPlayingInfo_from (Channels st) sourcetype source sound_id
  else false.

(** [IsSourcePlayingSomething(sourcetype, actor, channel, sound_id)]. *)
Fixpoint IsSourcePlayingSomething_from (chans : list FSoundChan)
    (sourcetype actor channel sound_id : Z) : bool :=
  match chans with
  | [] => false
  | chan :: next =>
      if (SourceType chan =? sourcetype) && (Source chan =? actor)
         && ((channel =? 0) || (EntChannel chan =? channel))
      then (sound_id <=? 0) || (OrgID chan =? sound_id)
      else IsSourcePlayingSomething_from next sourcetype actor channel
                                         sound_id
  end.

Definition IsSourcePlayingSomething (st : Engine)
    (sourcetype actor channel sound_id : Z) : bool :=
  IsSourcePlayingSomething_from (Channels st) sourcetype actor channel
                                sound_id.

(** The test of [ChangeSoundVolume]. *)
Definition volume_test (sourcetype source channel : Z) (chan : FSoundChan)
  : bool :=
  (SourceType chan =? sourcetype) && (Source chan =? source)
  && ((EntChannel chan =? channel) || (channel =? -1)).

(** ** What stopping leaves of a channel *)

(** An active channel after [StopChannel]: one that held a voice while
    flagged evicted (and not forgettable) stays, parked; any other is gone
    from the active list. *)
Definition after_stop (c : FSoundChan) : list FSoundChan :=
  if negb (SysChannel c =? 0) && has (ChanFlags c) CHAN_EVICTED
     && negb (has (ChanFlags c) CHAN_FORGETTABLE)
  then [set_SysChannel (set_ChanFlags c (Z.lor (ChanFlags c) CHAN_EVICTED)) 0]
  else [].

(** No active channel is flagged evicted while it holds a voice. *)
Definition settled (chans : list FSoundChan) : Prop :=
  Forall (fun c => has (ChanFlags c) CHAN_EVICTED = true -> SysChannel c = 0)
         chans.

(** A channel of [RelinkSound]'s emitter after the call. *)
Definition relinked (to : Z) (optpos : option FVector3) (c : FSoundChan)
  : list FSoundChan :=
  if negb (to =? 0) then [set_Source point_of_ptr c to]
  else
    match optpos with
    | Some pos =>
        if negb (has (ChanFlags c) CHAN_LOOP) then
          [set_Point ptr_of_point
             (set_SourceType (set_Source point_of_ptr c 0)
                             SOURCE_Unattached) pos]
        else after_stop c
    | None => after_stop c
    end.

(** A channel that [EvictAllChannels] keeps on the active list: all but
    those that hold a voice, are not flagged evicted and are forgettable. *)
Definition kept_evicted (c : FSoundChan) : bool :=
  has (ChanFlags c) CHAN_EVICTED || (SysChannel c =? 0)
  || negb (has (ChanFlags c) CHAN_FORGETTABLE).

(** What is needed to restart the sound of a channel. *)
Definition same_sound (c c' : FSoundChan) : Prop :=
  Addr c' = Addr c /\ SoundID c' = SoundID c /\ OrgID c' = OrgID c /\
  ChanVolume c' = ChanVolume c /\ Pitch c' = Pitch c /\
  EntChannel c' = EntChannel c /\ Priority c' = Priority c /\
  ChanNearLimit c' = ChanNearLimit c /\ ChanLimitRange c' = ChanLimitRange c /\
  DistanceScale c' = DistanceScale c /\
  SourceType c' = SourceType c /\ Source c' = Source c /\ Point c' = Point c.

(** What [EvictAllChannels] leaves of a channel. *)
Definition evicted_as (c : FSoundChan) (l : list FSoundChan) : Prop :=
  if kept_evicted c then
    exists c', l = [c'] /\ same_sound c c' /\
               has (ChanFlags c') CHAN_EVICTED = true /\
               (has (ChanFlags c) CHAN_EVICTED = false -> SysChannel c' = 0) /\
               (has (ChanFlags c) CHAN_EVICTED = true -> c' = c)
  else l = [].

End Control.

End SoundControl.

(** ** Scenes for the channel operations *)

Module Scenes.
Import Rolloff Sound World.
Local Open Scope Z_scope.

(** Actor 1000 loops the singular sound 2 on slot 5 and asks for it again
    on slot 6 (parked); it plays sound 4 on slots 1 and 2, actor 2000 plays
    it on slot 1, and an unpositioned copy plays on slot 3. *)
Definition busy : SoundEngine nat :=
  state_of (start (state_of (start (state_of (start (state_of (start
    (state_of (start (state_of (start silence
       SOURCE_Actor 1000 (Z.lor CHAN_LOOP 5) 2))
       SOURCE_Actor 1000 (Z.lor CHAN_LOOP 6) 2))
       SOURCE_Actor 1000 1 4))
       SOURCE_Actor 1000 2 4))
       SOURCE_Actor 2000 1 4))
       SOURCE_None 0 3 4).

(** The backend's [UpdateSounds] and [ChannelVolume] for [granting]. *)
Definition no_update : nat -> nat := fun bs => bs.
Definition no_volume : nat -> FSoundChan -> Q -> nat := fun bs _ _ => bs.

Definition somewhere : FVector3 := mkVec 64 0 (-32).

End Scenes.

(** * The table of sounds and its hash chains ([s_sound.cpp]) *)

Module SoundTable.
Import Rolloff Sound.
Local Open Scope Z_scope.

(** [stricmp(a, b) == 0]: equal up to the case of the letters A-Z. *)
Definition tolower (c : ascii) : ascii :=
  let n := nat_of_ascii c in
  if ((65 <=? n) && (n <=? 90))%nat then ascii_of_nat (n + 32) else c.

Fixpoint lower (s : string) : string :=
  match s with
  | EmptyString => EmptyString
  | String c s' => String (tolower c) (lower s')
  end.

Definition stricmp_eq (a b : string) : bool := String.eqb (lower a) (lower b).

(** An entry of [S_sfx] with the members the lookups use beside those of
    the playing code ([slot_info]); the flags and rates nothing here reads
    are left out. *)
Record sfxslot : Type := mkSlot {
  slot_info : sfxinfo_t;
  name : string;
  next : Z;
  index : Z;
  bTentative : bool;
  ResourceId : Z
}.

Definition set_next (s : sfxslot) (v : Z) : sfxslot :=
  mkSlot (slot_info s) (name s) v (index s) (bTentative s) (ResourceId s).

Definition set_index (s : sfxslot) (v : Z) : sfxslot :=
  mkSlot (slot_info s) (name s) (next s) v (bTentative s) (ResourceId s).

Definition set_bTentative (s : sfxslot) (v : bool) : sfxslot :=
  mkSlot (slot_info s) (name s) (next s) (index s) v (ResourceId s).

(** [S_sfx] and [ResIdMap]; a key of the map is bound to the value of its
    first pair. *)
Record Table : Type := mkTable {
  T_sfx : list sfxslot;
  ResIdMap : list (Z * Z)
}.

Definition no_slot : sfxslot :=
  mkSlot (default_sfx (-1) 0) EmptyString 0 0 false 0.

Definition slot_at (sfx : list sfxslot) (i : nat) : sfxslot :=
  nth i sfx no_slot.

Section Hashing.
(** [MakeKey], the hash of a name, which is not among the sources. *)
Variable MakeKey : string -> Z.

Definition bucket_of (size : nat) (nm : string) : nat :=
  Z.to_nat (MakeKey nm mod Z.of_nat size).

(** The loop of [FindSound] down a chain; [fuel] bounds the steps. *)
Fixpoint follow (fuel : nat) (sfx : list sfxslot) (logicalname : string)
    (i : Z) : option Z :=
  if negb (i =? 0)
     && negb (stricmp_eq (name (slot_at sfx (Z.to_nat i))) logicalname)
  then
    match fuel with
    | O => None
    | S fuel' =>
        follow fuel' sfx logicalname (next (slot_at sfx (Z.to_nat i)))
    end
  else Some i.

(** [FindSound(logicalname)]; [None] for a null name is 0.  With an empty
    table the division by its size has no result. *)
Definition FindSound (fuel : nat) (t : Table) (logicalname : option string)
  : option Z :=
  match logicalname with
  | None => Some 0
  | Some nm =>
      match T_sfx t with
      | [] => None
      | _ =>
          follow fuel (T_sfx t) nm
                 (index (slot_at (T_sfx t)
                                 (bucket_of (length (T_sfx t)) nm)))
      end
  end.

(** One round of the second loop of [HashSounds]. *)
Definition hash_one (sfx : list sfxslot) (i : nat) : list sfxslot :=
  let j := bucket_of (length sfx) (name (slot_at sfx i)) in
  let sfx := update_nth i (fun s => set_next s (index (slot_at sfx j))) sfx in
  update_nth j (fun s => set_index s (Z.of_nat i)) sfx.

(** [HashSounds()]. *)
Definition HashSounds (t : Table) : Table :=
  let size := length (T_sfx t) in
  let sfx := map (fun s => set_index s 0) (T_sfx t) in
  mkTable (fold_left hash_one (seq 1 (size - 1)) sfx) (ResIdMap t).

End Hashing.

(** The scan of [FindSoundNoHash] from entry [i] on. *)
Fixpoint scan_names (sfx : list sfxslot) (i : Z) (logicalname : string) : Z :=
  match sfx with
  | [] => 0
  | s :: rest =>
      if stricmp_eq (name s) logicalname then i
      else scan_names rest (i + 1) logicalname
  end.

(** [FindSoundNoHash(logicalname)]. *)
Definition FindSoundNoHash (t : Table) (logicalname : string) : Z :=
  scan_names (tl (T_sfx t)) 1 logicalname.

Fixpoint scan_lumps (sfx : list sfxslot) (i : Z) (lump : Z) : Z :=
  match sfx with
  | [] => 0
  | s :: rest =>
      if lumpnum (slot_info s) =? lump then i
      else scan_lumps rest (i + 1) lump
  end.

(** [FindSoundByLump(lump)]. *)
Definition FindSoundByLump (t : Table) (lump : Z) : Z :=
  if negb (lump =? -1) then scan_lumps (tl (T_sfx t)) 1 lump else 0.

(** [FindSoundByResID(resid)]. *)
Definition FindSoundByResID (t : Table) (resid : Z) : Z :=
  match find (fun kv => fst kv =? resid) (ResIdMap t) with
  | Some kv => snd kv
  | None => 0
  end.

(** [AddSoundLump(logicalname, lump, CurrentPitchMask, resid)]: the new
    table and the index returned. *)
Definition AddSoundLump (t : Table) (logicalname : string)
    (lump CurrentPitchMask resid : Z) : Table * Z :=
  let newsfx :=
    mkSlot (default_sfx lump CurrentPitchMask) logicalname 0 0 false resid in
  let sfx := T_sfx t ++ [newsfx] in
  let id := Z.of_nat (length sfx) - 1 in
  (mkTable sfx
           (if 0 <=? resid then (resid, id) :: ResIdMap t else ResIdMap t),
   id).

(** [FindSoundTentative(name)]. *)
Definition FindSoundTentative (t : Table) (nm : string) : Table * Z :=
  let id := FindSoundNoHash t nm in
  if id =? 0 then
    let '(t, id) := AddSoundLump t nm (-1) 0 (-1) in
    (mkTable (update_nth (Z.to_nat id) (fun s => set_bTentative s true)
                         (T_sfx t))
             (ResIdMap t),
     id)
  else (t, id).

(** ** What the lookups are to find *)

Definition has_name (nm : string) (s : sfxslot) : bool :=
  stricmp_eq (name s) nm.

Definition named (sfx : list sfxslot) (nm : string) (i : nat) : bool :=
  stricmp_eq (name (slot_at sfx i)) nm.

(** The entries from 1 on, and of them the greatest of the given name, or
    0. *)
Definition entries (sfx : list sfxslot) : list nat :=
  seq 1 (length sfx - 1).

Definition last_named (sfx : list sfxslot) (nm : string) : Z :=
  Z.of_nat (hd 0%nat (filter (named sfx nm) (rev (entries sfx)))).

Definition first_named (sfx : list sfxslot) (nm : string) : Z :=
  Z.of_nat (hd 0%nat (filter (named sfx nm) (entries sfx))).

(** The entries up to [k] that hash to bucket [j], the latest first. *)
Definition bucket (MakeKey : string -> Z) (sfx : list sfxslot) (k j : nat)
  : list nat :=
  filter (fun i => (bucket_of MakeKey (length sfx) (name (slot_at sfx i))
                    =? j)%nat)
         (rev (seq 1 k)).

(** The chain that starts at [start] runs through the entries [l] and ends
    with 0. *)
Fixpoint chained (sfx : list sfxslot) (start : Z) (l : list nat) : Prop :=
  match l with
  | [] => start = 0
  | i :: l' =>
      start = Z.of_nat i /\ chained sfx (next (slot_at sfx i)) l'
  end.

(** A hash that does not tell apart the names [stricmp] takes for equal,
    and is not negative (it is an [unsigned int]). *)
Definition hash_of_names (MakeKey : string -> Z) : Prop :=
  (forall a b, stricmp_eq a b = true -> MakeKey a = MakeKey b) /\
  (forall a, 0 <= MakeKey a).

(** A hash to try things with: the length of the name. *)
Definition length_key (s : string) : Z := Z.of_nat (String.length s).

Definition some_sounds : Table :=
  mkTable [ mkSlot (default_sfx (-1) 0) "" 0 0 false (-1);
            mkSlot (default_sfx 10 0) "weapons/pistol" 7 7 false (-1);
            mkSlot (default_sfx 11 0) "misc/chat" 7 7 false 40;
            mkSlot (default_sfx 12 0) "Weapons/Pistol" 7 7 false (-1);
            mkSlot (default_sfx 13 0) "misc/secret" 7 7 false (-1) ]
          [(40, 2)].

End SoundTable.

(** * Properties of the string escaping *)

Section StringFacts.
Import Strings.
Local Open Scope Z_scope.

Ltac bool_props :=
  repeat match goal with
         | H : negb _ = true |- _ => apply negb_true_iff in H
         | H : (_ =? _) = true |- _ => apply Z.eqb_eq in H
         | H : (_ =? _) = false |- _ => apply Z.eqb_neq in H
         | H : (_ <? _) = true |- _ => apply Z.ltb_lt in H
         | H : (_ <=? _) = true |- _ => apply Z.leb_le in H
         end.

Lemma byte_values_complete (b : Z) : nonzero_byte b -> In b byte_values.
Proof.
  intros [Hlo Hhi]. unfold byte_values.
  replace b with (Z.of_nat (Z.to_nat b)) by lia.
  apply in_map, in_seq. lia.
Qed.

Lemma enc1_ok_all (b : Z) : nonzero_byte b -> enc1_ok b = true.
Proof.
  intros Hb. apply byte_values_complete in Hb.
  assert (H : forallb enc1_ok byte_values = true) by (vm_compute; reflexivity).
  rewrite forallb_forall in H. now apply H.
Qed.

(** The two shapes of an encoded byte. *)
Lemma enc1_shape (ch : Z) :
  nonzero_byte ch ->
  (ch < 128 /\ enc1 ch = [ch] /\ Z.land ch 128 = 0) \/
  (128 <= ch /\ exists b0 b1,
      enc1 ch = [b0; b1] /\ b0 <> 0 /\ b1 <> 0 /\
      Z.land b0 128 <> 0 /\ continuation b1 = true /\ Z.land b0 224 = 192 /\
      Z.lor (Z.shiftl (Z.land b0 31) 6) (Z.land b1 63) = ch).
Proof.
  intros Hb. pose proof (enc1_ok_all ch Hb) as Hok.
  unfold enc1_ok, enc1 in *.
  destruct (utf8_encode ch) as [[|b0 [|b1 [|b2 t]]]|]; try discriminate;
    repeat (apply andb_prop in Hok; destruct Hok as [Hok ?]); bool_props.
  - left. subst b0. auto.
  - right. split; [assumption|]. exists b0, b1. repeat split; auto.
Qed.

Lemma enc1_nonempty (ch : Z) : nonzero_byte ch -> (0 < length (enc1 ch))%nat.
Proof.
  intros Hb. destruct (enc1_shape ch Hb) as [(_ & -> & _)|(_ & b0 & b1 & -> & _)];
    simpl; lia.
Qed.

Lemma utf8_encode_enc1 (ch : Z) :
  nonzero_byte ch -> utf8_encode ch = Some (enc1 ch).
Proof.
  intros Hb. pose proof (enc1_ok_all ch Hb) as Hok. unfold enc1_ok, enc1 in *.
  destruct (utf8_encode ch); [reflexivity | discriminate].
Qed.

(** Decoding reads back the byte, whatever follows its encoding. *)
Lemma utf8_decode_enc1 (ch : Z) (src : nat -> Z) :
  nonzero_byte ch ->
  (forall j, (j < length (enc1 ch))%nat -> src j = nth j (enc1 ch) 0) ->
  utf8_decode src = (ch, length (enc1 ch)).
Proof.
  intros Hb Hsrc.
  destruct (enc1_shape ch Hb) as [(Hlt & He & Hl)|(Hge & b0 & b1 & He & _ & _ & Hh & Hc & Ht & Hr)];
    rewrite He in *; unfold utf8_decode.
  - rewrite (Hsrc 0%nat) by (simpl; lia). simpl nth.
    rewrite Hl. reflexivity.
  - rewrite (Hsrc 0%nat), (Hsrc 1%nat) by (simpl; lia). simpl nth.
    apply Z.eqb_neq in Hh. rewrite Hh, Hc. simpl negb. cbv iota.
    rewrite Ht, Z.eqb_refl, Hr.
    replace (128 <=? ch) with true by (symmetry; apply Z.leb_le; lia).
    reflexivity.
Qed.

Lemma enc_nonzero (s : list Z) :
  Forall nonzero_byte s -> Forall (fun b => b <> 0) (enc s).
Proof.
  induction 1 as [|ch s Hb _ IH]; simpl; [constructor|].
  apply Forall_app. split; [|exact IH].
  destruct (enc1_shape ch Hb) as [(_ & -> & _)|(_ & b0 & b1 & -> & ? & ? & _)].
  - repeat constructor. unfold nonzero_byte in Hb. lia.
  - repeat constructor; assumption.
Qed.

Lemma land_255 (b : Z) : nonzero_byte b -> Z.land b 255 = b.
Proof.
  intros [Hlo Hhi]. change 255 with (Z.ones 8).
  rewrite Z.land_ones by lia. apply Z.mod_small. simpl. lia.
Qed.

Lemma enc1_length (ch : Z) :
  nonzero_byte ch ->
  length (enc1 ch) = if 128 <=? ch then 2%nat else 1%nat.
Proof.
  intros Hb.
  destruct (enc1_shape ch Hb) as [(Hlt & -> & _)|(Hge & b0 & b1 & -> & _)]; simpl.
  - destruct (Z.leb_spec 128 ch); [lia | reflexivity].
  - destruct (Z.leb_spec 128 ch); [reflexivity | lia].
Qed.

Lemma count_loop_all (s : list Z) :
  Forall nonzero_byte s ->
  forall c c1,
    count_loop s (-1) c c1
    = (c + Z.of_nat (length (enc s)), c1 + Z.of_nat (length s)).
Proof.
  induction 1 as [|ch s Hb _ IH]; intros c c1; simpl.
  - now rewrite !Z.add_0_r.
  - rewrite (land_255 ch Hb).
    destruct (Z.eqb_spec ch 0) as [->|_]; [destruct Hb; lia|].
    rewrite andb_false_r, IH, length_app, (enc1_length ch Hb).
    destruct (128 <=? ch); f_equal; lia.
Qed.

Lemma enc_length_ge (s : list Z) :
  Forall nonzero_byte s -> (length s <= length (enc s))%nat.
Proof.
  induction 1 as [|ch s Hb _ IH]; simpl; [lia|].
  rewrite length_app. pose proof (enc1_nonempty ch Hb). lia.
Qed.

Lemma enc_length_eq (s : list Z) :
  Forall nonzero_byte s -> length (enc s) = length s ->
  Forall (fun b => Z.land b 128 = 0) s /\ enc s = s.
Proof.
  induction 1 as [|ch s Hb Hs IH]; simpl; intros Hlen; [split; [constructor|reflexivity]|].
  rewrite length_app in Hlen. pose proof (enc_length_ge s Hs) as Hge.
  destruct (enc1_shape ch Hb) as [(_ & He & Hl)|(_ & b0 & b1 & He & _)];
    rewrite He in *; simpl in Hlen; [|lia].
  destruct IH as [IH1 IH2]; [lia|].
  split; [constructor; assumption | simpl; now rewrite IH2].
Qed.

Lemma poke_app_here (pre : list Z) (x v : Z) (post : list Z) :
  poke (pre ++ x :: post) (length pre) v = pre ++ v :: post.
Proof.
  induction pre as [|p pre IH]; simpl; [reflexivity | now rewrite IH].
Qed.

Lemma poke_all_app (bs : list Z) :
  forall pre z1 rest,
    length z1 = length bs ->
    poke_all (pre ++ z1 ++ rest) (length pre) bs = pre ++ bs ++ rest.
Proof.
  induction bs as [|b bs IH]; intros pre z1 rest Hlen; simpl.
  - destruct z1; [reflexivity | discriminate].
  - destruct z1 as [|z z1]; [discriminate|]. simpl in Hlen.
    simpl app. rewrite poke_app_here.
    replace (pre ++ b :: z1 ++ rest) with ((pre ++ [b]) ++ z1 ++ rest)
      by (rewrite <- app_assoc; reflexivity).
    replace (S (length pre)) with (length (pre ++ [b]))
      by (rewrite length_app; simpl; lia).
    rewrite IH by lia. rewrite <- app_assoc. reflexivity.
Qed.

(** The second loop of [StringToUnicode] fills the zone it was given. *)
Lemma encode_loop_fills (s : list Z) :
  Forall nonzero_byte s ->
  forall pre zone post k,
    length zone = length (enc s) ->
    encode_loop s (length pre) k (pre ++ zone ++ post) = pre ++ enc s ++ post.
Proof.
  induction 1 as [|ch s Hb _ IH]; intros pre zone post k Hlen; simpl in *.
  - destruct zone; [reflexivity | discriminate].
  - destruct (Z.eqb_spec ch 0) as [->|_]; [destruct Hb; lia|].
    rewrite (utf8_encode_enc1 ch Hb).
    rewrite length_app in Hlen.
    rewrite <- (firstn_skipn (length (enc1 ch)) zone), <- app_assoc.
    rewrite poke_all_app by (rewrite length_firstn; lia).
    replace (pre ++ enc1 ch ++ skipn (length (enc1 ch)) zone ++ post)
      with ((pre ++ enc1 ch) ++ skipn (length (enc1 ch)) zone ++ post)
      by (rewrite <- app_assoc; reflexivity).
    rewrite <- length_app.
    rewrite IH by (rewrite length_skipn; lia).
    now rewrite <- !app_assoc.
Qed.

Lemma poke_repeat_0 (n i : nat) : poke (repeat 0 n) i 0 = repeat 0 n.
Proof.
  revert i. induction n as [|n IH]; intros [|i]; simpl; try reflexivity.
  now rewrite IH.
Qed.

Lemma strlen_app_nul (s junk : list Z) :
  Forall (fun b => b <> 0) s -> strlen (s ++ 0 :: junk) = length s.
Proof.
  induction 1 as [|b s Hb _ IH]; simpl; [reflexivity|].
  destruct (Z.eqb_spec b 0); [contradiction | now rewrite IH].
Qed.

Lemma strlen_no_nul (s : list Z) :
  Forall (fun b => b <> 0) s -> strlen s = length s.
Proof.
  induction 1 as [|b s Hb _ IH]; simpl; [reflexivity|].
  destruct (Z.eqb_spec b 0); [contradiction | now rewrite IH].
Qed.

Lemma cstring_app_nul (s junk : list Z) :
  Forall (fun b => b <> 0) s -> cstring (s ++ 0 :: junk) = s.
Proof.
  intros Hs. unfold cstring. rewrite (strlen_app_nul s junk Hs).
  rewrite firstn_app, Nat.sub_diag, firstn_all. simpl. apply app_nil_r.
Qed.

Lemma nonzero_byte_neq (s : list Z) :
  Forall nonzero_byte s -> Forall (fun b => b <> 0) s.
Proof. apply Forall_impl. intros b [? ?]. lia. Qed.

Lemma peek_app_at (pre rest : list Z) (j : nat) :
  peek (pre ++ rest) (length pre + j) = peek rest j.
Proof.
  unfold peek. rewrite app_nth2 by lia. f_equal. lia.
Qed.

(** In-place decoding: the read pointer into [out] is never behind the
    write index, so no store destroys a byte that is still to be read. *)
Lemma decode_loop_in_place (arg rest : list Z) :
  Forall nonzero_byte rest ->
  forall fuel pre mid tl,
    (length rest < fuel)%nat ->
    exists junk,
      decode_loop fuel arg (pre ++ mid ++ enc rest ++ 0 :: tl)
                  (OutPtr (length pre + length mid)) (length pre)
      = Some (pre ++ rest ++ 0 :: junk).
Proof.
  induction 1 as [|ch rest Hb _ IH]; intros fuel pre mid tl Hfuel;
    (destruct fuel as [|fuel]; [simpl in Hfuel; lia|]); cbn [decode_loop].
  - unfold load. rewrite Nat.add_0_r, app_assoc, <- length_app.
    rewrite <- (Nat.add_0_r (length (pre ++ mid))), peek_app_at.
    simpl. rewrite <- app_assoc.
    destruct mid as [|m mid]; simpl; rewrite poke_app_here; eauto.
  - assert (Hsrc : forall j, (j < length (enc1 ch))%nat ->
               load arg (pre ++ mid ++ enc (ch :: rest) ++ 0 :: tl)
                    (OutPtr (length pre + length mid)) j
               = nth j (enc1 ch) 0).
    { intros j Hj. unfold load. rewrite app_assoc, <- length_app, peek_app_at.
      simpl enc. unfold peek. rewrite <- app_assoc. now rewrite app_nth1. }
    rewrite (Hsrc 0%nat) by (apply enc1_nonempty; assumption).
    assert (Hnz : nth 0 (enc1 ch) 0 <> 0).
    { destruct (enc1_shape ch Hb) as [(_ & -> & _)|(_ & b0 & b1 & -> & ? & _)];
        simpl; [destruct Hb; lia | assumption]. }
    apply Z.eqb_neq in Hnz. rewrite Hnz.
    rewrite (utf8_decode_enc1 ch _ Hb Hsrc).
    replace ((ch <? 0) || (255 <? ch)) with false
      by (symmetry; apply orb_false_iff; split;
          [apply Z.ltb_ge | apply Z.ltb_ge]; destruct Hb; lia).
    simpl enc. rewrite <- app_assoc.
    remember (mid ++ enc1 ch) as zone eqn:Hzone.
    assert (Hz : (0 < length zone)%nat)
      by (subst zone; rewrite length_app; pose proof (enc1_nonempty ch Hb); lia).
    destruct zone as [|z zone]; [simpl in Hz; lia|].
    replace (pre ++ mid ++ enc1 ch ++ enc rest ++ 0 :: tl)
      with (pre ++ z :: (zone ++ enc rest ++ 0 :: tl))
      by (rewrite (app_assoc mid), <- Hzone; reflexivity).
    rewrite poke_app_here.
    replace (pre ++ ch :: zone ++ enc rest ++ 0 :: tl)
      with ((pre ++ [ch]) ++ zone ++ enc rest ++ 0 :: tl)
      by (rewrite <- app_assoc; reflexivity).
    simpl advance.
    replace (length pre + length mid + length (enc1 ch))%nat
      with (length (pre ++ [ch]) + length zone)%nat.
    2:{ rewrite length_app. simpl.
        assert (length (z :: zone) = length (mid ++ enc1 ch)) by (now rewrite Hzone).
        rewrite length_app in H. simpl in H. lia. }
    replace (S (length pre)) with (length (pre ++ [ch]))
      by (rewrite length_app; simpl; lia).
    destruct (IH fuel (pre ++ [ch]) zone tl) as [junk Hj]; [simpl in Hfuel; lia|].
    exists junk. rewrite Hj, <- app_assoc. reflexivity.
Qed.

(** Decoding a plain ASCII string out of the caller's memory. *)
Lemma decode_loop_copy (rest : list Z) :
  Forall nonzero_byte rest ->
  Forall (fun b => Z.land b 128 = 0) rest ->
  forall fuel done zs,
    (length rest < fuel)%nat ->
    length zs = S (length rest) ->
    exists junk,
      decode_loop fuel (done ++ rest) (done ++ zs)
                  (ArgPtr (length done)) (length done)
      = Some (done ++ rest ++ 0 :: junk).
Proof.
  induction 1 as [|ch rest Hb _ IH]; intros Hascii fuel done zs Hfuel Hzs;
    (destruct fuel as [|fuel]; [simpl in Hfuel; lia|]); cbn [decode_loop];
    (destruct zs as [|z zs]; [discriminate|]).
  - unfold load. rewrite peek_app_at. simpl. rewrite poke_app_here. eauto.
  - inversion Hascii as [|? ? Hl Hascii']; subst.
    unfold load at 1. rewrite peek_app_at. simpl peek at 1.
    unfold peek at 1. simpl nth.
    destruct (Z.eqb_spec ch 0) as [->|_]; [destruct Hb; lia|].
    assert (Hdec : utf8_decode (load (done ++ ch :: rest) (done ++ z :: zs)
                                     (ArgPtr (length done))) = (ch, 1%nat)).
    { unfold utf8_decode, load. rewrite peek_app_at. unfold peek. simpl nth.
      now rewrite Hl. }
    rewrite Hdec.
    replace ((ch <? 0) || (255 <? ch)) with false
      by (symmetry; apply orb_false_iff; split;
          [apply Z.ltb_ge | apply Z.ltb_ge]; destruct Hb; lia).
    rewrite poke_app_here. simpl advance.
    replace (done ++ ch :: rest) with ((done ++ [ch]) ++ rest)
      by (rewrite <- app_assoc; reflexivity).
    replace (done ++ ch :: zs) with ((done ++ [ch]) ++ zs)
      by (rewrite <- app_assoc; reflexivity).
    replace (length done + 1)%nat with (length (done ++ [ch]))
      by (rewrite length_app; simpl; lia).
    replace (S (length done)) with (length (done ++ [ch]))
      by (rewrite length_app; simpl; lia).
    destruct (IH Hascii' fuel (done ++ [ch]) zs) as [junk Hj];
      [simpl in Hfuel; lia | simpl in Hzs; lia |].
    exists junk. rewrite Hj, <- !app_assoc. reflexivity.
Qed.

(** C9, as amended: for every byte sequence [s] whose bytes lie in 1..255
    (a NUL-terminated string cannot hold a 0 byte), decoding the encoded
    form gives back [s]: [UnicodeToString(StringToUnicode(s)) == s], whatever
    the static buffer held before, also though both functions work in that
    one buffer. *)
Theorem UnicodeToString_StringToUnicode (s out0 : list Z) :
  Forall nonzero_byte s -> decode_encode s out0 = Some s.
Proof.
  intros Hs. unfold decode_encode, StringToUnicode.
  rewrite (count_loop_all s Hs). simpl Z.add.
  pose proof (nonzero_byte_neq s Hs) as Hnz.
  destruct (Z.eqb_spec (Z.of_nat (length (enc s))) (Z.of_nat (length s))) as [Heq|Hne].
  - destruct (enc_length_eq s Hs) as [Hascii _]; [lia|].
    unfold UnicodeToString, strlen_at. simpl skipn.
    rewrite (strlen_no_nul s Hnz). unfold Resize.
    rewrite firstn_nil. cbn [app length]. rewrite Nat.sub_0_r.
    destruct (decode_loop_copy s Hs Hascii (S (length s)) [] (repeat 0 (length s + 1)))
      as [junk Hj]; [lia | rewrite repeat_length; lia |].
    cbn [app length] in Hj. rewrite Hj. cbn [skipn].
    now rewrite cstring_app_nul.
  - assert (Hbuf : encode_loop s 0 (Z.to_nat (Z.of_nat (length s)))
                     (poke (Resize (Z.to_nat (Z.of_nat (length (enc s)) + 1)) [])
                           (length (Resize (Z.to_nat (Z.of_nat (length (enc s)) + 1)) []) - 1) 0)
                   = enc s ++ [0]).
    { unfold Resize. rewrite firstn_nil. cbn [app length].
      rewrite Nat.sub_0_r, poke_repeat_0.
      replace (Z.to_nat (Z.of_nat (length (enc s)) + 1)) with (length (enc s) + 1)%nat by lia.
      rewrite repeat_app. simpl (repeat 0 1).
      apply (encode_loop_fills s Hs [] (repeat 0 (length (enc s))) [0]).
      apply repeat_length. }
    rewrite Hbuf.
    pose proof (enc_nonzero s Hs) as Henz.
    unfold UnicodeToString, strlen_at. simpl skipn.
    rewrite (strlen_app_nul (enc s) [] Henz).
    assert (Hres : Resize (length (enc s) + 1) (enc s ++ [0]) = enc s ++ [0]).
    { unfold Resize. rewrite firstn_all2 by (rewrite length_app; simpl; lia).
      rewrite length_app. simpl length. rewrite Nat.sub_diag. apply app_nil_r. }
    rewrite Hres.
    destruct (decode_loop_in_place s s Hs (S (length (enc s))) [] [] [])
      as [junk Hj]; [pose proof (enc_length_ge s Hs); lia|].
    cbn [app length Nat.add] in Hj. rewrite Hj. cbn [skipn].
    now rewrite cstring_app_nul.
Qed.

Lemma UnicodeToString_StringToUnicode_witness :
  Forall nonzero_byte [72; 228; 108; 255; 1] /\
  decode_encode [72; 228; 108; 255; 1] [9; 9] = Some [72; 228; 108; 255; 1].
Proof.
  assert (H : Forall nonzero_byte [72; 228; 108; 255; 1])
    by (repeat constructor; unfold nonzero_byte; lia).
  split; [exact H | exact (UnicodeToString_StringToUnicode _ [9; 9] H)].
Defined.

(** C9 as stated fails on a sequence with a 0 byte: both functions stop at
    the first NUL. *)
Lemma embedded_nul_is_cut :
  Forall (fun b => 0 <= b <= 255) [65; 0; 66] /\
  decode_encode [65; 0; 66] [] = Some [65] /\
  decode_encode [65; 0; 66] [] <> Some [65; 0; 66].
Proof.
  split; [repeat constructor; lia|].
  split; [vm_compute; reflexivity | vm_compute; discriminate].
Qed.

End StringFacts.
(** * Properties of the rolloff evaluation *)

Section RolloffFacts.
Import Rolloff.
Local Open Scope R_scope.

Variable curve : list Z.
Variable r : FRolloffInfo R.

Abbreviation G := (GetRolloff curve (Some r)).

Ltac rolloff_tests :=
  unfold GetRolloff, fraction, curve_index;
  unfold ROLLOFF_Log, ROLLOFF_Linear, ROLLOFF_Custom, ROLLOFF_Doom in *;
  repeat match goal with
         | |- context [Rle_dec ?a ?b] => destruct (Rle_dec a b); try lra
         | |- context [Rge_dec ?a ?b] => destruct (Rge_dec a b); try lra
         | |- context [(?a =? ?b)%Z] =>
             destruct (Z.eqb_spec a b); try (exfalso; lia)
         end.

Lemma GetRolloff_near (d : R) : d <= MinDistance r -> G d = 1.
Proof. intros. rolloff_tests; reflexivity. Qed.

Lemma GetRolloff_log (d : R) :
  MinDistance r < d -> RolloffType r = ROLLOFF_Log ->
  G d = MinDistance r / (MinDistance r + RolloffFactor r * (d - MinDistance r)).
Proof. intros. rolloff_tests; reflexivity. Qed.

Lemma GetRolloff_far (d : R) :
  MinDistance r < d -> RolloffType r <> ROLLOFF_Log -> MaxDistance r <= d ->
  G d = 0.
Proof. intros. rolloff_tests; reflexivity. Qed.

Lemma GetRolloff_linear (d : R) :
  MinDistance r < d < MaxDistance r -> RolloffType r = ROLLOFF_Linear ->
  G d = fraction r d.
Proof.
  intros ? Ht. rolloff_tests; reflexivity.
Qed.

Lemma GetRolloff_custom (d : R) :
  MinDistance r < d < MaxDistance r -> RolloffType r = ROLLOFF_Custom ->
  curve <> [] ->
  G d = IZR (nth (curve_index curve r d) curve 0%Z) / 127.
Proof.
  intros ? Ht Hc. rolloff_tests.
  destruct curve; [contradiction | reflexivity].
Qed.

Lemma GetRolloff_doom (d : R) :
  MinDistance r < d < MaxDistance r ->
  RolloffType r <> ROLLOFF_Log -> RolloffType r <> ROLLOFF_Linear ->
  RolloffType r <> ROLLOFF_Custom \/ curve = [] ->
  G d = (Rpower 10 (fraction r d) - 1) / 9.
Proof.
  intros ? Hlog Hlin [Hc|Hc]; rolloff_tests; try reflexivity.
  rewrite Hc. reflexivity.
Qed.


(** ** Falling with the distance *)

Lemma fraction_falls (d1 d2 : R) :
  MinDistance r < MaxDistance r -> d1 <= d2 -> fraction r d2 <= fraction r d1.
Proof.
  intros Hr Hd. unfold fraction, Rdiv.
  apply Rmult_le_compat_r; [|lra].
  apply Rlt_le, Rinv_0_lt_compat. lra.
Qed.

Lemma fraction_inside (d : R) :
  MinDistance r < d < MaxDistance r -> 0 < fraction r d < 1.
Proof.
  intros [Hlo Hhi]. unfold fraction. split.
  - apply Rdiv_lt_0_compat; lra.
  - apply (Rmult_lt_reg_r (MaxDistance r - MinDistance r)); [lra|].
    unfold Rdiv. rewrite Rmult_assoc, Rinv_l by lra. lra.
Qed.

Lemma Int_part_mono (x y : R) : x <= y -> (Int_part x <= Int_part y)%Z.
Proof.
  intros Hxy.
  destruct (base_Int_part x) as [Hx1 Hx2], (base_Int_part y) as [Hy1 Hy2].
  apply Z.lt_succ_r, lt_IZR. rewrite succ_IZR. lra.
Qed.

Lemma float_to_int_mono (x y : R) :
  0 <= x -> x <= y -> (float_to_int x <= float_to_int y)%Z.
Proof.
  intros Hx Hxy. unfold float_to_int.
  destruct (Rle_dec 0 x), (Rle_dec 0 y); try lra.
  now apply Int_part_mono.
Qed.

Lemma float_to_int_range (x : R) (n : nat) :
  0 <= x < INR n -> (0 <= float_to_int x < Z.of_nat n)%Z.
Proof.
  intros [Hlo Hhi]. unfold float_to_int.
  destruct (Rle_dec 0 x); [|lra].
  destruct (base_Int_part x) as [H1 H2]. split.
  - apply Z.lt_succ_r, lt_IZR. rewrite succ_IZR. simpl. lra.
  - apply lt_IZR. rewrite <- INR_IZR_INZ. lra.
Qed.

Lemma curve_index_inside (d : R) :
  curve <> [] -> MinDistance r < d < MaxDistance r ->
  (curve_index curve r d < length curve)%nat.
Proof.
  intros Hc Hd. pose proof (fraction_inside d Hd) as [Hf0 Hf1].
  assert (Hn : 0 < INR (length curve))
    by (apply lt_0_INR; destruct curve; [contradiction | simpl; lia]).
  unfold curve_index.
  destruct (float_to_int_range (INR (length curve) * (1 - fraction r d))
                               (length curve)) as [Hlo Hhi]; [|lia].
  split; nra.
Qed.

Lemma curve_index_mono (d1 d2 : R) :
  MinDistance r < d1 -> d1 <= d2 -> d2 < MaxDistance r ->
  (curve_index curve r d1 <= curve_index curve r d2)%nat.
Proof.
  intros H1 H12 H2.
  pose proof (fraction_falls d1 d2 ltac:(lra) H12) as Hf.
  pose proof (fraction_inside d1 ltac:(lra)) as [Hf0 Hf1].
  pose proof (fraction_inside d2 ltac:(lra)) as [Hg0 Hg1].
  pose proof (pos_INR (length curve)) as Hn.
  unfold curve_index. apply Z2Nat.inj_le.
  - apply (float_to_int_range _ (S (length curve))). rewrite S_INR. split; nra.
  - apply (float_to_int_range _ (S (length curve))). rewrite S_INR. split; nra.
  - apply float_to_int_mono; nra.
Qed.

Lemma doom_value_mono (v w : R) :
  v <= w -> (Rpower 10 v - 1) / 9 <= (Rpower 10 w - 1) / 9.
Proof.
  intros Hvw. pose proof (Rle_Rpower 10 v w ltac:(lra) Hvw). lra.
Qed.

Lemma doom_value_bounds (v : R) :
  0 <= v <= 1 -> 0 <= (Rpower 10 v - 1) / 9 <= 1.
Proof.
  intros [H0 H1].
  pose proof (doom_value_mono 0 v H0) as Hlo.
  pose proof (doom_value_mono v 1 H1) as Hhi.
  rewrite Rpower_O in Hlo by lra. rewrite Rpower_1 in Hhi by lra. lra.
Qed.

Lemma falling_curve_value (i : nat) :
  falling_curve curve -> (i < length curve)%nat ->
  0 <= IZR (nth i curve 0%Z) / 127 <= 1.
Proof.
  intros [Hb _] Hi. rewrite Forall_forall in Hb.
  destruct (Hb (nth i curve 0%Z) (nth_In _ _ Hi)) as [Hlo Hhi].
  apply IZR_le in Hlo, Hhi. lra.
Qed.

Lemma curve_empty_or_not : curve = [] \/ curve <> [].
Proof. destruct curve; [left; reflexivity | right; discriminate]. Qed.

Hypothesis Hfalling : falling_descriptor curve r.

(** Inside the range every rolloff value lies between 0 and 1. *)
Lemma GetRolloff_bounds (d : R) : 0 <= G d <= 1.
Proof.
  destruct (Rle_dec d (MinDistance r)) as [Hn|Hn].
  { rewrite GetRolloff_near by assumption. lra. }
  apply Rnot_le_lt in Hn.
  pose proof Hfalling as Hdesc. unfold falling_descriptor in Hdesc.
  destruct (Z.eqb_spec (RolloffType r) ROLLOFF_Log) as [Hlog|Hlog].
  { rewrite GetRolloff_log by assumption. destruct Hdesc as [Hmin Hfac].
    assert (Hden : MinDistance r <= MinDistance r + RolloffFactor r * (d - MinDistance r))
      by nra.
    split.
    - apply Rlt_le, Rdiv_lt_0_compat; lra.
    - apply (Rmult_le_reg_r (MinDistance r + RolloffFactor r * (d - MinDistance r))); [lra|].
      unfold Rdiv. rewrite Rmult_assoc, Rinv_l by lra. lra. }
  destruct Hdesc as [Hmm Hcurve].
  destruct (Rle_dec (MaxDistance r) d) as [Hf|Hf].
  { rewrite GetRolloff_far by assumption. lra. }
  apply Rnot_le_lt in Hf. pose proof (fraction_inside d (conj Hn Hf)) as [Hf0 Hf1].
  destruct (Z.eqb_spec (RolloffType r) ROLLOFF_Linear) as [Hlin|Hlin].
  { rewrite GetRolloff_linear by auto. lra. }
  destruct (Z.eqb_spec (RolloffType r) ROLLOFF_Custom) as [Hcus|Hcus].
  - destruct curve_empty_or_not as [Hc|Hc].
    + rewrite GetRolloff_doom by auto. apply doom_value_bounds. lra.
    + rewrite GetRolloff_custom by auto.
      apply falling_curve_value; [auto|].
      apply curve_index_inside; auto.
  - rewrite GetRolloff_doom by auto. apply doom_value_bounds. lra.
Qed.

Lemma GetRolloff_falls_inside (d1 d2 : R) :
  MinDistance r < d1 -> d1 <= d2 -> G d2 <= G d1.
Proof.
  intros H1 H12.
  pose proof Hfalling as Hdesc. unfold falling_descriptor in Hdesc.
  destruct (Z.eqb_spec (RolloffType r) ROLLOFF_Log) as [Hlog|Hlog].
  { rewrite !GetRolloff_log by (assumption || lra).
    destruct Hdesc as [Hmin Hfac].
    unfold Rdiv. apply Rmult_le_compat_l; [lra|].
    apply Rinv_le_contravar; nra. }
  destruct Hdesc as [Hmm Hcurve].
  destruct (Rle_dec (MaxDistance r) d2) as [Hf|Hf].
  { rewrite (GetRolloff_far d2) by (assumption || lra).
    apply GetRolloff_bounds. }
  apply Rnot_le_lt in Hf.
  pose proof (fraction_falls d1 d2 Hmm H12) as Hfr.
  destruct (Z.eqb_spec (RolloffType r) ROLLOFF_Linear) as [Hlin|Hlin].
  { rewrite !GetRolloff_linear by (auto; lra). exact Hfr. }
  destruct (Z.eqb_spec (RolloffType r) ROLLOFF_Custom) as [Hcus|Hcus].
  - destruct curve_empty_or_not as [Hc|Hc].
    + rewrite !GetRolloff_doom by (auto; lra). now apply doom_value_mono.
    + rewrite !GetRolloff_custom by (auto; lra).
      destruct (Hcurve Hcus) as [_ Hfall].
      assert (Hi : (curve_index curve r d1 <= curve_index curve r d2
                    < length curve)%nat).
      { split; [apply curve_index_mono; lra|].
        apply curve_index_inside; [assumption | lra]. }
      apply Hfall, IZR_le in Hi. lra.
  - rewrite !GetRolloff_doom by (auto; lra). now apply doom_value_mono.
Qed.

Lemma GetRolloff_falls (d1 d2 : R) : d1 <= d2 -> G d2 <= G d1.
Proof.
  intros H12.
  destruct (Rle_dec d1 (MinDistance r)) as [Hn|Hn].
  - rewrite (GetRolloff_near d1) by assumption. apply GetRolloff_bounds.
  - apply GetRolloff_falls_inside; [lra | assumption].
Qed.

End RolloffFacts.

Section RolloffClaims.
Import Rolloff.
Local Open Scope R_scope.


Lemma float_to_int_IZR (z : Z) : (0 <= z)%Z -> float_to_int (IZR z) = z.
Proof.
  intros Hz. unfold float_to_int. apply IZR_le in Hz.
  destruct (Rle_dec 0 (IZR z)); [|lra].
  symmetry. apply Int_part_spec. lra.
Qed.





End RolloffClaims.
Section RolloffGainClaims.
Import Rolloff RolloffGain.
Local Open Scope R_scope.



End RolloffGainClaims.
(** * Properties of the sound engine *)

Section ChannelLists.
Import Rolloff Sound.
Local Open Scope Z_scope.

Lemma has_lor_same (f m : Z) : m <> 0 -> has (Z.lor f m) m = true.
Proof.
  intros Hm. unfold has. apply negb_true_iff, Z.eqb_neq.
  rewrite Z.land_lor_distr_l, Z.land_diag. intros H.
  apply Z.lor_eq_0_iff in H. tauto.
Qed.

Lemma has_lor_mask (f m1 m2 : Z) :
  has f (Z.lor m1 m2) = has f m1 || has f m2.
Proof.
  unfold has. rewrite Z.land_lor_distr_r, <- negb_andb. f_equal.
  destruct (Z.eqb_spec (Z.land f m1) 0) as [H1|H1],
           (Z.eqb_spec (Z.land f m2) 0) as [H2|H2]; simpl;
    try (rewrite H1); try (rewrite H2);
    try (apply Z.eqb_neq; intros H; apply Z.lor_eq_0_iff in H; tauto);
    reflexivity.
Qed.

Lemma has_lor_flags (a b m : Z) : has (Z.lor a b) m = has a m || has b m.
Proof.
  unfold has. rewrite Z.land_lor_distr_l, <- negb_andb. f_equal.
  destruct (Z.eqb_spec (Z.land a m) 0) as [H1|H1],
           (Z.eqb_spec (Z.land b m) 0) as [H2|H2]; simpl;
    try (rewrite H1); try (rewrite H2);
    try (apply Z.eqb_neq; intros H; apply Z.lor_eq_0_iff in H; tauto);
    reflexivity.
Qed.

Lemma find_chan_update (a : nat) (f : FSoundChan -> FSoundChan)
    (l : list FSoundChan) :
  (forall c, Addr (f c) = Addr c) ->
  find_chan a (update_chan a f l) = option_map f (find_chan a l).
Proof.
  intros Hf. unfold find_chan, update_chan.
  induction l as [|c l IH]; simpl; [reflexivity|].
  destruct (at_addr a c) eqn:Hc.
  - unfold at_addr in *. rewrite Hf, Hc. reflexivity.
  - rewrite Hc. exact IH.
Qed.

Lemma find_chan_remove (a : nat) (l : list FSoundChan) :
  find_chan a (remove_chan a l) = None.
Proof.
  unfold find_chan, remove_chan.
  induction l as [|c l IH]; simpl; [reflexivity|].
  destruct (at_addr a c) eqn:Hc; simpl; [exact IH | now rewrite Hc].
Qed.

Lemma find_chan_app_skip (a : nat) (l1 l2 : list FSoundChan) :
  ~ In a (map Addr l1) -> find_chan a (l1 ++ l2) = find_chan a l2.
Proof.
  unfold find_chan. induction l1 as [|c l1 IH]; simpl; intros Hn; [reflexivity|].
  unfold at_addr at 1. destruct (Nat.eqb_spec (Addr c) a) as [He|He];
    [exfalso; tauto | apply IH; tauto].
Qed.

Lemma find_chan_here (c : FSoundChan) (l : list FSoundChan) :
  find_chan (Addr c) (c :: l) = Some c.
Proof. unfold find_chan, at_addr. simpl. now rewrite Nat.eqb_refl. Qed.

Lemma update_chan_absent (a : nat) (f : FSoundChan -> FSoundChan)
    (l : list FSoundChan) :
  ~ In a (map Addr l) -> update_chan a f l = l.
Proof.
  unfold update_chan. induction l as [|c l IH]; simpl; intros Hn; [reflexivity|].
  unfold at_addr at 1. destruct (Nat.eqb_spec (Addr c) a) as [He|He];
    [exfalso; tauto | f_equal; apply IH; tauto].
Qed.

Lemma remove_chan_absent (a : nat) (l : list FSoundChan) :
  ~ In a (map Addr l) -> remove_chan a l = l.
Proof.
  unfold remove_chan. induction l as [|c l IH]; simpl; intros Hn; [reflexivity|].
  unfold at_addr at 1. destruct (Nat.eqb_spec (Addr c) a) as [He|He]; simpl;
    [exfalso; tauto | f_equal; apply IH; tauto].
Qed.

Lemma update_chan_middle (f : FSoundChan -> FSoundChan)
    (l1 : list FSoundChan) (c : FSoundChan) (l2 : list FSoundChan) :
  NoDup (map Addr (l1 ++ c :: l2)) ->
  update_chan (Addr c) f (l1 ++ c :: l2) = l1 ++ f c :: l2.
Proof.
  intros Hnd. rewrite map_app in Hnd. simpl in Hnd.
  pose proof (NoDup_remove_2 _ _ _ Hnd) as Hnot.
  unfold update_chan. rewrite map_app. simpl.
  unfold at_addr at 2. rewrite Nat.eqb_refl.
  fold (update_chan (Addr c) f l1). fold (update_chan (Addr c) f l2).
  rewrite !update_chan_absent; [reflexivity | |];
    intros Hin; apply Hnot, in_or_app; tauto.
Qed.

Lemma remove_chan_middle (l1 : list FSoundChan) (c : FSoundChan)
    (l2 : list FSoundChan) :
  NoDup (map Addr (l1 ++ c :: l2)) ->
  remove_chan (Addr c) (l1 ++ c :: l2) = l1 ++ l2.
Proof.
  intros Hnd. rewrite map_app in Hnd. simpl in Hnd.
  pose proof (NoDup_remove_2 _ _ _ Hnd) as Hnot.
  unfold remove_chan. rewrite filter_app. simpl.
  unfold at_addr at 2. rewrite Nat.eqb_refl. simpl.
  fold (remove_chan (Addr c) l1). fold (remove_chan (Addr c) l2).
  rewrite !remove_chan_absent; [reflexivity | |];
    intros Hin; apply Hnot, in_or_app; tauto.
Qed.

Lemma find_chan_middle (l1 : list FSoundChan) (c : FSoundChan)
    (l2 : list FSoundChan) :
  NoDup (map Addr (l1 ++ c :: l2)) ->
  find_chan (Addr c) (l1 ++ c :: l2) = Some c.
Proof.
  intros Hnd. rewrite map_app in Hnd. simpl in Hnd.
  pose proof (NoDup_remove_2 _ _ _ Hnd) as Hnot.
  rewrite find_chan_app_skip; [apply find_chan_here|].
  intros Hin; apply Hnot, in_or_app; tauto.
Qed.

End ChannelLists.

Section ChannelEndedFacts.
Import Rolloff Sound.
Local Open Scope Z_scope.

Context {BS : Type}.
Variable GSnd : SoundRenderer BS.

Lemma ChannelEnded_parks (st : SoundEngine BS) (a : nat) (schan : FSoundChan) :
  find_chan a (Channels st) = Some schan ->
  ended_evicted GSnd st schan = true ->
  parked (ChannelEnded GSnd st (Some a)) a schan.
Proof.
  intros Hfind He. unfold ChannelEnded, deref. rewrite Hfind, He.
  cbn [negb]. unfold assign, parked. cbn [Channels set_Channels set_FreeChannels].
  rewrite find_chan_update by reflexivity. rewrite Hfind. cbn [option_map].
  eexists. split; [reflexivity|]. split; [|split; reflexivity].
  apply has_lor_same. discriminate.
Qed.

Lemma ChannelEnded_retires (st : SoundEngine BS) (a : nat) (schan : FSoundChan) :
  find_chan a (Channels st) = Some schan ->
  ended_evicted GSnd st schan = false ->
  retired st (ChannelEnded GSnd st (Some a)) a.
Proof.
  intros Hfind He. unfold ChannelEnded, deref. rewrite Hfind, He.
  cbn [negb]. unfold ReturnChannel, UnlinkChannel, retired.
  cbn [Channels FreeChannels set_Channels set_FreeChannels].
  split; [apply find_chan_remove | reflexivity].
Qed.

(** C3: [ChannelEnded] parks or retires the finished channel; a Forgettable
    channel is retired; else one with Loop or Evicted set is parked; else,
    with the backend position [p] and the sample length [L], for [p = 0] it
    is parked iff JustStarted is set and for [p <> 0] iff [p < L].  Parking
    sets Evicted and clears [SysChannel]; retiring takes the channel out of
    the active list and puts it, zeroed, at the head of the free list. *)
Theorem ChannelEnded_classifies (st : SoundEngine BS) (a : nat)
    (schan : FSoundChan) :
  find_chan a (Channels st) = Some schan ->
  let flags := ChanFlags schan in
  let p := GSnd_GetPosition GSnd (GSndState st) schan in
  let L := GSnd_GetSampleLength GSnd (GSndState st)
                                (data (sfx_at st (SoundID schan))) in
  let st' := ChannelEnded GSnd st (Some a) in
  (parked st' a schan \/ retired st st' a) /\
  ~ (parked st' a schan /\ retired st st' a) /\
  (has flags CHAN_FORGETTABLE = true -> retired st st' a) /\
  (has flags CHAN_FORGETTABLE = false ->
   has flags CHAN_LOOP = true \/ has flags CHAN_EVICTED = true ->
   parked st' a schan) /\
  (has flags CHAN_FORGETTABLE = false -> has flags CHAN_LOOP = false ->
   has flags CHAN_EVICTED = false -> p = 0 ->
   (parked st' a schan <-> has flags CHAN_JUSTSTARTED = true)) /\
  (has flags CHAN_FORGETTABLE = false -> has flags CHAN_LOOP = false ->
   has flags CHAN_EVICTED = false -> p <> 0 ->
   (parked st' a schan <-> p < L)).
Proof.
  intros Hfind flags p L st'.
  assert (Hexcl : ~ (parked st' a schan /\ retired st st' a)).
  { intros [(c & Hc & _) [Hn _]]. congruence. }
  pose proof (ChannelEnded_parks st a schan Hfind) as Hpark.
  pose proof (ChannelEnded_retires st a schan Hfind) as Hret.
  fold st' in Hpark, Hret.
  assert (Hiff : parked st' a schan <-> ended_evicted GSnd st schan = true).
  { split; [|exact Hpark]. intros Hp.
    destruct (ended_evicted GSnd st schan) eqn:He; [reflexivity|].
    exfalso. apply Hexcl. split; [exact Hp | now apply Hret]. }
  split; [|split; [exact Hexcl|]].
  { destruct (ended_evicted GSnd st schan); [left | right]; auto. }
  unfold ended_evicted in *. fold flags p L in Hpark, Hret, Hiff.
  rewrite has_lor_mask in *.
  split; [|split; [|split]].
  - intros Hf. apply Hret. now rewrite Hf.
  - intros Hf Hle. apply Hpark. rewrite Hf.
    destruct Hle as [-> | ->]; [reflexivity | now rewrite orb_true_r].
  - intros Hf Hl He Hp0. rewrite Hiff, Hf, Hl, He. cbn [orb].
    rewrite Hp0. reflexivity.
  - intros Hf Hl He Hp0. rewrite Hiff, Hf, Hl, He. cbn [orb].
    apply Z.eqb_neq in Hp0. rewrite Hp0. apply Z.ltb_lt.
Qed.

End ChannelEndedFacts.

Section ChannelEndedExample.
Import Rolloff Sound.
Local Open Scope Z_scope.

(** A sound that has just started ends at position 0: it is parked. *)
Lemma ChannelEnded_classifies_witness :
  exists schan,
    find_chan 0 (Channels (World.state_of
                             (World.start World.silence SOURCE_Actor 1000 1 4)))
    = Some schan /\
    parked (ChannelEnded World.granting
              (World.state_of (World.start World.silence SOURCE_Actor 1000 1 4))
              (Some 0%nat)) 0 schan.
Proof.
  eexists. split.
  - vm_compute. reflexivity.
  - refine (proj2 (proj1 (proj2 (proj2 (proj2 (proj2
      (ChannelEnded_classifies World.granting
         (World.state_of (World.start World.silence SOURCE_Actor 1000 1 4))
         0%nat _ _))))) _ _ _ _) _); vm_compute; reflexivity.
Defined.

End ChannelEndedExample.

Section StopSoundFacts.
Import Rolloff Sound.
Local Open Scope Z_scope.

Context {BS : Type}.
Variable GSnd : SoundRenderer BS.
Variable point_of_ptr : Z -> FVector3.

Lemma deref_active (st : SoundEngine BS) (a : nat) (c : FSoundChan) :
  find_chan a (Channels st) = Some c -> deref st a = Some c.
Proof. intros H. unfold deref. now rewrite H. Qed.

Lemma after_StopSound_addr (c : FSoundChan) :
  Forall (fun c' => Addr c' = Addr c) (after_StopSound c).
Proof.
  unfold after_StopSound.
  repeat match goal with |- context [if ?b then _ else _] => destruct b end;
    repeat constructor.
Qed.

Lemma NoDup_after_StopSound (done next : list FSoundChan) (c : FSoundChan) :
  NoDup (map Addr (done ++ c :: next)) ->
  NoDup (map Addr ((done ++ after_StopSound c) ++ next)).
Proof.
  intros Hnd. rewrite <- app_assoc.
  pose proof (after_StopSound_addr c) as Ha.
  destruct (after_StopSound c) as [|c' [|c'' t]] eqn:E.
  - simpl. rewrite map_app in *. simpl in Hnd. now apply NoDup_remove_1 in Hnd.
  - inversion Ha as [|? ? He _]; subst.
    rewrite map_app in *. simpl in *. now rewrite He.
  - exfalso. unfold after_StopSound in E.
    repeat match type of E with
           | context [if ?b then _ else _] => destruct b
           end; discriminate.
Qed.

(** Stopping one unpositioned channel of the active list. *)
Lemma StopChannel_unpositioned (st : SoundEngine BS)
    (done next : list FSoundChan) (c : FSoundChan) :
  Channels st = done ++ c :: next ->
  NoDup (map Addr (done ++ c :: next)) ->
  SourceType c = SOURCE_None ->
  Channels (StopChannel GSnd point_of_ptr st (Some (Addr c)))
  = done ++ after_StopSound c ++ next.
Proof.
  intros Hch Hnd Hty.
  assert (Hfind : find_chan (Addr c) (Channels st) = Some c)
    by (rewrite Hch; now apply find_chan_middle).
  unfold StopChannel. rewrite (deref_active _ _ _ Hfind).
  unfold after_StopSound. rewrite Hty. cbn [Z.eqb SOURCE_None SOURCE_Actor].
  destruct (SysChannel c =? 0) eqn:Hsys; cbn [negb andb].
  { unfold ReturnChannel, UnlinkChannel.
    cbn [Channels set_Channels set_FreeChannels].
    rewrite Hch. now apply remove_chan_middle. }
  destruct (has (ChanFlags c) CHAN_EVICTED) eqn:Hev; cbn [negb andb].
  - (* flagged evicted while holding a voice *)
    rewrite (deref_active _ _ _ Hfind).
    unfold backend_StopChannel, ChannelEnded, deref.
    cbn [Channels set_GSndState]. rewrite Hfind.
    unfold ended_evicted. rewrite has_lor_mask, Hev, orb_true_r.
    destruct (has (ChanFlags c) CHAN_FORGETTABLE) eqn:Hfg; cbn [negb].
    + unfold ReturnChannel, UnlinkChannel.
      cbn [Channels set_Channels set_FreeChannels set_GSndState].
      rewrite Hch. now apply remove_chan_middle.
    + unfold assign. cbn [Channels set_Channels set_FreeChannels set_GSndState].
      rewrite Hch. now apply update_chan_middle.
  - (* playing: marked forgettable, then released by the backend *)
    set (c1 := set_ChanFlags c (Z.lor (ChanFlags c) CHAN_FORGETTABLE)).
    assert (Hch1 : Channels (assign st (Addr c) (fun c0 =>
                     set_ChanFlags c0 (Z.lor (ChanFlags c0) CHAN_FORGETTABLE)))
                   = done ++ c1 :: next).
    { unfold assign. cbn [Channels set_Channels set_FreeChannels].
      rewrite Hch. now apply update_chan_middle. }
    assert (Hnd1 : NoDup (map Addr (done ++ c1 :: next)))
      by (rewrite map_app in *; exact Hnd).
    assert (Hfind1 : find_chan (Addr c) (done ++ c1 :: next) = Some c1)
      by (apply (find_chan_middle done c1 next Hnd1)).
    rewrite (deref_active _ (Addr c) c1) by (rewrite Hch1; exact Hfind1).
    unfold backend_StopChannel, ChannelEnded, deref.
    cbn [Channels set_GSndState]. change (Addr c1) with (Addr c).
    rewrite Hch1, Hfind1.
    unfold ended_evicted.
    replace (has (ChanFlags c1) CHAN_FORGETTABLE) with true
      by (symmetry; apply has_lor_same; discriminate).
    cbn [negb]. unfold ReturnChannel, UnlinkChannel.
    cbn [Channels set_Channels set_FreeChannels set_GSndState].
    rewrite Hch1. apply (remove_chan_middle done c1 next Hnd1).
Qed.

Lemma StopSound_from_active (chans : list FSoundChan) :
  forall (st : SoundEngine BS) (done : list FSoundChan),
    Channels st = done ++ chans ->
    NoDup (map Addr (done ++ chans)) ->
    Channels (StopSound_from GSnd point_of_ptr st chans)
    = done ++ flat_map after_StopSound chans.
Proof.
  induction chans as [|c next IH]; intros st done Hch Hnd; cbn [StopSound_from].
  - simpl. now rewrite app_nil_r in *.
  - assert (Hfind : find_chan (Addr c) (Channels st) = Some c)
      by (rewrite Hch; now apply find_chan_middle).
    rewrite (deref_active _ _ _ Hfind).
    cbn [flat_map]. rewrite app_assoc.
    destruct (Z.eqb_spec (SourceType c) SOURCE_None) as [Hty|Hty].
    + apply IH.
      * rewrite <- app_assoc. now apply StopChannel_unpositioned.
      * now apply NoDup_after_StopSound.
    + assert (Ha : after_StopSound c = [c]).
      { unfold after_StopSound.
        destruct (Z.eqb_spec (SourceType c) SOURCE_None); [contradiction|reflexivity]. }
      rewrite Ha. apply IH; rewrite <- app_assoc; assumption.
Qed.

(** C10: the one-argument [StopSound(c)] does not depend on [c]; it leaves
    the channels of every other source type as they are and in their order,
    and of the unpositioned ones ([SOURCE_None]) it leaves none that holds
    a voice: each is back in the free list, or, if it was already flagged
    evicted, parked; none of them stays when no active channel is both
    flagged evicted and holding a voice. *)
Theorem StopSound_unpositioned (st : SoundEngine BS) (c : Z) :
  NoDup (map Addr (Channels st)) ->
  let st' := StopSound GSnd point_of_ptr st c in
  (forall c', StopSound GSnd point_of_ptr st c' = st') /\
  Channels st' = flat_map after_StopSound (Channels st) /\
  filter (fun ch => negb (SourceType ch =? SOURCE_None)) (Channels st')
  = filter (fun ch => negb (SourceType ch =? SOURCE_None)) (Channels st) /\
  Forall (fun ch => SourceType ch = SOURCE_None -> SysChannel ch = 0)
         (Channels st') /\
  (Forall (fun ch => has (ChanFlags ch) CHAN_EVICTED = true ->
                     SysChannel ch = 0) (Channels st) ->
   Forall (fun ch => SourceType ch <> SOURCE_None) (Channels st')).
Proof.
  intros Hnd st'.
  assert (Hch : Channels st' = flat_map after_StopSound (Channels st)).
  { subst st'. unfold StopSound.
    now rewrite (StopSound_from_active (Channels st) st []). }
  split; [reflexivity|]. split; [exact Hch|]. rewrite Hch. clear Hch st' Hnd.
  split; [|split].
  - induction (Channels st) as [|ch l IH]; [reflexivity|].
    cbn [flat_map]. rewrite filter_app, IH. cbn [filter].
    unfold after_StopSound.
    destruct (SourceType ch =? SOURCE_None) eqn:E; cbn [negb].
    + destruct (_ && _); cbn [filter app]; [|reflexivity].
      change (SourceType (set_SysChannel
                (set_ChanFlags ch (Z.lor (ChanFlags ch) CHAN_EVICTED)) 0))
        with (SourceType ch).
      now rewrite E.
    + cbn [filter app]. now rewrite E.
  - induction (Channels st) as [|ch l IH]; [constructor|].
    cbn [flat_map]. apply Forall_app. split; [|exact IH].
    unfold after_StopSound.
    destruct (Z.eqb_spec (SourceType ch) SOURCE_None) as [Hty|Hty].
    + destruct (_ && _); repeat constructor.
    + repeat constructor. intros; contradiction.
  - intros Hinv. induction Hinv as [|ch l Hc _ IH]; [constructor|].
    cbn [flat_map]. apply Forall_app. split; [|exact IH].
    unfold after_StopSound.
    destruct (Z.eqb_spec (SourceType ch) SOURCE_None) as [Hty|Hty];
      [|repeat constructor; assumption].
    destruct (Z.eqb_spec (SysChannel ch) 0) as [Hs|Hs]; cbn [negb andb];
      [constructor|].
    destruct (has (ChanFlags ch) CHAN_EVICTED) eqn:He; cbn [negb andb];
      [|constructor].
    exfalso. auto.
Qed.

End StopSoundFacts.

Section StopSoundExample.
Import Rolloff Sound.
Local Open Scope Z_scope.

(** An unpositioned sound and an actor's sound are playing; [StopSound]
    leaves the actor's. *)
Lemma StopSound_unpositioned_witness :
  NoDup (map Addr (Channels (World.state_of
           (World.start (World.state_of
              (World.start World.silence SOURCE_Actor 1000 1 4))
              SOURCE_None 0 2 4)))) /\
  map Source
      (Channels (StopSound World.granting World.point_bits
         (World.state_of
            (World.start (World.state_of
               (World.start World.silence SOURCE_Actor 1000 1 4))
               SOURCE_None 0 2 4)) 7))
  = [1000].
Proof.
  assert (H : NoDup (map Addr (Channels (World.state_of
           (World.start (World.state_of
              (World.start World.silence SOURCE_Actor 1000 1 4))
              SOURCE_None 0 2 4))))).
  { vm_compute. repeat constructor; simpl; intuition discriminate. }
  split; [exact H|].
  rewrite (proj1 (proj2 (StopSound_unpositioned World.granting World.point_bits
                           _ 7 H))).
  vm_compute. reflexivity.
Defined.

End StopSoundExample.

Section PolicyExamples.
Import Rolloff Sound World.
Local Open Scope Z_scope.

(** C1, on the code: sound 1 is an alias of the singular sound 2.  After one
    actor has started sound 1, the active channel carries the resolved
    SoundID 2 (and OrgID 1); [CheckSingular] compares the resolved id with
    [OrgID], finds nothing, and a second start of the same sound is not
    marked Evicted: two active channels then play the singular sound. *)
Theorem singular_copy_through_alias :
  bSingular (sfx_at (state_of (start silence SOURCE_Actor 1000 1 1)) 2) = true /\
  map (fun c => (SoundID c, OrgID c))
      (Channels (state_of (start silence SOURCE_Actor 1000 1 1))) = [(2, 1)] /\
  CheckSingular (state_of (start silence SOURCE_Actor 1000 1 1)) 2 = false /\
  pointer_of (start (state_of (start silence SOURCE_Actor 1000 1 1))
                    SOURCE_Actor 2000 1 1) = Some 1%nat /\
  map (fun c => (SoundID c, has (ChanFlags c) CHAN_EVICTED,
                 negb (SysChannel c =? 0)))
      (Channels (state_of (start (state_of (start silence SOURCE_Actor 1000 1 1))
                                 SOURCE_Actor 2000 1 1)))
  = [(2, false, true); (2, false, true)].
Proof. vm_compute. repeat split; reflexivity. Qed.

(** The same two starts asked for by the name of the singular sound itself:
    the second one is refused. *)
Lemma singular_copy_by_name :
  pointer_of (start (state_of (start silence SOURCE_Actor 1000 1 2))
                    SOURCE_Actor 2000 1 2) = None.
Proof. vm_compute. reflexivity. Qed.

(** C4, on the code: actor 1000 restarts the sound it is playing on slot 1.
    The scan meets the two other copies first, reaches the limit and stops
    before it comes to the actor's own channel: the start is limited and
    returns null, where the rule as specified exempts it.  With the actor's
    channel at the head of the list the same start is exempt. *)
Theorem restart_behind_nearby_copies :
  map (fun c => (SoundID c, SourceType c, Source c, EntChannel c,
                 has (ChanFlags c) CHAN_EVICTED)) (Channels crowded)
  = [(3, SOURCE_None, 0, 3, false); (3, SOURCE_None, 0, 2, false);
     (3, SOURCE_Actor, 1000, 1, false)] /\
  CheckSoundLimit still crowded 3 origin 2 (65536 # 1) SOURCE_Actor 1000 1
  = true /\
  CheckSoundLimit_as_specified still crowded 3 origin 2 (65536 # 1)
                               SOURCE_Actor 1000 1 = false /\
  pointer_of (start crowded SOURCE_Actor 1000 1 3) = None /\
  CheckSoundLimit still (set_Channels crowded (rev (Channels crowded)))
                  3 origin 2 (65536 # 1) SOURCE_Actor 1000 1 = false.
Proof. vm_compute. repeat split; reflexivity. Qed.

End PolicyExamples.

Section StartPlayFacts.
Import Rolloff Sound.
Local Open Scope Z_scope.

Context {BS : Type}.
Variable GSnd : SoundRenderer BS.
Variable client : SoundClient.
Variable rand_value : nat -> Z.
Variable ptr_of_point : FVector3 -> Z.
Variable point_of_ptr : Z -> FVector3.

Abbreviation record := (record_start ptr_of_point point_of_ptr).

Lemma record_start_fields (l : Locals) (chanflags : Z) (c : FSoundChan) :
  Addr (record l chanflags c) = Addr c /\
  SysChannel (record l chanflags c) = SysChannel c /\
  StartTime (record l chanflags c) = StartTime c /\
  ChanFlags (record l chanflags c) = Z.lor (ChanFlags c) chanflags /\
  EntChannel (record l chanflags c) = to_uint8 (l_channel l) /\
  SourceType (record l chanflags c) = to_uint8 (l_type l) /\
  SoundID (record l chanflags c) = l_sound_id l /\
  OrgID (record l chanflags c) = l_org_id l.
Proof.
  unfold record_start.
  destruct (l_type l =? SOURCE_Unattached);
    [destruct (l_pt l) | destruct (negb (l_type l =? SOURCE_None))];
    repeat split.
Qed.

Lemma record_start_Source (l : Locals) (chanflags : Z) (c : FSoundChan) :
  l_type l <> SOURCE_Unattached -> l_type l <> SOURCE_None ->
  Source (record l chanflags c) = l_source l.
Proof.
  intros H1 H2. unfold record_start.
  destruct (Z.eqb_spec (l_type l) SOURCE_Unattached); [contradiction|].
  destruct (Z.eqb_spec (l_type l) SOURCE_None); [contradiction|]. reflexivity.
Qed.

Lemma GetChannel_head (st : SoundEngine BS) (syschan : Z) :
  exists c,
    Channels (snd (GetChannel st syschan)) = c :: Channels
      (match FreeChannels st with
       | f :: _ => UnlinkChannel st (Addr f)
       | [] => st
       end) /\
    Addr c = fst (GetChannel st syschan) /\ SysChannel c = syschan.
Proof.
  unfold GetChannel. destruct (FreeChannels st) as [|f free]; eexists;
    cbn [fst snd Channels set_Channels set_allocated];
    (split; [reflexivity | split; reflexivity]).
Qed.

Lemma find_chan_head (st : SoundEngine BS) (syschan : Z) :
  exists c,
    find_chan (fst (GetChannel st syschan))
              (Channels (snd (GetChannel st syschan))) = Some c /\
    Addr c = fst (GetChannel st syschan) /\ SysChannel c = syschan.
Proof.
  destruct (GetChannel_head st syschan) as (c & Hc & Ha & Hs).
  exists c. rewrite Hc, <- Ha. split; [apply find_chan_here | split; [reflexivity | exact Hs]].
Qed.

Lemma find_chan_assign (st : SoundEngine BS) (a : nat)
    (f : FSoundChan -> FSoundChan) :
  (forall c, Addr (f c) = Addr c) ->
  find_chan a (Channels (assign st a f))
  = option_map f (find_chan a (Channels st)).
Proof. intros Hf. unfold assign. cbn [Channels set_Channels set_FreeChannels].
       now apply find_chan_update. Qed.

Lemma find_chan_SetPitch (st : SoundEngine BS) (a : nat) (q : Q)
    (c : FSoundChan) :
  find_chan a (Channels st) = Some c ->
  exists p, find_chan a (Channels (SetPitch GSnd st a q)) = Some (set_Pitch c p).
Proof.
  intros Hc. unfold SetPitch, deref. rewrite Hc.
  eexists. rewrite find_chan_assign by reflexivity.
  cbn [Channels set_GSndState]. rewrite Hc. reflexivity.
Qed.

Lemma start_voice_blocked (st : SoundEngine BS) (l : Locals) :
  has (l_chanflags l) CHAN_EVICTED = true ->
  start_voice GSnd client st l = (None, st).
Proof. intros H. unfold start_voice. now rewrite H. Qed.

Lemma StartSound_select_flags (st st' : SoundEngine BS) (l l' : Locals) :
  StartSound_select GSnd client rand_value point_of_ptr st l = inr (st', l') ->
  l_chanflags l' = l_chanflags l /\ l_type l' = l_type l /\
  l_source l' = l_source l /\ l_sound_id l' = l_sound_id l /\
  l_org_id l' = l_org_id l /\ l_pt l' = l_pt l.
Proof.
  unfold StartSound_select.
  repeat match goal with
         | |- context [if ?b then _ else _] => destruct b
         | |- context [match ?x with _ => _ end] => destruct x
         end; intros H; try discriminate; inversion H; subst; cbn; repeat split.
Qed.

End StartPlayFacts.

Section BlockedStart.
Import Rolloff Sound.
Local Open Scope Z_scope.

Lemma land_single_bit (f n : Z) :
  0 <= n -> Z.land f (2 ^ n) = if Z.testbit f n then 2 ^ n else 0.
Proof.
  intros Hn. apply Z.bits_inj'. intros m Hm.
  rewrite Z.land_spec, Z.pow2_bits_eqb by assumption.
  destruct (Z.eqb_spec n m) as [->|Hne].
  - rewrite andb_true_r. destruct (Z.testbit f m) eqn:E.
    + now rewrite Z.pow2_bits_true.
    + now rewrite Z.bits_0.
  - rewrite andb_false_r. destruct (Z.testbit f n).
    + now rewrite Z.pow2_bits_false.
    + now rewrite Z.bits_0.
Qed.

Lemma blocked_without_loop (f : Z) :
  has f CHAN_EVICTED = true -> has f CHAN_LOOP = false ->
  (Z.land f (Z.lor CHAN_EVICTED CHAN_LOOP) =? CHAN_EVICTED) = true.
Proof.
  unfold has. intros He Hl.
  apply negb_true_iff, Z.eqb_neq in He. apply negb_false_iff, Z.eqb_eq in Hl.
  rewrite Z.land_lor_distr_r, Hl, Z.lor_0_r. apply Z.eqb_eq.
  change CHAN_EVICTED with (2 ^ 1) in *.
  rewrite land_single_bit in * by lia.
  destruct (Z.testbit f 1); [reflexivity | contradiction].
Qed.

Context {BS : Type}.
Variable GSnd : SoundRenderer BS.
Variable client : SoundClient.
Variable rand_value : nat -> Z.
Variable ptr_of_point : FVector3 -> Z.
Variable point_of_ptr : Z -> FVector3.

Abbreviation record := (record_start ptr_of_point point_of_ptr).

Lemma GetChannel_GSndState (st : SoundEngine BS) (syschan : Z) :
  GSndState (snd (GetChannel st syschan)) = GSndState st.
Proof. unfold GetChannel. destruct (FreeChannels st); reflexivity. Qed.

(** A looping sound that did not get a voice is parked. *)
Lemma StartSound_play_parks (st : SoundEngine BS) (l : Locals) :
  fst (start_voice GSnd client st l) = None ->
  has (l_chanflags l) CHAN_LOOP = true ->
  exists a st' c c0,
    StartSound_play GSnd client ptr_of_point point_of_ptr st l
    = Returns (Some a) st' /\
    find_chan a (Channels st') = Some c /\
    has (ChanFlags c) CHAN_EVICTED = true /\ SysChannel c = 0 /\
    Addr c0 = a /\
    StartTime c
    = GSnd_MarkStartTime GSnd (GSndState (snd (start_voice GSnd client st l))) c0.
Proof.
  intros Hv Hl. unfold StartSound_play.
  destruct (start_voice GSnd client st l) as [voice st3]. cbn [fst snd] in *.
  subst voice. rewrite Hl.
  destruct (find_chan_head st3 0) as (c0 & Hc0 & Ha0 & Hs0).
  destruct (GetChannel st3 0) as [a st4] eqn:Hget. cbn [fst snd] in *.
  unfold deref. rewrite Hc0.
  set (t := GSnd_MarkStartTime GSnd (GSndState st4) c0).
  set (flags := if negb (Qle_bool (l_attenuation l) 0)
                then Z.lor (Z.lor (l_chanflags l) CHAN_EVICTED)
                           (Z.lor CHAN_IS3D CHAN_JUSTSTARTED)
                else Z.lor (Z.lor (l_chanflags l) CHAN_EVICTED)
                           (Z.lor CHAN_LISTENERZ CHAN_JUSTSTARTED)).
  set (st5 := assign st4 a (fun c =>
                set_StartTime c (GSnd_MarkStartTime GSnd (GSndState st4) c))).
  set (st6 := assign st5 a (record l flags)).
  assert (H5 : find_chan a (Channels st5) = Some (set_StartTime c0 t)).
  { subst st5. rewrite find_chan_assign by reflexivity. now rewrite Hc0. }
  assert (H6 : find_chan a (Channels st6)
               = Some (record l flags (set_StartTime c0 t))).
  { subst st6. rewrite find_chan_assign
      by (intros; apply record_start_fields). now rewrite H5. }
  destruct (record_start_fields ptr_of_point point_of_ptr l flags
              (set_StartTime c0 t)) as (_ & Hsys & Htime & Hflags & _).
  assert (Hev : has (Z.lor (ChanFlags (set_StartTime c0 t)) flags) CHAN_EVICTED
                = true).
  { subst flags.
    destruct (negb (Qle_bool (l_attenuation l) 0));
      rewrite !has_lor_flags;
      change (has CHAN_EVICTED CHAN_EVICTED) with true;
      repeat match goal with
             | |- context [has ?x ?y] => destruct (has x y)
             end; reflexivity. }
  assert (Ht : t = GSnd_MarkStartTime GSnd (GSndState st3) c0).
  { subst t. f_equal. change st4 with (snd (a, st4)). rewrite <- Hget.
    apply GetChannel_GSndState. }
  destruct (negb (Qle_bool (l_spitch l) 0)).
  - destruct (find_chan_SetPitch GSnd st6 a (l_spitch l) _ H6) as [p Hp].
    exists a, (SetPitch GSnd st6 a (l_spitch l)),
      (set_Pitch (record l flags (set_StartTime c0 t)) p), c0.
    split; [reflexivity|]. split; [exact Hp|].
    split; [|split; [|split]].
    + change (ChanFlags (set_Pitch ?x p)) with (ChanFlags x).
      now rewrite Hflags.
    + change (SysChannel (set_Pitch ?x p)) with (SysChannel x).
      rewrite Hsys. exact Hs0.
    + exact Ha0.
    + change (StartTime (set_Pitch ?x p)) with (StartTime x).
      rewrite Htime. exact Ht.
  - exists a, st6, (record l flags (set_StartTime c0 t)), c0.
    split; [reflexivity|]. split; [exact H6|].
    split; [|split; [|split]].
    + now rewrite Hflags.
    + rewrite Hsys. exact Hs0.
    + exact Ha0.
    + rewrite Htime. exact Ht.
Qed.

Lemma StartSound_play_null (st : SoundEngine BS) (l : Locals) :
  fst (start_voice GSnd client st l) = None ->
  has (l_chanflags l) CHAN_LOOP = false ->
  StartSound_play GSnd client ptr_of_point point_of_ptr st l
  = Returns None (snd (start_voice GSnd client st l)).
Proof.
  intros Hv Hl. unfold StartSound_play.
  destruct (start_voice GSnd client st l) as [voice st3]. cbn [fst snd] in *.
  subst voice. rewrite Hl. reflexivity.
Qed.

(** C5, as amended: a start that is blocked (singular or near-limit
    eviction) without the Loop flag returns null at once.  A start that
    comes through the intermediate guards (the sound is not the empty
    sound, the automatic slot search finds a slot, the pause gate lets it
    pass) and then gets no voice, because it is blocked or because the
    backend refuses, returns null without the Loop flag; with the Loop flag
    it allocates a channel, marks its start time, sets the Evicted flag and
    returns that parked channel. *)
Theorem blocked_or_refused_start (fuel : nat) (st : SoundEngine BS)
    (type source : Z) (pt : option FVector3) (channel sound_id : Z)
    (volume attenuation : Q) (forcedrolloff : option (FRolloffInfo Q))
    (spitch : Q) (st1 : SoundEngine BS) (l1 : Locals) :
  StartSound_check client rand_value fuel st type source pt channel
                   sound_id volume attenuation forcedrolloff spitch
  = inr (st1, l1) ->
  let result :=
    StartSound GSnd client rand_value ptr_of_point point_of_ptr fuel st type
               source pt channel sound_id volume attenuation forcedrolloff
               spitch in
  (has (l_chanflags l1) CHAN_EVICTED = true ->
   has (l_chanflags l1) CHAN_LOOP = false ->
   result = Returns None st1) /\
  (forall st2 l2,
      StartSound_select GSnd client rand_value point_of_ptr st1 l1
      = inr (st2, l2) ->
      (has (l_chanflags l1) CHAN_EVICTED = true ->
       fst (start_voice GSnd client st2 l2) = None) /\
      (fst (start_voice GSnd client st2 l2) = None ->
       (has (l_chanflags l1) CHAN_LOOP = false ->
        result = Returns None (snd (start_voice GSnd client st2 l2))) /\
       (has (l_chanflags l1) CHAN_LOOP = true ->
        exists a st' c c0,
          result = Returns (Some a) st' /\
          find_chan a (Channels st') = Some c /\
          has (ChanFlags c) CHAN_EVICTED = true /\ SysChannel c = 0 /\
          Addr c0 = a /\
          StartTime c
          = GSnd_MarkStartTime GSnd
              (GSndState (snd (start_voice GSnd client st2 l2))) c0))).
Proof.
  intros Hcheck result. subst result. unfold StartSound. rewrite Hcheck.
  split.
  - intros He Hl. unfold StartSound_select.
    now rewrite (blocked_without_loop _ He Hl).
  - intros st2 l2 Hsel. rewrite Hsel.
    destruct (StartSound_select_flags _ _ _ _ _ _ _ _ Hsel) as (Hf & _).
    rewrite <- Hf. split.
    + intros He. now rewrite start_voice_blocked.
    + intros Hv. split; intros Hl.
      * now apply StartSound_play_null.
      * now apply StartSound_play_parks.
Qed.

End BlockedStart.

Section BlockedExamples.
Import Rolloff Sound World.
Local Open Scope Z_scope.

(** Actor 1000 plays the singular sound 2 as a loop and starts it again:
    the second start is blocked and parked. *)
Lemma blocked_or_refused_start_witness :
  exists a st' c,
    start (loop_starts 1 silence) SOURCE_Actor 1000 CHAN_LOOP 2
    = Returns (Some a) st' /\
    find_chan a (Channels st') = Some c /\
    has (ChanFlags c) CHAN_EVICTED = true /\ SysChannel c = 0.
Proof.
  destruct (StartSound_check still no_rand 4 (loop_starts 1 silence)
              SOURCE_Actor 1000 None CHAN_LOOP 2 1 1 None 0)
    as [out|[st1 l1]] eqn:Hcheck; [vm_compute in Hcheck; discriminate|].
  destruct (StartSound_select granting still no_rand point_bits st1 l1)
    as [out|[st2 l2]] eqn:Hsel.
  { vm_compute in Hcheck. inversion Hcheck; subst. vm_compute in Hsel.
    discriminate. }
  destruct (blocked_or_refused_start granting still no_rand ptr_bits point_bits
              4 (loop_starts 1 silence) SOURCE_Actor 1000 None CHAN_LOOP 2
              1 1 None 0 st1 l1 Hcheck) as [_ H2].
  destruct (H2 st2 l2 Hsel) as [Hblocked Hrest].
  assert (Hev : has (l_chanflags l1) CHAN_EVICTED = true)
    by (vm_compute in Hcheck; inversion Hcheck; subst; vm_compute; reflexivity).
  assert (Hloop : has (l_chanflags l1) CHAN_LOOP = true)
    by (vm_compute in Hcheck; inversion Hcheck; subst; vm_compute; reflexivity).
  destruct (proj2 (Hrest (Hblocked Hev)) Hloop)
    as (a & st' & c & c0 & Hres & Hfind & He & Hs & _).
  exists a, st', c. repeat split; assumption.
Defined.

(** C5 as stated fails when a blocked looping start is abandoned on the
    way: actor 1000 holds all eight slots (one copy of the singular loop
    playing, seven parked), the ninth start is blocked, carries the Loop
    flag, and returns null. *)
Lemma blocked_loop_without_free_slot :
  exists st1 l1 st',
    StartSound_check still no_rand 4 (loop_starts 8 silence) SOURCE_Actor 1000
                     None CHAN_LOOP 2 1 1 None 0 = inr (st1, l1) /\
    has (l_chanflags l1) CHAN_EVICTED = true /\
    has (l_chanflags l1) CHAN_LOOP = true /\
    start (loop_starts 8 silence) SOURCE_Actor 1000 CHAN_LOOP 2
    = Returns None st'.
Proof.
  do 3 eexists. split; [vm_compute; reflexivity|].
  split; [vm_compute; reflexivity|].
  split; [vm_compute; reflexivity|].
  vm_compute. reflexivity.
Qed.

End BlockedExamples.

Section AutoSlotFacts.
Import Rolloff Sound.
Local Open Scope Z_scope.

Context {BS : Type}.

Lemma same_channels_refl (st : SoundEngine BS) : same_channels st st.
Proof. repeat split. Qed.

Lemma same_channels_trans (st1 st2 st3 : SoundEngine BS) :
  same_channels st1 st2 -> same_channels st2 st3 -> same_channels st1 st3.
Proof.
  intros (H1 & H2 & H3) (K1 & K2 & K3). unfold same_channels.
  rewrite K1, K2, K3. auto.
Qed.

Lemma well_formed_same (st st' : SoundEngine BS) :
  same_channels st st' -> well_formed st -> well_formed st'.
Proof.
  intros (H1 & H2 & H3). unfold well_formed. now rewrite H1, H2, H3.
Qed.

Lemma slot_used_same (st st' : SoundEngine BS) (type actor k : Z) :
  same_channels st st' -> slot_used st' type actor k = slot_used st type actor k.
Proof. intros (H1 & _). unfold slot_used, slots_of. now rewrite H1. Qed.

Lemma first_free_same (st st' : SoundEngine BS) (type actor : Z) :
  same_channels st st' ->
  first_free (slot_used st' type actor) = first_free (slot_used st type actor).
Proof.
  intros H. unfold first_free. cbn [find].
  now rewrite !(slot_used_same st st' type actor _ H).
Qed.

Lemma update_sfx_same (st : SoundEngine BS) (id : Z) (f : sfxinfo_t -> sfxinfo_t) :
  same_channels st (update_sfx st id f).
Proof. repeat split. Qed.

Lemma has_pow2 (seen k : Z) : 0 <= k -> has seen (Z.shiftl 1 k) = Z.testbit seen k.
Proof.
  intros Hk. unfold has. rewrite Z.shiftl_1_l, land_single_bit by assumption.
  destruct (Z.testbit seen k); [|reflexivity].
  apply negb_true_iff, Z.eqb_neq. pose proof (Z.pow_pos_nonneg 2 k). lia.
Qed.

Lemma testbit_lor_shift (seen e k : Z) :
  Z.testbit (Z.lor seen (Z.shiftl 1 e)) k = true ->
  Z.testbit seen k = true \/ k = e.
Proof.
  rewrite Z.lor_spec. intros H. apply orb_prop in H. destruct H as [H|H]; [now left|].
  right. destruct (Z.neg_nonneg_cases e) as [He|He].
  - rewrite Z.shiftl_1_l, Z.pow_neg_r, Z.bits_0 in H by assumption. discriminate.
  - rewrite Z.shiftl_1_l, Z.pow2_bits_eqb in H by assumption.
    symmetry. now apply Z.eqb_eq.
Qed.

Variable st : SoundEngine BS.
Variables type actor : Z.

Abbreviation mine := (emitted_by type actor).

Lemma slot_used_In (k : Z) :
  slot_used st type actor k = true <-> In k (slots_of st type actor).
Proof.
  unfold slot_used. rewrite existsb_exists. split.
  - intros (x & Hx & He). apply Z.eqb_eq in He. now subst.
  - intros H. exists k. split; [assumption | apply Z.eqb_refl].
Qed.

(** The scan finds the slot iff the emitter uses it and only adds slots in
    use to the mask. *)
Lemma IsChannelUsed_scan_spec (chans : list FSoundChan) :
  forall (channel seen : Z) (P : Z -> Prop),
    (forall k, Z.testbit seen k = true -> P k) ->
    (forall c, In c chans -> mine c = true -> P (EntChannel c)) ->
    fst (IsChannelUsed_scan chans type actor channel seen)
    = existsb (Z.eqb channel) (map EntChannel (filter mine chans)) /\
    (forall k, Z.testbit (snd (IsChannelUsed_scan chans type actor channel seen)) k
               = true -> P k).
Proof.
  induction chans as [|c next IH]; intros channel seen P Hseen Hc; cbn [IsChannelUsed_scan].
  - split; [reflexivity | exact Hseen].
  - cbn [filter]. unfold emitted_by at 2. fold (emitted_by type actor c).
    change ((SourceType c =? type) && (Source c =? actor)) with (mine c).
    destruct (mine c) eqn:Hm.
    + cbn [map existsb]. rewrite (Z.eqb_sym channel (EntChannel c)).
      destruct (EntChannel c =? channel) eqn:He; cbn [fst snd orb].
      * split; [reflexivity|]. intros k Hk.
        apply testbit_lor_shift in Hk. destruct Hk as [Hk| ->]; [auto|].
        apply Hc; [left; reflexivity | assumption].
      * apply IH.
        -- intros k Hk. apply testbit_lor_shift in Hk.
           destruct Hk as [Hk| ->]; [auto|].
           apply Hc; [left; reflexivity | assumption].
        -- intros c' Hin. apply Hc. now right.
    + apply IH; [assumption|]. intros c' Hin. apply Hc. now right.
Qed.

Lemma IsChannelUsed_spec (channel seen : Z) :
  0 <= channel -> seen_sound st type actor seen ->
  fst (IsChannelUsed st type actor channel seen)
  = slot_used st type actor channel /\
  seen_sound st type actor (snd (IsChannelUsed st type actor channel seen)).
Proof.
  intros Hch Hseen. unfold IsChannelUsed. rewrite has_pow2 by assumption.
  destruct (Z.testbit seen channel) eqn:Hbit; cbn [fst snd].
  - split; [|assumption]. symmetry. apply slot_used_In. now apply Hseen.
  - apply (IsChannelUsed_scan_spec (Channels st) channel seen
             (fun k => In k (slots_of st type actor))).
    + exact Hseen.
    + intros c Hin Hm. unfold slots_of. apply in_map, filter_In. now split.
Qed.

(** The downward search returns the highest free slot at or below [n], or 0. *)
Lemma search_down_spec (n : nat) :
  forall seen,
    seen_sound st type actor seen ->
    fst (search_down n st type actor seen)
    = match find (fun k => negb (slot_used st type actor k))
                 (map Z.of_nat (rev (seq 1 n))) with
      | Some k => k
      | None => 0
      end /\
    seen_sound st type actor (snd (search_down n st type actor seen)).
Proof.
  induction n as [|n IH]; intros seen Hseen.
  - split; [reflexivity | assumption].
  - cbn [search_down].
    destruct (IsChannelUsed_spec (Z.of_nat (S n)) seen ltac:(lia) Hseen) as [Hu Hs].
    destruct (IsChannelUsed st type actor (Z.of_nat (S n)) seen) as [used seen'].
    cbn [fst snd] in *. subst used.
    rewrite seq_S, rev_app_distr. cbn [rev app map find Nat.add].
    destruct (slot_used st type actor (Z.of_nat (S n))); cbn [negb fst snd].
    + now apply IH.
    + split; [reflexivity | assumption].
Qed.

Lemma seen_sound_0 : seen_sound st type actor 0.
Proof. intros k Hk. rewrite Z.bits_0 in Hk. discriminate. Qed.

(** The slot search of [StartSound]: 0 first, then from 7 down to 1. *)
Lemma select_channel_auto :
  actor <> 0 ->
  match select_channel st type actor CHAN_AUTO with
  | Some (k, seen) =>
      first_free (slot_used st type actor) = Some k /\
      seen_sound st type actor seen
  | None => first_free (slot_used st type actor) = None
  end.
Proof.
  intros Ha. unfold select_channel, first_free.
  destruct (Z.eqb_spec actor 0) as [|_]; [contradiction|]. cbn [negb andb Z.eqb CHAN_AUTO].
  destruct (IsChannelUsed_spec 0 0 ltac:(lia) seen_sound_0) as [Hu Hs].
  destruct (IsChannelUsed st type actor 0 0) as [used seen].
  cbn [fst snd] in *. subst used.
  destruct (slot_used st type actor 0); cbn [negb]; [|split; [reflexivity|assumption]].
  destruct (search_down_spec 7 seen Hs) as [Hk Hs'].
  destruct (search_down 7 st type actor seen) as [k seen'].
  cbn [fst snd] in *. subst k.
  change (map Z.of_nat (rev (seq 1 7))) with [7; 6; 5; 4; 3; 2; 1].
  destruct (find _ [7; 6; 5; 4; 3; 2; 1]) as [k|] eqn:Hf; [|reflexivity].
  apply find_some in Hf. destruct Hf as [Hin _].
  destruct (Z.eqb_spec k 0) as [->|_]; [|split; [reflexivity | assumption]].
  exfalso. simpl in Hin. intuition discriminate.
Qed.

Lemma first_free_is_free (k : Z) :
  first_free (slot_used st type actor) = Some k ->
  slot_used st type actor k = false /\ In k auto_order.
Proof.
  unfold first_free.
  destruct (slot_used st type actor 0) eqn:H0; cbn [negb].
  - intros Hf. apply find_some in Hf. destruct Hf as [Hin Hfree].
    split; [now apply negb_true_iff | now right].
  - intros [= <-]. split; [assumption | now left].
Qed.

End AutoSlotFacts.

Section StartFrames.
Import Rolloff Sound.
Local Open Scope Z_scope.

Context {BS : Type}.
Variable GSnd : SoundRenderer BS.
Variable client : SoundClient.
Variable rand_value : nat -> Z.
Variable ptr_of_point : FVector3 -> Z.
Variable point_of_ptr : Z -> FVector3.

Abbreviation Engine := (SoundEngine BS).

Ltac same_step :=
  repeat match goal with
         | |- same_channels ?s ?s => apply same_channels_refl
         | |- same_channels _ (if ?b then _ else _) => destruct b
         | |- same_channels ?s (update_sfx ?t _ _) =>
             apply (same_channels_trans s t); [|apply update_sfx_same]
         | |- same_channels ?s (set_GSndState ?t _) =>
             apply (same_channels_trans s t); [|repeat split]
         | |- same_channels ?s (set_rand_calls ?t _) =>
             apply (same_channels_trans s t); [|repeat split]
         end.

Lemma PickReplacement_same (fuel : nat) :
  forall (st st' : Engine) (id id' : Z),
    PickReplacement rand_value fuel st id = Some (id', st') ->
    same_channels st st'.
Proof.
  induction fuel as [|fuel IH]; intros st st' id id'; cbn [PickReplacement];
    destruct (bRandomHeader (sfx_at st id)); try discriminate;
    try (intros [= _ <-]; apply same_channels_refl).
  unfold rand. intros H. apply IH in H.
  apply (same_channels_trans _ _ _ ltac:(repeat split) H).
Qed.

Lemma resolve_links_same (fuel : nat) :
  forall (st st' : Engine) id att nl lr ro id' att' nl' lr' ro',
    resolve_links rand_value fuel st id att nl lr ro
    = Some (st', id', att', nl', lr', ro') ->
    same_channels st st'.
Proof.
  induction fuel as [|fuel IH]; intros st st' id att nl lr ro id' att' nl' lr' ro';
    cbn [resolve_links]; destruct (link (sfx_at st id) =? NO_LINK);
    try discriminate; try (intros [= <- _ _ _ _ _]; apply same_channels_refl).
  destruct (bRandomHeader (sfx_at st id)).
  - destruct (PickReplacement rand_value fuel st id) as [[id1 st1]|] eqn:Hp;
      [|discriminate].
    apply PickReplacement_same in Hp.
    destruct (nl <? 0); intros H; apply IH in H;
      apply (same_channels_trans _ _ _ Hp H).
  - destruct (nl <? 0); intros H; now apply IH in H.
Qed.

(** The checks of [StartSound] leave the channel lists alone. *)
Lemma StartSound_check_frame (fuel : nat) (st st1 : Engine) (type source : Z)
    (pt : option FVector3) (channel sound_id : Z) (volume attenuation : Q)
    (forcedrolloff : option (FRolloffInfo Q)) (spitch : Q) (l1 : Locals) :
  StartSound_check client rand_value fuel st type source pt channel sound_id
                   volume attenuation forcedrolloff spitch = inr (st1, l1) ->
  same_channels st st1 /\ l_type l1 = effective_type type pt /\
  l_source l1 = source /\ l_channel l1 = Z.land channel 7.
Proof.
  unfold StartSound_check, effective_type.
  destruct (_ || _); [discriminate|].
  destruct (client_CalcPosVel client _ source pt _ _) as [pos vel].
  destruct (negb _); [discriminate|].
  destruct (Qle_bool _ 0); [discriminate|].
  destruct (resolve_links rand_value fuel st sound_id attenuation _ _ _)
    as [[[[[[st' id'] att'] nl'] lr'] ro']|] eqn:Hr; [|discriminate].
  apply resolve_links_same in Hr.
  intros [= <- <-]. cbn [l_type l_source l_channel]. auto.
Qed.

Lemma LoadSound_round_same (st : Engine) (sfx : Z) :
  same_channels st (fst (LoadSound_round GSnd client st sfx)).
Proof.
  unfold LoadSound_round.
  repeat match goal with
         | |- context [let '(_, _) := ?x in _] => destruct x
         | |- context [match ?x with Some _ => _ | None => _ end] => destruct x
         | |- context [if ?b then _ else _] => destruct b
         end; cbn [fst]; same_step.
Qed.

Lemma LoadSound_same (st : Engine) (sfx : Z) :
  same_channels st (fst (LoadSound GSnd client st sfx)).
Proof.
  unfold LoadSound.
  destruct (GSnd_IsNull _ _); [apply same_channels_refl|].
  destruct (isValid _); [apply same_channels_refl|].
  pose proof (LoadSound_round_same st sfx) as H1.
  destruct (LoadSound_round GSnd client st sfx) as [st1 [i|]]; cbn [fst] in *;
    [exact H1|].
  destruct (isValid _); [exact H1|].
  pose proof (LoadSound_round_same st1 sfx) as H2.
  destruct (LoadSound_round GSnd client st1 sfx) as [st2 [i|]]; cbn [fst] in *;
    apply (same_channels_trans _ _ _ H1 H2).
Qed.

Lemma LoadSound3D_same (st : Engine) (sfx : Z) :
  same_channels st (LoadSound3D GSnd client st sfx).
Proof.
  unfold LoadSound3D.
  destruct (GSnd_IsNull _ _); [apply same_channels_refl|].
  destruct (isValid _); [apply same_channels_refl|].
  destruct (GSnd_Decode3D _ _ _ _). same_step.
Qed.

Lemma start_voice_same (st : Engine) (l : Locals) :
  same_channels st (snd (start_voice GSnd client st l)).
Proof.
  unfold start_voice.
  destruct (has _ _); [apply same_channels_refl|].
  destruct (negb _).
  - pose proof (LoadSound3D_same st (l_sfx l)) as H.
    destruct (GSnd_StartSound3D _ _ _ _ _ _ _ _ _ _ _ _ _). cbn [snd].
    apply (same_channels_trans _ _ _ H). repeat split.
  - destruct (GSnd_StartSound _ _ _ _ _ _). cbn [snd]. repeat split.
Qed.

(** With the automatic slot, the selection stage picks the first free slot
    and stops nothing. *)
Lemma StartSound_select_auto (st1 st2 : Engine) (l1 l2 : Locals) :
  l_source l1 <> 0 -> l_channel l1 = CHAN_AUTO ->
  StartSound_select GSnd client rand_value point_of_ptr st1 l1 = inr (st2, l2) ->
  same_channels st1 st2 /\
  first_free (slot_used st1 (l_type l1) (l_source l1)) = Some (l_channel l2).
Proof.
  intros Hsrc Hauto. unfold StartSound_select.
  destruct (_ =? CHAN_EVICTED); [discriminate|].
  pose proof (LoadSound_same st1 (l_sfx l1)) as Hload.
  destruct (LoadSound GSnd client st1 (l_sfx l1)) as [st sfx]. cbn [fst] in Hload.
  destruct (lumpnum _ =? _); [discriminate|].
  rewrite Hauto.
  pose proof (select_channel_auto st (l_type l1) (l_source l1) Hsrc) as Hsel.
  destruct (select_channel st (l_type l1) (l_source l1) CHAN_AUTO)
    as [[k seen]|]; [|discriminate].
  destruct Hsel as [Hfree Hseen].
  destruct (first_free_is_free _ _ _ _ Hfree) as [Hk Hin].
  assert (Hk0 : 0 <= k) by (unfold auto_order in Hin; simpl in Hin; lia).
  destruct (IsChannelUsed_spec st (l_type l1) (l_source l1) k seen Hk0 Hseen)
    as [Hu _].
  assert (Hstop :
    (if negb (l_type l1 =? SOURCE_None)
     then if (l_source l1 =? 0) && negb (k =? CHAN_AUTO) then (true, seen)
          else if negb (l_source l1 =? 0)
               then IsChannelUsed st (l_type l1) (l_source l1) k seen
               else (false, seen)
     else (false, seen))
    = (false, snd (if negb (l_type l1 =? SOURCE_None)
                   then IsChannelUsed st (l_type l1) (l_source l1) k seen
                   else (false, seen)))).
  { destruct (Z.eqb_spec (l_source l1) 0) as [|_]; [contradiction|].
    cbn [andb negb].
    destruct (negb (l_type l1 =? SOURCE_None)); [|reflexivity].
    destruct (IsChannelUsed st (l_type l1) (l_source l1) k seen) as [u s].
    cbn [fst snd] in *. now rewrite Hu, Hk. }
  rewrite Hstop. cbv beta iota.
  destruct (_ && _ && SoundPaused st); [discriminate|].
  rewrite (first_free_same _ _ _ _ Hload) in Hfree.
  destruct (negb (l_pitchmask l1 =? 0)).
  - unfold rand. intros [= <- <-]. cbn [l_channel].
    split; [|exact Hfree].
    apply (same_channels_trans _ _ _ Hload). repeat split.
  - intros [= <- <-]. cbn [l_channel]. split; assumption.
Qed.

(** An early return is a null pointer. *)
Lemma StartSound_check_early (fuel : nat) (st : Engine) (type source : Z)
    (pt : option FVector3) (channel sound_id : Z) (volume attenuation : Q)
    (forcedrolloff : option (FRolloffInfo Q)) (spitch : Q) (out : Outcome)
    (a : nat) (st' : Engine) :
  StartSound_check client rand_value fuel st type source pt channel sound_id
                   volume attenuation forcedrolloff spitch = inl out ->
  out <> Returns (Some a) st'.
Proof.
  unfold StartSound_check.
  destruct (_ || _); [intros [= <-]; discriminate|].
  destruct (client_CalcPosVel client _ source pt _ _) as [pos vel].
  destruct (negb _); [intros [= <-]; discriminate|].
  destruct (Qle_bool _ 0); [intros [= <-]; discriminate|].
  destruct (resolve_links rand_value fuel st sound_id attenuation _ _ _)
    as [[[[[[st0 id'] att'] nl'] lr'] ro']|]; [discriminate|].
  intros [= <-]; discriminate.
Qed.

Lemma StartSound_select_early (st : Engine) (l : Locals) (out : Outcome)
    (a : nat) (st' : Engine) :
  StartSound_select GSnd client rand_value point_of_ptr st l = inl out ->
  out <> Returns (Some a) st'.
Proof.
  unfold StartSound_select.
  destruct (_ =? CHAN_EVICTED); [intros [= <-]; discriminate|].
  destruct (LoadSound GSnd client st (l_sfx l)) as [st0 sfx].
  destruct (lumpnum _ =? _); [intros [= <-]; discriminate|].
  destruct (select_channel st0 _ _ _) as [[k seen]|];
    [|intros [= <-]; discriminate].
  match goal with
  | |- context [let '(_, _) := ?x in _] => destruct x as [stop seen']
  end.
  destruct (_ && _ && SoundPaused _); [intros [= <-]; discriminate|].
  destruct (negb (l_pitchmask l =? 0)); unfold rand; discriminate.
Qed.

End StartFrames.

Section StartStep.
Import Rolloff Sound.
Local Open Scope Z_scope.

Context {BS : Type}.
Variable GSnd : SoundRenderer BS.
Variable client : SoundClient.
Variable rand_value : nat -> Z.
Variable ptr_of_point : FVector3 -> Z.
Variable point_of_ptr : Z -> FVector3.

Abbreviation Engine := (SoundEngine BS).
Abbreviation record := (record_start ptr_of_point point_of_ptr).

Lemma well_formed_absent (st : Engine) (c : FSoundChan) (old : list FSoundChan) :
  Channels st = c :: old -> well_formed st ->
  ~ In (Addr c) (map Addr old) /\ ~ In (Addr c) (map Addr (FreeChannels st)).
Proof.
  intros Hch [Hnd _]. rewrite Hch in Hnd. cbn [app map] in Hnd.
  apply NoDup_cons_iff in Hnd. destruct Hnd as [Hnot _].
  rewrite map_app, in_app_iff in Hnot. tauto.
Qed.

Lemma GetChannel_headed (st : Engine) (syschan : Z) :
  well_formed st ->
  exists c,
    headed (snd (GetChannel st syschan)) (Channels st)
           (fst (GetChannel st syschan)) c /\
    SysChannel c = syschan.
Proof.
  intros [Hnd Hlt]. unfold GetChannel.
  destruct (FreeChannels st) as [|f free] eqn:Hfree.
  - exists (set_SysChannel (zeroed (allocated st)) syschan).
    cbn [fst snd]. split; [|reflexivity].
    split; [reflexivity|]. split; [reflexivity|].
    unfold well_formed.
    cbn [Channels FreeChannels allocated set_Channels set_allocated].
    rewrite Hfree in *. cbn [app map]. split.
    + cbn [Addr set_SysChannel zeroed]. constructor; [|exact Hnd].
      intros Hin. apply in_map_iff in Hin. destruct Hin as (x & Hx & Hin).
      rewrite Forall_forall in Hlt. specialize (Hlt x Hin). lia.
    + constructor; [cbn; lia|].
      eapply Forall_impl; [|exact Hlt]. cbn. intros; lia.
  - assert (Hsplit : NoDup (Addr f :: map Addr (Channels st ++ free))).
    { eapply Permutation_NoDup; [|exact Hnd].
      rewrite !map_app. cbn [map]. symmetry. apply Permutation_middle. }
    apply NoDup_cons_iff in Hsplit. destruct Hsplit as [Hnot Hnd'].
    rewrite map_app, in_app_iff in Hnot.
    assert (Hc : remove_chan (Addr f) (Channels st) = Channels st)
      by (apply remove_chan_absent; tauto).
    assert (Hf : remove_chan (Addr f) (f :: free) = free).
    { unfold remove_chan. cbn [filter]. unfold at_addr at 1.
      rewrite Nat.eqb_refl. cbn [negb].
      apply remove_chan_absent. tauto. }
    exists (set_SysChannel f syschan). cbn [fst snd]. split; [|reflexivity].
    unfold headed, UnlinkChannel, well_formed.
    cbn [Channels FreeChannels allocated set_Channels set_FreeChannels].
    rewrite Hfree, Hc, Hf. split; [reflexivity|]. split; [reflexivity|].
    cbn [app map]. split.
    + constructor; [|exact Hnd']. cbn [Addr set_SysChannel].
      rewrite map_app, in_app_iff. tauto.
    + apply Forall_app in Hlt. destruct Hlt as [Hl1 Hl2].
      inversion Hl2 as [|? ? Hf1 Hf2]; subst.
      constructor; [exact Hf1|]. apply Forall_app. now split.
Qed.

Lemma assign_headed (st : Engine) (old : list FSoundChan) (a : nat)
    (c : FSoundChan) (f : FSoundChan -> FSoundChan) :
  (forall x, Addr (f x) = Addr x) ->
  headed st old a c -> headed (assign st a f) old a (f c).
Proof.
  intros Hf (Hch & Ha & Hwf).
  destruct (well_formed_absent st c old Hch Hwf) as [Hn1 Hn2].
  rewrite Ha in *.
  assert (Hc : update_chan a f (Channels st) = f c :: old).
  { rewrite Hch. unfold update_chan. cbn [map]. unfold at_addr at 1.
    rewrite Ha, Nat.eqb_refl. f_equal. now apply update_chan_absent. }
  assert (Hfree : update_chan a f (FreeChannels st) = FreeChannels st)
    by (now apply update_chan_absent).
  unfold headed, assign, well_formed.
  cbn [Channels FreeChannels allocated set_Channels set_FreeChannels].
  rewrite Hc, Hfree. split; [reflexivity|]. split; [now rewrite Hf|].
  destruct Hwf as [Hnd Hlt]. rewrite Hch in *. cbn [app map] in *.
  rewrite Hf. split; [exact Hnd|].
  inversion Hlt; subst. constructor; [now rewrite Hf | assumption].
Qed.

Lemma headed_same (st st' : Engine) (old : list FSoundChan) (a : nat)
    (c : FSoundChan) :
  same_channels st st' -> headed st old a c -> headed st' old a c.
Proof.
  intros Hs (Hch & Ha & Hwf). destruct Hs as (H1 & H2 & H3).
  split; [now rewrite H1|]. split; [assumption|].
  apply (well_formed_same st st'); [repeat split; assumption | assumption].
Qed.

Lemma SetPitch_headed (st : Engine) (old : list FSoundChan) (a : nat)
    (c : FSoundChan) (q : Q) :
  headed st old a c ->
  exists p, headed (SetPitch GSnd st a q) old a (set_Pitch c p).
Proof.
  intros Hh. pose proof Hh as (Hch & Ha & Hwf). subst a.
  unfold SetPitch, deref. rewrite Hch, find_chan_here.
  exists (to_int16 (Z.max 1 (Qtruncate (inject_Z DEFAULT_PITCH * q)))).
  apply (assign_headed _ old (Addr c) c
           (fun c => set_Pitch c (to_int16 (Z.max 1
              (Qtruncate (inject_Z DEFAULT_PITCH * q)))))); [reflexivity|].
  apply (headed_same st); [repeat split | exact Hh].
Qed.

(** A start that returns a channel has put it at the head of the active
    list, in front of the channels that were there. *)
Lemma StartSound_play_headed (st st' : Engine) (l : Locals) (a : nat) :
  well_formed st ->
  StartSound_play GSnd client ptr_of_point point_of_ptr st l
  = Returns (Some a) st' ->
  exists c,
    headed st' (Channels st) a c /\
    EntChannel c = to_uint8 (l_channel l) /\
    SourceType c = to_uint8 (l_type l) /\
    (l_type l <> SOURCE_Unattached -> l_type l <> SOURCE_None ->
     Source c = l_source l).
Proof.
  intros Hwf. unfold StartSound_play.
  pose proof (start_voice_same GSnd client st l) as Hsame.
  destruct (start_voice GSnd client st l) as [voice st3]. cbn [snd] in Hsame.
  assert (Hwf3 : well_formed st3) by (now apply (well_formed_same st)).
  destruct Hsame as (Hch3 & _). rewrite <- Hch3.
  assert (Hfinish :
    forall (st6 : Engine) (c : FSoundChan) (flags : Z),
      headed st6 (Channels st3) a c ->
      Returns (Some a)
        (if negb (Qle_bool (l_spitch l) 0)
         then SetPitch GSnd (assign st6 a (record l flags)) a (l_spitch l)
         else assign st6 a (record l flags))
      = Returns (Some a) st' ->
      exists c',
        headed st' (Channels st3) a c' /\
        EntChannel c' = to_uint8 (l_channel l) /\
        SourceType c' = to_uint8 (l_type l) /\
        (l_type l <> SOURCE_Unattached -> l_type l <> SOURCE_None ->
         Source c' = l_source l)).
  { intros st6 c flags Hh Heq.
    pose proof (assign_headed st6 _ a c (record l flags)
                  (fun x => proj1 (record_start_fields _ _ l flags x)) Hh) as Hh'.
    destruct (record_start_fields ptr_of_point point_of_ptr l flags c)
      as (_ & _ & _ & _ & He & Ht & _).
    pose proof (record_start_Source ptr_of_point point_of_ptr l flags c) as Hs.
    destruct (negb (Qle_bool (l_spitch l) 0)).
    - destruct (SetPitch_headed _ _ _ _ (l_spitch l) Hh') as [p Hp].
      injection Heq as <-. exists (set_Pitch (record l flags c) p).
      split; [exact Hp|]. cbn [EntChannel SourceType Source set_Pitch].
      auto.
    - injection Heq as <-. exists (record l flags c). auto. }
  destruct voice as [syschan|].
  - destruct (GetChannel_headed st3 syschan Hwf3) as (c0 & Hh & _).
    destruct (GetChannel st3 syschan) as [a0 st4]. cbn [fst snd] in Hh.
    intros Heq. assert (a0 = a) by (destruct (negb _); congruence). subst a0.
    eapply Hfinish; [exact Hh | exact Heq].
  - destruct (has (l_chanflags l) CHAN_LOOP); [|discriminate].
    destruct (GetChannel_headed st3 0 Hwf3) as (c0 & Hh & _).
    destruct (GetChannel st3 0) as [a0 st4]. cbn [fst snd] in Hh.
    pose proof Hh as (Hch4 & Ha4 & _).
    assert (Hfind : find_chan a0 (c0 :: Channels st3) = Some c0)
      by (rewrite <- Ha4; apply find_chan_here).
    unfold deref. rewrite Hch4, Hfind.
    intros Heq. assert (Haa : a0 = a) by (destruct (negb _); congruence).
    rewrite Haa in *.
    eapply Hfinish; [|exact Heq].
    apply assign_headed; [reflexivity | exact Hh].
Qed.

End StartStep.

Section AutoOrder.
Import Rolloff Sound.
Local Open Scope Z_scope.

Context {BS : Type}.
Variable GSnd : SoundRenderer BS.
Variable client : SoundClient.
Variable rand_value : nat -> Z.
Variable ptr_of_point : FVector3 -> Z.
Variable point_of_ptr : Z -> FVector3.

Abbreviation Engine := (SoundEngine BS).
Abbreviation record := (record_start ptr_of_point point_of_ptr).
Abbreviation Start := (StartSound GSnd client rand_value ptr_of_point point_of_ptr).

(** The channel a start returns can be found in the active list, on the
    slot the selection stage chose. *)
Lemma StartSound_play_found (st st' : Engine) (l : Locals) (a : nat) :
  StartSound_play GSnd client ptr_of_point point_of_ptr st l
  = Returns (Some a) st' ->
  exists c, find_chan a (Channels st') = Some c /\
            EntChannel c = to_uint8 (l_channel l).
Proof.
  unfold StartSound_play.
  destruct (start_voice GSnd client st l) as [voice st3].
  assert (Hfinish :
    forall (st6 : Engine) (c : FSoundChan) (flags : Z),
      find_chan a (Channels st6) = Some c ->
      Returns (Some a)
        (if negb (Qle_bool (l_spitch l) 0)
         then SetPitch GSnd (assign st6 a (record l flags)) a (l_spitch l)
         else assign st6 a (record l flags))
      = Returns (Some a) st' ->
      exists c', find_chan a (Channels st') = Some c' /\
                 EntChannel c' = to_uint8 (l_channel l)).
  { intros st6 c flags Hc Heq.
    assert (Hr : find_chan a (Channels (assign st6 a (record l flags)))
                 = Some (record l flags c)).
    { rewrite find_chan_assign by (intros; apply record_start_fields).
      now rewrite Hc. }
    destruct (record_start_fields ptr_of_point point_of_ptr l flags c)
      as (_ & _ & _ & _ & He & _).
    destruct (negb (Qle_bool (l_spitch l) 0)); injection Heq as <-.
    - destruct (find_chan_SetPitch GSnd _ a (l_spitch l) _ Hr) as [p Hp].
      exists (set_Pitch (record l flags c) p). split; [exact Hp | exact He].
    - exists (record l flags c). split; [exact Hr | exact He]. }
  destruct voice as [syschan|].
  - destruct (find_chan_head st3 syschan) as (c0 & Hc0 & _).
    destruct (GetChannel st3 syschan) as [a0 st4]. cbn [fst snd] in Hc0.
    intros Heq. assert (Haa : a0 = a) by (destruct (negb _); congruence).
    rewrite Haa in *. eapply Hfinish; [exact Hc0 | exact Heq].
  - destruct (has (l_chanflags l) CHAN_LOOP); [|discriminate].
    destruct (find_chan_head st3 0) as (c0 & Hc0 & _).
    destruct (GetChannel st3 0) as [a0 st4]. cbn [fst snd] in Hc0.
    unfold deref. rewrite Hc0.
    intros Heq. assert (Haa : a0 = a) by (destruct (negb _); congruence).
    rewrite Haa in *. eapply Hfinish; [|exact Heq].
    rewrite find_chan_assign by reflexivity. rewrite Hc0. reflexivity.
Qed.

Lemma to_uint8_slot (k : Z) : In k auto_order -> to_uint8 k = k.
Proof.
  unfold auto_order. simpl.
  intros [<-|[<-|[<-|[<-|[<-|[<-|[<-|[<-|[]]]]]]]]]; reflexivity.
Qed.

(** One start on the automatic slot. *)
Lemma StartSound_auto (fuel : nat) (st : Engine) (type source : Z)
    (pt : option FVector3) (channel sound_id : Z) (volume attenuation : Q)
    (forcedrolloff : option (FRolloffInfo Q)) (spitch : Q) (a : nat)
    (st' : Engine) :
  source <> 0 -> Z.land channel 7 = CHAN_AUTO ->
  Start fuel st type source pt channel sound_id volume attenuation
        forcedrolloff spitch = Returns (Some a) st' ->
  exists c,
    find_chan a (Channels st') = Some c /\
    first_free (slot_used st (effective_type type pt) source)
    = Some (EntChannel c) /\
    (well_formed st ->
     headed st' (Channels st) a c /\
     SourceType c = to_uint8 (effective_type type pt) /\
     (effective_type type pt <> SOURCE_Unattached ->
      effective_type type pt <> SOURCE_None -> Source c = source)).
Proof.
  intros Hsrc Hauto. unfold StartSound.
  destruct (StartSound_check client rand_value fuel st type source pt channel
              sound_id volume attenuation forcedrolloff spitch)
    as [out|[st1 l1]] eqn:Hcheck.
  { intros H. exfalso.
    eapply StartSound_check_early; [exact Hcheck | exact H]. }
  destruct (StartSound_check_frame _ _ _ _ _ _ _ _ _ _ _ _ _ _ _ Hcheck)
    as (Hsame1 & Hty & Hso & Hchan).
  destruct (StartSound_select GSnd client rand_value point_of_ptr st1 l1)
    as [out|[st2 l2]] eqn:Hsel.
  { intros H. exfalso.
    eapply StartSound_select_early; [exact Hsel | exact H]. }
  assert (Hsrc1 : l_source l1 <> 0) by (now rewrite Hso).
  assert (Hauto1 : l_channel l1 = CHAN_AUTO) by (now rewrite Hchan).
  destruct (StartSound_select_auto _ _ _ _ _ _ _ _ Hsrc1 Hauto1 Hsel)
    as (Hsame2 & Hfree).
  destruct (StartSound_select_flags _ _ _ _ _ _ _ _ Hsel)
    as (_ & Hty2 & Hso2 & _).
  rewrite (first_free_same _ _ _ _ Hsame1), Hty, Hso in Hfree.
  pose proof (first_free_is_free _ _ _ _ Hfree) as [_ Hin].
  intros Hplay.
  destruct (StartSound_play_found _ _ _ _ Hplay) as (c & Hc & He).
  rewrite (to_uint8_slot _ Hin) in He.
  exists c. split; [exact Hc|]. split; [now rewrite He|].
  intros Hwf.
  assert (Hwf2 : well_formed st2).
  { apply (well_formed_same st1); [assumption|].
    now apply (well_formed_same st). }
  destruct (StartSound_play_headed _ _ _ _ _ _ _ _ Hwf2 Hplay)
    as (c' & Hh & _ & Ht' & Hs').
  pose proof Hh as (Hch' & Ha' & _).
  assert (c' = c).
  { rewrite Hch', <- Ha', find_chan_here in Hc. congruence. }
  subst c'. rewrite Hty2, Hty in Ht', Hs'. rewrite Hso2, Hso in Hs'.
  destruct Hsame1 as (E1 & _), Hsame2 as (E2 & _).
  rewrite E2, E1 in Hh. auto.
Qed.

Lemma first_free_after (n : nat) :
  first_free (fun k => existsb (Z.eqb k) (rev (firstn n auto_order)))
  = nth_error auto_order n.
Proof.
  do 8 (destruct n as [|n]; [reflexivity|]). destruct n; reflexivity.
Qed.

Lemma firstn_snoc {A : Type} (l : list A) (n : nat) (x : A) :
  nth_error l n = Some x -> firstn (S n) l = firstn n l ++ [x].
Proof.
  revert n. induction l as [|y l IH]; intros [|n] H; try discriminate.
  - injection H as ->. reflexivity.
  - cbn [firstn app]. f_equal. now apply IH.
Qed.

Abbreviation Starts :=
  (auto_starts GSnd client rand_value ptr_of_point point_of_ptr).

(** Successive starts by one actor, as long as each returns a channel, walk
    through [auto_order]. *)
Lemma auto_starts_walk (fuel : nat) (actor : Z) (reqs : list AutoStart) :
  actor <> 0 ->
  forall (st : Engine) (n : nat),
    well_formed st ->
    slots_of st SOURCE_Actor actor = rev (firstn n auto_order) ->
    Forall (fun r => Z.land (a_flags r) 7 = CHAN_AUTO) reqs ->
    forall i,
      (forall j, (j <= i)%nat ->
                 exists k, nth_error (Starts fuel st actor reqs) j
                           = Some (Some k)) ->
      nth_error (Starts fuel st actor reqs) i
      = option_map Some (nth_error auto_order (n + i)).
Proof.
  intros Hactor.
  induction reqs as [|r rest IH]; intros st n Hwf Hslots Hreqs i Hall.
  - destruct (Hall 0%nat ltac:(lia)) as [k Hk]. discriminate.
  - inversion Hreqs as [|? ? Hr Hrest]; subst.
    cbn [auto_starts] in *.
    destruct (Start fuel st SOURCE_Actor actor None (a_flags r) (a_sound_id r)
                    (a_volume r) (a_attenuation r) (a_forcedrolloff r)
                    (a_spitch r)) as [[a|] st'|] eqn:Hstart.
    + destruct (StartSound_auto _ _ _ _ _ _ _ _ _ _ _ _ _ Hactor Hr Hstart)
        as (c & Hc & Hfree & Hmore).
      destruct (Hmore Hwf) as ((Hch & Ha & Hwf') & Hty & Hsrc).
      change (effective_type SOURCE_Actor None) with SOURCE_Actor in *.
      assert (Hnth : nth_error auto_order n = Some (EntChannel c)).
      { rewrite <- first_free_after, <- Hslots. exact Hfree. }
      rewrite Hc in *. cbn [option_map] in *.
      destruct i as [|i].
      * rewrite Nat.add_0_r, Hnth. reflexivity.
      * cbn [nth_error]. rewrite Nat.add_succ_r.
        apply (IH st' (S n)); try assumption.
        -- unfold slots_of. rewrite Hch. cbn [filter].
           unfold emitted_by at 1. rewrite Hty, Hsrc by discriminate.
           change (to_uint8 SOURCE_Actor =? SOURCE_Actor) with true.
           rewrite Z.eqb_refl. cbn [andb map].
           rewrite (firstn_snoc _ _ _ Hnth), rev_app_distr. cbn [rev app].
           f_equal. exact Hslots.
        -- intros j Hj. destruct (Hall (S j) ltac:(lia)) as [k Hk].
           exists k. exact Hk.
    + destruct (Hall 0%nat ltac:(lia)) as [k Hk]. discriminate.
    + destruct (Hall 0%nat ltac:(lia)) as [k Hk]. discriminate.
Qed.


End AutoOrder.

Section AutoOrderExamples.
Import Rolloff Sound World.
Local Open Scope Z_scope.



End AutoOrderExamples.

(** * Serializer: default elision and read-back *)

Section SerializerFacts.
Import Serializer.
Local Open Scope Z_scope.

Lemma wrap_signed_8 (z : Z) : -128 <= z <= 127 -> wrap_signed 8 z = z.
Proof.
  intros H. unfold wrap_signed.
  change (2 ^ (8 - 1)) with 128. change (2 ^ 8) with 256.
  rewrite Z.mod_small; lia.
Qed.

Lemma wrap_signed_16 (z : Z) : -32768 <= z <= 32767 -> wrap_signed 16 z = z.
Proof.
  intros H. unfold wrap_signed.
  change (2 ^ (16 - 1)) with 32768. change (2 ^ 16) with 65536.
  rewrite Z.mod_small; lia.
Qed.

Lemma wrap_unsigned_8 (z : Z) : 0 <= z <= 255 -> wrap_unsigned 8 z = z.
Proof.
  intros H. unfold wrap_unsigned. change (2 ^ 8) with 256.
  apply Z.mod_small. lia.
Qed.

Lemma wrap_unsigned_16 (z : Z) : 0 <= z <= 65535 -> wrap_unsigned 16 z = z.
Proof.
  intros H. unfold wrap_unsigned. change (2 ^ 16) with 65536.
  apply Z.mod_small. lia.
Qed.

Lemma OpenWriter_root : OpenWriter = Some (root_writer []).
Proof. reflexivity. Qed.

Lemma GetOutput_root (ms : list (string * JValue)) :
  GetOutput (root_writer ms) = Some (JObject ms).
Proof. reflexivity. Qed.

(** Writing an integer inside the root object. *)
Lemma Serialize_integer_writes (is_type : JValue -> bool)
    (ms : list (string * JValue)) (key : string) (z d : Z) :
  Serialize_integer is_type (root_writer ms) (Some key) z (Some d)
  = Some (root_writer (ms ++ (if z =? d then [] else [(key, JInt z)])), z).
Proof.
  unfold Serialize_integer, root_writer. cbn.
  destruct (z =? d); cbn.
  - now rewrite app_nil_r.
  - reflexivity.
Qed.

Lemma Serialize_bool_writes (ms : list (string * JValue)) (key : string)
    (b d : bool) :
  Serialize_bool (root_writer ms) (Some key) b (Some d)
  = Some (root_writer (ms ++ (if Bool.eqb b d then [] else [(key, JBool b)])),
          b).
Proof.
  unfold Serialize_bool, root_writer. cbn.
  destruct (Bool.eqb b d); cbn.
  - now rewrite app_nil_r.
  - reflexivity.
Qed.

Lemma Serialize_kind_writes (k : IntKind) (ms : list (string * JValue))
    (key : string) (z d : Z) :
  fst (kind_range k) <= z <= snd (kind_range k) ->
  Serialize_kind k (root_writer ms) (Some key) z (Some d)
  = Some (root_writer (ms ++ (if z =? d then [] else [(key, JInt z)])), z).
Proof.
  intros Hz.
  destruct k; cbn [Serialize_kind kind_range fst snd] in *;
    unfold Serialize_int8, Serialize_uint8, Serialize_int16, Serialize_uint16,
           Serialize_int32, Serialize_uint32, Serialize_int64, Serialize_uint64;
    rewrite Serialize_integer_writes;
    rewrite ?wrap_signed_8, ?wrap_unsigned_8, ?wrap_signed_16,
            ?wrap_unsigned_16 by assumption;
    reflexivity.
Qed.

(** One field written inside the root object adds its member, or nothing
    when the value is the default. *)
Lemma Serialize_writes (f : Field) (ms : list (string * JValue)) :
  field_ok f ->
  Serialize (root_writer ms) (f_key f) (f_value f) (f_default f)
  = Some (root_writer (ms ++ members_of [f]), f_value f).
Proof.
  intros (Hv & _ & Hs).
  unfold members_of. cbn [flat_map]. rewrite app_nil_r.
  destruct (f_value f) as [b | k z], (f_default f) as [d | k' d];
    cbn [same_type well_typed] in *; try contradiction.
  - cbn [Serialize scalar_eqb to_json]. now rewrite Serialize_bool_writes.
  - cbn [Serialize scalar_eqb to_json].
    now rewrite Serialize_kind_writes by assumption.
Qed.

Lemma members_of_cons (f : Field) (fields : list Field) :
  members_of (f :: fields) = members_of [f] ++ members_of fields.
Proof. unfold members_of. cbn [flat_map]. now rewrite app_nil_r. Qed.

Lemma write_fields_root (fields : list Field) :
  Forall field_ok fields ->
  forall ms, write_fields (root_writer ms) fields
             = Some (root_writer (ms ++ members_of fields)).
Proof.
  induction 1 as [| f fields Hf _ IH]; intros ms.
  - cbn. now rewrite app_nil_r.
  - cbn [write_fields]. rewrite (Serialize_writes f ms Hf), IH.
    now rewrite (members_of_cons f fields), app_assoc.
Qed.

Lemma written_members (fields : list Field) :
  Forall field_ok fields -> written fields = Some (JObject (members_of fields)).
Proof.
  intros H. unfold written. rewrite OpenWriter_root.
  rewrite (write_fields_root fields H []). apply GetOutput_root.
Qed.

(** Lookup in the written members. *)
Lemma FindMember_app_skip (m m' : list (string * JValue)) (key : string) :
  FindMember m key = None -> FindMember (m ++ m') key = FindMember m' key.
Proof.
  unfold FindMember. induction m as [| kv m IH]; cbn [find app].
  - reflexivity.
  - destruct (String.eqb (fst kv) key); [discriminate | exact IH].
Qed.

Lemma FindMember_one_other (f : Field) (key : string) :
  f_key f <> key -> FindMember (members_of [f]) key = None.
Proof.
  intros Hk. unfold members_of, FindMember. cbn [flat_map].
  destruct (scalar_eqb _ _); cbn; [reflexivity |].
  apply String.eqb_neq in Hk. now rewrite Hk.
Qed.

Lemma FindMember_missing (fields : list Field) (key : string) :
  ~ In key (map f_key fields) -> FindMember (members_of fields) key = None.
Proof.
  induction fields as [| f fields IH]; intros Hk.
  - reflexivity.
  - rewrite members_of_cons. cbn [map In] in Hk.
    rewrite FindMember_app_skip.
    + apply IH. intros Hin. apply Hk. now right.
    + apply FindMember_one_other. intros He. apply Hk. now left.
Qed.

Lemma FindMember_members (fields : list Field) (f : Field) :
  NoDup (map f_key fields) -> In f fields ->
  FindMember (members_of fields) (f_key f)
  = if scalar_eqb (f_value f) (f_default f) then None
    else Some (to_json (f_value f)).
Proof.
  induction fields as [| f0 fields IH]; intros Hnd Hin; [contradiction |].
  cbn [map] in Hnd. inversion Hnd as [| k ks Hk Hnd']; subst.
  rewrite members_of_cons. destruct Hin as [-> | Hin].
  - unfold members_of at 1. cbn [flat_map]. rewrite app_nil_r.
    destruct (scalar_eqb _ _).
    + cbn [app]. now apply FindMember_missing.
    + unfold FindMember. cbn [app find fst snd]. now rewrite String.eqb_refl.
  - rewrite FindMember_app_skip; [now apply IH |].
    apply FindMember_one_other. intros He. apply Hk. rewrite He.
    now apply in_map.
Qed.

(** Reading inside the root object of a document. *)
Lemma Serialize_integer_absent (is_type : JValue -> bool)
    (m : list (string * JValue)) (key : string) (z : Z) (d : option Z) :
  FindMember m key = None ->
  Serialize_integer is_type (OpenReader (JObject m)) (Some key) z d
  = Some (OpenReader (JObject m), z).
Proof.
  intros Hf. unfold Serialize_integer, OpenReader, FindKey.
  cbn. now rewrite Hf.
Qed.

Lemma Serialize_integer_present (is_type : JValue -> bool)
    (m : list (string * JValue)) (key : string) (z v : Z) (d : option Z) :
  FindMember m key = Some (JInt v) -> is_type (JInt v) = true ->
  Serialize_integer is_type (OpenReader (JObject m)) (Some key) z d
  = Some (OpenReader (JObject m), v).
Proof.
  intros Hf Ht. unfold Serialize_integer, OpenReader, FindKey.
  cbn. rewrite Hf, Ht. reflexivity.
Qed.

Lemma Serialize_bool_absent (m : list (string * JValue)) (key : string)
    (b : bool) (d : option bool) :
  FindMember m key = None ->
  Serialize_bool (OpenReader (JObject m)) (Some key) b d
  = Some (OpenReader (JObject m), b).
Proof.
  intros Hf. unfold Serialize_bool, OpenReader, FindKey.
  cbn. now rewrite Hf.
Qed.

Lemma Serialize_bool_present (m : list (string * JValue)) (key : string)
    (b v : bool) (d : option bool) :
  FindMember m key = Some (JBool v) ->
  Serialize_bool (OpenReader (JObject m)) (Some key) b d
  = Some (OpenReader (JObject m), v).
Proof.
  intros Hf. unfold Serialize_bool, OpenReader, FindKey.
  cbn. now rewrite Hf.
Qed.

Lemma Serialize_kind_absent (k : IntKind) (m : list (string * JValue))
    (key : string) (z : Z) (d : option Z) :
  fst (kind_range k) <= z <= snd (kind_range k) ->
  FindMember m key = None ->
  Serialize_kind k (OpenReader (JObject m)) (Some key) z d
  = Some (OpenReader (JObject m), z).
Proof.
  intros Hz Hf.
  destruct k; cbn [Serialize_kind kind_range fst snd] in *;
    unfold Serialize_int8, Serialize_uint8, Serialize_int16, Serialize_uint16,
           Serialize_int32, Serialize_uint32, Serialize_int64, Serialize_uint64;
    rewrite Serialize_integer_absent by assumption;
    rewrite ?wrap_signed_8, ?wrap_unsigned_8, ?wrap_signed_16,
            ?wrap_unsigned_16 by assumption;
    reflexivity.
Qed.

Lemma in_range_true (lo hi z : Z) :
  lo <= z <= hi -> in_range lo hi (JInt z) = true.
Proof.
  intros H. unfold in_range.
  apply andb_true_intro; split; apply Z.leb_le; lia.
Qed.

Lemma Serialize_kind_present (k : IntKind) (m : list (string * JValue))
    (key : string) (z v : Z) (d : option Z) :
  fst (kind_range k) <= v <= snd (kind_range k) ->
  FindMember m key = Some (JInt v) ->
  Serialize_kind k (OpenReader (JObject m)) (Some key) z d
  = Some (OpenReader (JObject m), v).
Proof.
  intros Hv Hf.
  destruct k; cbn [Serialize_kind kind_range fst snd] in *;
    unfold Serialize_int8, Serialize_uint8, Serialize_int16, Serialize_uint16,
           Serialize_int32, Serialize_uint32, Serialize_int64, Serialize_uint64;
    rewrite (Serialize_integer_present _ m key _ v)
      by (try assumption; apply in_range_true; lia);
    rewrite ?wrap_signed_8, ?wrap_unsigned_8, ?wrap_signed_16,
            ?wrap_unsigned_16 by assumption;
    reflexivity.
Qed.

Lemma scalar_eqb_eq (a b : Scalar) :
  same_type a b -> (scalar_eqb a b = true <-> a = b).
Proof.
  destruct a as [x | k x], b as [y | k' y]; cbn; try contradiction.
  - intros _. split.
    + intros H. apply Bool.eqb_prop in H. now subst.
    + intros H. inversion H. apply Bool.eqb_reflx.
  - intros ->. split.
    + intros H. apply Z.eqb_eq in H. now subst.
    + intros H. inversion H. apply Z.eqb_refl.
Qed.

(** A destination that starts as the default ends as the written value. *)
Lemma Serialize_reads (f : Field) (m : list (string * JValue)) :
  field_ok f ->
  FindMember m (f_key f)
  = (if scalar_eqb (f_value f) (f_default f) then None
     else Some (to_json (f_value f))) ->
  Serialize (OpenReader (JObject m)) (f_key f) (f_default f) (f_default f)
  = Some (OpenReader (JObject m), f_value f).
Proof.
  intros (Hv & Hd & Hs) Hf.
  pose proof (scalar_eqb_eq _ _ Hs) as Heq.
  destruct (scalar_eqb (f_value f) (f_default f)).
  - rewrite (proj1 Heq eq_refl) in *.
    destruct (f_default f) as [d | k d]; cbn [Serialize well_typed] in *.
    + now rewrite Serialize_bool_absent.
    + now rewrite Serialize_kind_absent.
  - destruct (f_value f) as [b | k z], (f_default f) as [d | k' d];
      cbn [same_type well_typed to_json Serialize] in *; try contradiction.
    + now rewrite (Serialize_bool_present m (f_key f) d b).
    + subst k'. now rewrite (Serialize_kind_present k m (f_key f) d z).
Qed.

Lemma read_fields_root (m : list (string * JValue)) (fields : list Field) :
  (forall f, In f fields ->
     field_ok f /\
     FindMember m (f_key f)
     = (if scalar_eqb (f_value f) (f_default f) then None
        else Some (to_json (f_value f)))) ->
  read_fields (OpenReader (JObject m)) fields
  = Some (OpenReader (JObject m), map f_value fields).
Proof.
  induction fields as [| f fields IH]; intros H.
  - reflexivity.
  - cbn [read_fields map].
    destruct (H f (or_introl eq_refl)) as [Hok Hf].
    rewrite (Serialize_reads f m Hok Hf), IH.
    + reflexivity.
    + intros g Hg. apply H. now right.
Qed.

End SerializerFacts.

Section SerializerRoundTrip.
Import Serializer.
Local Open Scope Z_scope.




End SerializerRoundTrip.
(** * Serializer: reading any document, arrays, nesting, closing *)

Section SerializerReading.
Import Serializer SerializerNesting.
Local Open Scope Z_scope.

Lemma narrow_in_range (k : IntKind) (z : Z) :
  fst (kind_range k) <= z <= snd (kind_range k) -> narrow k z = z.
Proof.
  intros H. destruct k; cbn [narrow kind_range fst snd] in *;
    auto using wrap_signed_8, wrap_unsigned_8, wrap_signed_16,
               wrap_unsigned_16.
Qed.

Lemma FindKey_object (m : list (string * JValue)) (i : Z)
    (outer : list FJSONObject) (kv : option JValue) (key : string) :
  FindKey (mkReader (mkJSONObject (JObject m) i :: outer) kv) (Some key)
  = (FindMember m key, mkReader (mkJSONObject (JObject m) i :: outer) kv).
Proof. reflexivity. Qed.

(** One integer read inside an object. *)
Lemma Serialize_integer_reads (is_type : JValue -> bool)
    (m : list (string * JValue)) (i : Z) (outer : list FJSONObject)
    (e : Z) (key : string) (z : Z) (d : option Z) :
  Serialize_integer is_type (reader_at (JObject m) i outer e) (Some key) z d
  = Some (match FindMember m key with
          | Some v =>
              if is_type v then (reader_at (JObject m) i outer e, GetInt v)
              else (reader_at (JObject m) i outer (e + 1), z)
          | None => (reader_at (JObject m) i outer e, z)
          end).
Proof.
  unfold Serialize_integer, reader_at. cbn [w r mErrors].
  rewrite FindKey_object.
  destruct (FindMember m key) as [v |]; [| reflexivity].
  destruct (is_type v); reflexivity.
Qed.

Lemma Serialize_bool_reads (m : list (string * JValue)) (i : Z)
    (outer : list FJSONObject) (e : Z) (key : string) (b : bool)
    (d : option bool) :
  Serialize_bool (reader_at (JObject m) i outer e) (Some key) b d
  = Some (match FindMember m key with
          | Some v =>
              if IsBool v then (reader_at (JObject m) i outer e, GetBool v)
              else (reader_at (JObject m) i outer (e + 1), b)
          | None => (reader_at (JObject m) i outer e, b)
          end).
Proof.
  unfold Serialize_bool, reader_at. cbn [w r mErrors].
  rewrite FindKey_object.
  destruct (FindMember m key) as [v |]; [| reflexivity].
  destruct (IsBool v); reflexivity.
Qed.

(** One read of any supported scalar inside an object: the member's value
    in the width of the destination, or the destination as it was, with an
    error counted when the member has another type. *)
Lemma Serialize_found (m : list (string * JValue)) (i : Z)
    (outer : list FJSONObject) (e : Z) (f : Field) (d : Scalar) :
  well_typed (f_default f) ->
  Serialize (reader_at (JObject m) i outer e) (f_key f) (f_default f) d
  = Some (reader_at (JObject m) i outer
                    (e + if mismatched m f then 1 else 0),
          found m f).
Proof.
  intros Hd. unfold mismatched, found.
  destruct (f_default f) as [b | k z]; cbn [Serialize type_test from_json].
  - rewrite Serialize_bool_reads.
    destruct (FindMember m (f_key f)) as [v |];
      [destruct (IsBool v) |]; cbn [negb]; rewrite ?Z.add_0_r; reflexivity.
  - cbn [well_typed] in Hd.
    destruct k; cbn [Serialize_kind kind_range fst snd narrow] in *;
      unfold Serialize_int8, Serialize_uint8, Serialize_int16,
             Serialize_uint16, Serialize_int32, Serialize_uint32,
             Serialize_int64, Serialize_uint64;
      rewrite Serialize_integer_reads;
      (destruct (FindMember m (f_key f)) as [v |];
       [match goal with |- context [if ?t v then _ else _] =>
          destruct (t v) end |]);
      cbn [negb]; rewrite ?Z.add_0_r;
      rewrite ?wrap_signed_8, ?wrap_unsigned_8, ?wrap_signed_16,
              ?wrap_unsigned_16 by assumption;
      reflexivity.
Qed.

Lemma read_fields_found (m : list (string * JValue)) (i : Z)
    (outer : list FJSONObject) (fields : list Field) :
  Forall (fun f => well_typed (f_default f)) fields ->
  forall e,
    read_fields (reader_at (JObject m) i outer e) fields
    = Some (reader_at (JObject m) i outer
                      (e + Z.of_nat (length (filter (mismatched m) fields))),
            map (found m) fields).
Proof.
  induction 1 as [| f fields Hf _ IH]; intros e.
  - cbn. now rewrite Z.add_0_r.
  - cbn [read_fields map filter]. rewrite (Serialize_found m i outer e f _ Hf).
    rewrite IH. destruct (mismatched m f); cbn [length].
    + do 3 f_equal. lia.
    + now rewrite Z.add_0_r.
Qed.

End SerializerReading.

Section SerializerReadingClaims.
Import Serializer SerializerNesting.
Local Open Scope Z_scope.



End SerializerReadingClaims.
Section SerializerContainers.
Import Serializer SerializerNesting.
Local Open Scope Z_scope.

(** ** Writing inside an array *)

Lemma Serialize_integer_array_writes (is_type : JValue -> bool)
    (es : list JValue) (ins : list bool) (outer : list Level) (e : Z)
    (key : option string) (z : Z) (d : option Z) :
  Serialize_integer is_type (array_writer es ins outer e) key z d
  = Some (array_writer (es ++ [JInt z]) ins outer e, z).
Proof. reflexivity. Qed.

Lemma Serialize_bool_array_writes (es : list JValue) (ins : list bool)
    (outer : list Level) (e : Z) (key : option string) (b : bool)
    (d : option bool) :
  Serialize_bool (array_writer es ins outer e) key b d
  = Some (array_writer (es ++ [JBool b]) ins outer e, b).
Proof. reflexivity. Qed.

Lemma Serialize_array_writes (es : list JValue) (ins : list bool)
    (outer : list Level) (e : Z) (key : string) (v d : Scalar) :
  well_typed v ->
  Serialize (array_writer es ins outer e) key v d
  = Some (array_writer (es ++ [to_json v]) ins outer e, v).
Proof.
  intros Hv. destruct v as [b | k z]; cbn [Serialize to_json].
  - now rewrite Serialize_bool_array_writes.
  - cbn [well_typed] in Hv.
    destruct k; cbn [Serialize_kind kind_range fst snd] in *;
      unfold Serialize_int8, Serialize_uint8, Serialize_int16,
             Serialize_uint16, Serialize_int32, Serialize_uint32,
             Serialize_int64, Serialize_uint64;
      rewrite Serialize_integer_array_writes;
      rewrite ?wrap_signed_8, ?wrap_unsigned_8, ?wrap_signed_16,
              ?wrap_unsigned_16 by assumption;
      reflexivity.
Qed.

Lemma write_fields_array (ins : list bool) (outer : list Level) (e : Z)
    (elems : list Field) :
  Forall (fun f => well_typed (f_value f)) elems ->
  forall es,
    write_fields (array_writer es ins outer e) elems
    = Some (array_writer (es ++ map (fun f => to_json (f_value f)) elems)
                         ins outer e).
Proof.
  induction 1 as [| f elems Hf _ IH]; intros es.
  - cbn. now rewrite app_nil_r.
  - cbn [write_fields map]. rewrite (Serialize_array_writes _ _ _ _ _ _ _ Hf).
    rewrite IH, <- app_assoc. reflexivity.
Qed.

Lemma BeginArray_writes (ms : list (string * JValue)) (ins : list bool)
    (outer : list Level) (e : Z) (name : string) :
  BeginArray (object_writer ms ins outer e) (Some name)
  = Some (array_writer [] (true :: ins)
                       (mkLevel true (Some name) ms [] :: outer) e, true).
Proof. reflexivity. Qed.

Lemma EndArray_writes (es : list JValue) (ms : list (string * JValue))
    (ins : list bool) (outer : list Level) (e : Z) (name : string) :
  EndArray (array_writer es (true :: ins)
                         (mkLevel true (Some name) ms [] :: outer) e)
  = Some (object_writer (ms ++ [(name, JArray es)]) ins outer e).
Proof. reflexivity. Qed.

(** ** Writing inside an object at any depth *)

Lemma BeginObject_writes (ms : list (string * JValue)) (ins : list bool)
    (outer : list Level) (e : Z) (name : string) :
  BeginObject (object_writer ms ins outer e) (Some name)
  = Some (object_writer [] (true :: ins)
                        (mkLevel true (Some name) ms [] :: outer) e, true).
Proof. reflexivity. Qed.

Lemma EndObject_writes (ms' ms : list (string * JValue)) (ins : list bool)
    (outer : list Level) (e : Z) (name : string) :
  EndObject (object_writer ms' (true :: ins)
                           (mkLevel true (Some name) ms [] :: outer) e)
  = Some (object_writer (ms ++ [(name, JObject ms')]) ins outer e).
Proof. reflexivity. Qed.

Lemma Serialize_integer_object_writes (is_type : JValue -> bool)
    (ms : list (string * JValue)) (ins : list bool) (outer : list Level)
    (e : Z) (key : string) (z d : Z) :
  Serialize_integer is_type (object_writer ms ins outer e) (Some key) z
                    (Some d)
  = Some (object_writer (ms ++ (if z =? d then [] else [(key, JInt z)]))
                        ins outer e, z).
Proof.
  unfold Serialize_integer, object_writer. cbn.
  destruct (z =? d); cbn.
  - now rewrite app_nil_r.
  - reflexivity.
Qed.

Lemma Serialize_bool_object_writes (ms : list (string * JValue))
    (ins : list bool) (outer : list Level) (e : Z) (key : string)
    (b d : bool) :
  Serialize_bool (object_writer ms ins outer e) (Some key) b (Some d)
  = Some (object_writer
            (ms ++ (if Bool.eqb b d then [] else [(key, JBool b)]))
            ins outer e, b).
Proof.
  unfold Serialize_bool, object_writer. cbn.
  destruct (Bool.eqb b d); cbn.
  - now rewrite app_nil_r.
  - reflexivity.
Qed.

Lemma Serialize_object_writes (f : Field) (ms : list (string * JValue))
    (ins : list bool) (outer : list Level) (e : Z) :
  field_ok f ->
  Serialize (object_writer ms ins outer e) (f_key f) (f_value f)
            (f_default f)
  = Some (object_writer (ms ++ members_of [f]) ins outer e, f_value f).
Proof.
  intros (Hv & _ & Hs).
  unfold members_of. cbn [flat_map]. rewrite app_nil_r.
  destruct (f_value f) as [b | k z], (f_default f) as [d | k' d];
    cbn [same_type well_typed] in *; try contradiction.
  - cbn [Serialize scalar_eqb to_json].
    now rewrite Serialize_bool_object_writes.
  - cbn [Serialize scalar_eqb to_json well_typed] in *.
    destruct k; cbn [Serialize_kind kind_range fst snd] in *;
      unfold Serialize_int8, Serialize_uint8, Serialize_int16,
             Serialize_uint16, Serialize_int32, Serialize_uint32,
             Serialize_int64, Serialize_uint64;
      rewrite Serialize_integer_object_writes;
      rewrite ?wrap_signed_8, ?wrap_unsigned_8, ?wrap_signed_16,
              ?wrap_unsigned_16 by assumption;
      reflexivity.
Qed.

Lemma write_fields_object (ins : list bool) (outer : list Level) (e : Z)
    (fields : list Field) :
  Forall field_ok fields ->
  forall ms,
    write_fields (object_writer ms ins outer e) fields
    = Some (object_writer (ms ++ members_of fields) ins outer e).
Proof.
  induction 1 as [| f fields Hf _ IH]; intros ms.
  - cbn. now rewrite app_nil_r.
  - cbn [write_fields]. rewrite (Serialize_object_writes f ms ins outer e Hf).
    rewrite IH, (members_of_cons f fields), app_assoc. reflexivity.
Qed.

(** ** Reading inside an array *)

Lemma FindKey_array_elem (pre post : list JValue) (v : JValue)
    (outer : list FJSONObject) (kv : option JValue) (key : option string) :
  FindKey (mkReader (mkJSONObject (JArray (pre ++ v :: post))
                                  (Z.of_nat (length pre)) :: outer) kv) key
  = (Some v,
     mkReader (mkJSONObject (JArray (pre ++ v :: post))
                            (Z.of_nat (length pre) + 1) :: outer) kv).
Proof.
  unfold FindKey. cbn [mObjects mObject mIndex mKeyValue].
  assert (H : (0 <=? Z.of_nat (length pre))
              && (Z.of_nat (length pre)
                  <? Z.of_nat (length (pre ++ v :: post))) = true).
  { rewrite length_app. cbn [length].
    apply andb_true_intro; split; [apply Z.leb_le | apply Z.ltb_lt]; lia. }
  rewrite H, Nat2Z.id, nth_error_app2, Nat.sub_diag by lia. reflexivity.
Qed.

Lemma FindKey_array_end (l : list JValue) (i : Z)
    (outer : list FJSONObject) (kv : option JValue) (key : option string) :
  Z.of_nat (length l) <= i ->
  FindKey (mkReader (mkJSONObject (JArray l) i :: outer) kv) key
  = (None, mkReader (mkJSONObject (JArray l) i :: outer) kv).
Proof.
  intros H. unfold FindKey. cbn [mObjects mObject mIndex mKeyValue].
  replace (i <? Z.of_nat (length l)) with false
    by (symmetry; apply Z.ltb_ge; lia).
  now rewrite andb_false_r.
Qed.

Lemma type_test_to_json (v dest : Scalar) :
  well_typed v -> same_type v dest ->
  type_test dest (to_json v) = true /\ from_json dest (to_json v) = v.
Proof.
  destruct v as [b | k z], dest as [d | k' d]; cbn; try contradiction.
  - split; reflexivity.
  - intros Hz <-. split.
    + destruct k; cbn [kind_range fst snd] in Hz;
        apply in_range_true; lia.
    + now rewrite narrow_in_range.
Qed.

(** One read, whatever container the reader is in. *)
Lemma Serialize_reads_any (rd : FReader) (e : Z) (key : string)
    (dest d : Scalar) :
  well_typed dest ->
  Serialize (mkSerializer None (Some rd) e) key dest d
  = Some (match FindKey rd (Some key) with
          | (Some v, rd') =>
              if type_test dest v
              then (mkSerializer None (Some rd') e, from_json dest v)
              else (mkSerializer None (Some rd') (e + 1), dest)
          | (None, rd') => (mkSerializer None (Some rd') e, dest)
          end).
Proof.
  intros Hd. destruct dest as [b | k z]; cbn [Serialize type_test from_json].
  - unfold Serialize_bool. cbn [w r mErrors].
    destruct (FindKey rd (Some key)) as [[v |] rd'];
      [destruct (IsBool v) |]; reflexivity.
  - cbn [well_typed] in Hd.
    destruct k; cbn [Serialize_kind kind_range fst snd narrow] in *;
      unfold Serialize_int8, Serialize_uint8, Serialize_int16,
             Serialize_uint16, Serialize_int32, Serialize_uint32,
             Serialize_int64, Serialize_uint64, Serialize_integer;
      cbn [w r mErrors];
      (destruct (FindKey rd (Some key)) as [[v |] rd'];
       [match goal with |- context [if ?t v then _ else _] =>
          destruct (t v) end |]);
      rewrite ?wrap_signed_8, ?wrap_unsigned_8, ?wrap_signed_16,
              ?wrap_unsigned_16 by assumption;
      reflexivity.
Qed.

Lemma read_fields_array (outer : list FJSONObject) (e : Z)
    (elems : list Field) :
  Forall field_ok elems ->
  forall pre post,
    read_fields
      (reader_at (JArray (pre ++ map (fun f => to_json (f_value f)) elems
                              ++ post))
                 (Z.of_nat (length pre)) outer e) elems
    = Some (reader_at (JArray (pre ++ map (fun f => to_json (f_value f)) elems
                                   ++ post))
                      (Z.of_nat (length pre + length elems)) outer e,
            map f_value elems).
Proof.
  induction 1 as [| f elems Hf _ IH]; intros pre post.
  - cbn. now rewrite Nat.add_0_r.
  - destruct Hf as (Hv & Hd & Hs).
    cbn [read_fields map app]. unfold reader_at at 1.
    rewrite (Serialize_reads_any _ _ _ _ _ Hd), FindKey_array_elem.
    destruct (type_test_to_json _ _ Hv Hs) as [-> ->].
    specialize (IH (pre ++ [to_json (f_value f)]) post).
    rewrite <- !app_assoc, length_app in IH. cbn [app length] in IH.
    replace (Z.of_nat (length pre) + 1)
      with (Z.of_nat (length pre + 1)) by lia.
    unfold reader_at in *. rewrite IH.
    replace (length pre + 1 + length elems)%nat
      with (length pre + S (length elems))%nat by lia.
    reflexivity.
Qed.

Lemma read_fields_array_end (l : list JValue) (outer : list FJSONObject)
    (e : Z) (more : list Field) :
  Forall (fun f => well_typed (f_default f)) more ->
  forall i, Z.of_nat (length l) <= i ->
    read_fields (reader_at (JArray l) i outer e) more
    = Some (reader_at (JArray l) i outer e, map f_default more).
Proof.
  induction 1 as [| f more Hf _ IH]; intros i Hi.
  - reflexivity.
  - cbn [read_fields map]. unfold reader_at at 1.
    rewrite (Serialize_reads_any _ _ _ _ _ Hf), FindKey_array_end by exact Hi.
    fold (reader_at (JArray l) i outer e). now rewrite IH.
Qed.

Lemma read_fields_app (fs gs : list Field) (arc : FSerializer) :
  read_fields arc (fs ++ gs)
  = match read_fields arc fs with
    | Some (arc, vs) =>
        match read_fields arc gs with
        | Some (arc, ws) => Some (arc, vs ++ ws)
        | None => None
        end
    | None => None
    end.
Proof.
  revert arc. induction fs as [| f fs IH]; intros arc; cbn [read_fields app].
  - destruct (read_fields arc gs) as [[arc' ws] |]; reflexivity.
  - destruct (Serialize arc (f_key f) (f_default f) (f_default f))
      as [[arc1 v] |]; [| reflexivity].
    rewrite IH. destruct (read_fields arc1 fs) as [[arc2 vs] |];
      [| reflexivity].
    destruct (read_fields arc2 gs) as [[arc3 ws] |]; reflexivity.
Qed.

Lemma filter_none {A : Type} (p : A -> bool) (l : list A) :
  (forall x, In x l -> p x = false) -> filter p l = [].
Proof.
  induction l as [| x l IH]; intros H; [reflexivity |].
  cbn [filter]. rewrite (H x (or_introl eq_refl)).
  apply IH. intros y Hy. apply H. now right.
Qed.

Lemma FindMember_single (name : string) (v : JValue) :
  FindMember [(name, v)] name = Some v.
Proof. unfold FindMember. cbn [find fst]. now rewrite String.eqb_refl. Qed.

Lemma BeginArray_reads (m : list (string * JValue)) (l : list JValue)
    (i : Z) (outer : list FJSONObject) (e : Z) (name : string) :
  FindMember m name = Some (JArray l) ->
  BeginArray (reader_at (JObject m) i outer e) (Some name)
  = Some (reader_at (JArray l) 0 (mkJSONObject (JObject m) i :: outer) e,
          true).
Proof.
  intros Hf. unfold BeginArray, reader_at. cbn [w r mErrors].
  rewrite FindKey_object, Hf. reflexivity.
Qed.

Lemma BeginObject_reads (m m' : list (string * JValue)) (i : Z)
    (outer : list FJSONObject) (e : Z) (name : string) :
  FindMember m name = Some (JObject m') ->
  BeginObject (reader_at (JObject m) i outer e) (Some name)
  = Some (reader_at (JObject m') 0 (mkJSONObject (JObject m) i :: outer) e,
          true).
Proof.
  intros Hf. unfold BeginObject, reader_at. cbn [w r mErrors].
  rewrite FindKey_object, Hf. reflexivity.
Qed.

End SerializerContainers.

Section SerializerContainerClaims.
Import Serializer SerializerNesting.
Local Open Scope Z_scope.

(** An array of scalars: between [BeginArray] and [EndArray] every element
    is written, also one that equals its default; the reader finds the
    size, reads the elements back in their order, leaves destinations past
    the end of the array as they were, counts no error, and is back in the
    root object after [EndArray]. *)
Theorem array_round_trip (name : string) (elems more : list Field) :
  Forall field_ok elems ->
  Forall (fun f => well_typed (f_default f)) more ->
  let doc := JObject [(name, JArray (map (fun f => to_json (f_value f))
                                         elems))] in
  written_array name elems = Some doc /\
  read_array (OpenReader doc) name (elems ++ more)
  = Some (OpenReader doc, true, Z.of_nat (length elems),
          map f_value elems ++ map f_default more).
Proof.
  intros Hok Hmore doc. split.
  - unfold written_array, write_array. rewrite OpenWriter_root.
    change (root_writer []) with (object_writer [] [] [] 0).
    rewrite BeginArray_writes, write_fields_array.
    + cbn [app]. rewrite EndArray_writes. reflexivity.
    + eapply Forall_impl; [| exact Hok]. intros f Hf. apply Hf.
  - unfold read_array, doc.
    set (l := map (fun f => to_json (f_value f)) elems).
    set (root := mkJSONObject (JObject [(name, JArray l)]) 0).
    change (OpenReader (JObject [(name, JArray l)]))
      with (reader_at (JObject [(name, JArray l)]) 0 [] 0).
    rewrite (BeginArray_reads _ l) by apply FindMember_single.
    fold root. cbn [ArraySize reader_at r mObjects mObject].
    unfold l at 2. rewrite length_map.
    change (mkSerializer None (Some (mkReader (mkJSONObject (JArray l) 0
                                               :: [root]) None)) 0)
      with (reader_at (JArray l) 0 [root] 0).
    rewrite read_fields_app.
    pose proof (read_fields_array [root] 0 elems Hok [] []) as Hread.
    cbn [app length Nat.add] in Hread. rewrite app_nil_r in Hread.
    fold l in Hread. change (Z.of_nat 0) with 0 in Hread. rewrite Hread.
    rewrite (read_fields_array_end l [root] 0 more Hmore)
      by (unfold l; rewrite length_map; lia).
    reflexivity.
Qed.

End SerializerContainerClaims.
Section SerializerObjectClaims.
Import Serializer SerializerNesting.
Local Open Scope Z_scope.

Lemma array_round_trip_witness :
  written_array "xs" sample_fields
  = Some (JObject [("xs"%string,
                    JArray (map (fun f => to_json (f_value f))
                                sample_fields))]) /\
  read_array
    (OpenReader (JObject [("xs"%string,
                           JArray (map (fun f => to_json (f_value f))
                                       sample_fields))]))
    "xs" (sample_fields ++ sample_destinations)
  = Some (OpenReader (JObject [("xs"%string,
                                JArray (map (fun f => to_json (f_value f))
                                            sample_fields))]),
          true, Z.of_nat (length sample_fields),
          map f_value sample_fields ++ map f_default sample_destinations).
Proof.
  apply (array_round_trip "xs" sample_fields sample_destinations).
  - unfold sample_fields, field_ok.
    repeat (constructor; [cbn; repeat split; lia |]). constructor.
  - unfold sample_destinations.
    repeat (constructor; [cbn; try exact I; lia |]). constructor.
Defined.

(** An object nested in the root object, with pairwise distinct keys
    inside: the fields at their default are left out of it, and the reader
    that enters it by name reads all values back and is in the root object
    again after [EndObject]. *)
Theorem nested_object_round_trip (name : string) (fields : list Field) :
  NoDup (map f_key fields) ->
  Forall field_ok fields ->
  let doc := JObject [(name, JObject (members_of fields))] in
  (match OpenWriter with
   | Some arc =>
       match write_object arc name fields with
       | Some arc => GetOutput arc
       | None => None
       end
   | None => None
   end) = Some doc /\
  read_object (OpenReader doc) name fields
  = Some (OpenReader doc, true, map f_value fields).
Proof.
  intros Hnd Hok doc. split.
  - rewrite OpenWriter_root. unfold write_object.
    change (root_writer []) with (object_writer [] [] [] 0).
    rewrite BeginObject_writes, (write_fields_object _ _ _ fields Hok).
    cbn [app]. rewrite EndObject_writes. reflexivity.
  - unfold read_object, doc.
    change (OpenReader (JObject [(name, JObject (members_of fields))]))
      with (reader_at (JObject [(name, JObject (members_of fields))]) 0 [] 0).
    rewrite (BeginObject_reads _ (members_of fields))
      by apply FindMember_single.
    rewrite read_fields_found.
    + assert (Hnone : filter (mismatched (members_of fields)) fields = []).
      { apply filter_none. intros f Hin. unfold mismatched.
        rewrite (FindMember_members fields f Hnd Hin).
        destruct (scalar_eqb _ _); [reflexivity |].
        pose proof (proj1 (Forall_forall _ _) Hok f Hin) as (Hv & _ & Hs).
        destruct (type_test_to_json _ _ Hv Hs) as [-> _]. reflexivity. }
      assert (Hvals : map (found (members_of fields)) fields
                      = map f_value fields).
      { apply map_ext_in. intros f Hin. unfold found.
        rewrite (FindMember_members fields f Hnd Hin).
        pose proof (proj1 (Forall_forall _ _) Hok f Hin) as (Hv & _ & Hs).
        destruct (scalar_eqb (f_value f) (f_default f)) eqn:E.
        - symmetry. now apply (scalar_eqb_eq _ _ Hs).
        - now destruct (type_test_to_json _ _ Hv Hs) as [-> ->]. }
      rewrite Hnone, Hvals. reflexivity.
    + apply Forall_forall. intros f Hin.
      apply (proj1 (Forall_forall _ _) Hok f Hin).
Qed.

Lemma nested_object_round_trip_witness :
  (match OpenWriter with
   | Some arc =>
       match write_object arc "player" sample_fields with
       | Some arc => GetOutput arc
       | None => None
       end
   | None => None
   end)
  = Some (JObject [("player"%string, JObject (members_of sample_fields))]) /\
  read_object
    (OpenReader (JObject [("player"%string,
                           JObject (members_of sample_fields))]))
    "player" sample_fields
  = Some (OpenReader (JObject [("player"%string,
                                JObject (members_of sample_fields))]),
          true, map f_value sample_fields).
Proof.
  apply (nested_object_round_trip "player" sample_fields).
  - cbn [sample_fields map f_key].
    repeat (constructor; [cbn [In]; intros H;
      repeat (destruct H as [H | H]; [discriminate H |]); exact H |]).
    constructor.
  - unfold sample_fields, field_ok.
    repeat (constructor; [cbn; repeat split; lia |]). constructor.
Defined.

End SerializerObjectClaims.
Section SerializerProtocol.
Import Serializer SerializerNesting.
Local Open Scope Z_scope.

(** The nesting stack of a writing serializer. *)
Lemma put_mInObject (wr : FWriter) (v : JValue) :
  mInObject (put wr v) = mInObject wr.
Proof.
  unfold put. destruct (open_levels wr) as [| lv rest]; [reflexivity |].
  destruct (lv_object lv); [destruct (lv_key lv) |]; reflexivity.
Qed.

Lemma writer_Key_mInObject (wr : FWriter) (k : string) :
  mInObject (writer_Key wr k) = mInObject wr.
Proof.
  unfold writer_Key. now destruct (open_levels wr).
Qed.

Lemma WriteKey_mInObject (arc arc' : FSerializer) (wr : FWriter)
    (key : option string) :
  w arc = Some wr -> WriteKey arc key = Some arc' ->
  exists wr', w arc' = Some wr' /\ mInObject wr' = mInObject wr.
Proof.
  intros Hw. unfold WriteKey. rewrite Hw.
  destruct (inObject wr).
  - destruct key as [k |]; [| discriminate].
    intros H. inversion H; subst. eexists. split; [reflexivity |].
    apply writer_Key_mInObject.
  - intros H. inversion H; subst. now exists wr.
Qed.

Lemma Serialize_integer_mInObject (is_type : JValue -> bool)
    (arc arc' : FSerializer) (wr : FWriter) (key : option string)
    (z z' : Z) (d : option Z) :
  w arc = Some wr ->
  Serialize_integer is_type arc key z d = Some (arc', z') ->
  exists wr', w arc' = Some wr' /\ mInObject wr' = mInObject wr.
Proof.
  intros Hw. unfold Serialize_integer. rewrite Hw.
  destruct (_ || _).
  - destruct (WriteKey arc key) as [arc1 |] eqn:Hk; [| discriminate].
    destruct (WriteKey_mInObject _ _ _ _ Hw Hk) as (wr1 & Hw1 & Hin).
    intros H. inversion H; subst. unfold with_writer. rewrite Hw1.
    eexists. split; [reflexivity |]. cbn [w]. now rewrite put_mInObject.
  - intros H. inversion H; subst. now exists wr.
Qed.

Lemma Serialize_bool_mInObject (arc arc' : FSerializer) (wr : FWriter)
    (key : option string) (b b' : bool) (d : option bool) :
  w arc = Some wr ->
  Serialize_bool arc key b d = Some (arc', b') ->
  exists wr', w arc' = Some wr' /\ mInObject wr' = mInObject wr.
Proof.
  intros Hw. unfold Serialize_bool. rewrite Hw.
  destruct (_ || _).
  - destruct (WriteKey arc key) as [arc1 |] eqn:Hk; [| discriminate].
    destruct (WriteKey_mInObject _ _ _ _ Hw Hk) as (wr1 & Hw1 & Hin).
    intros H. inversion H; subst. unfold with_writer. rewrite Hw1.
    eexists. split; [reflexivity |]. cbn [w]. now rewrite put_mInObject.
  - intros H. inversion H; subst. now exists wr.
Qed.

Lemma Serialize_mInObject (arc arc' : FSerializer) (wr : FWriter)
    (key : string) (v v' d : Scalar) :
  w arc = Some wr ->
  Serialize arc key v d = Some (arc', v') ->
  exists wr', w arc' = Some wr' /\ mInObject wr' = mInObject wr.
Proof.
  intros Hw. destruct v as [b | k z]; cbn [Serialize].
  - destruct (Serialize_bool arc (Some key) b _) as [[arc1 b1] |] eqn:E;
      [| discriminate].
    intros H. inversion H; subst.
    exact (Serialize_bool_mInObject _ _ _ _ _ _ _ Hw E).
  - destruct (Serialize_kind k arc (Some key) z _) as [[arc1 z1] |] eqn:E;
      [| discriminate].
    intros H. inversion H; subst.
    destruct k; cbn [Serialize_kind] in E;
      unfold Serialize_int8, Serialize_uint8, Serialize_int16,
             Serialize_uint16, Serialize_int32, Serialize_uint32,
             Serialize_int64, Serialize_uint64 in E;
      try exact (Serialize_integer_mInObject _ _ _ _ _ _ _ _ Hw E);
      match type of E with
      | match ?s with _ => _ end = _ =>
          destruct s as [[arc2 z2] |] eqn:E2; [| discriminate];
          inversion E; subst;
          exact (Serialize_integer_mInObject _ _ _ _ _ _ _ _ Hw E2)
      end.
Qed.

Lemma write_fields_mInObject (fields : list Field) :
  forall (arc arc' : FSerializer) (wr : FWriter),
    w arc = Some wr ->
    write_fields arc fields = Some arc' ->
    exists wr', w arc' = Some wr' /\ mInObject wr' = mInObject wr.
Proof.
  induction fields as [| f fields IH]; intros arc arc' wr Hw; cbn.
  - intros H. inversion H; subst. now exists wr.
  - destruct (Serialize arc (f_key f) (f_value f) (f_default f))
      as [[arc1 v1] |] eqn:E; [| discriminate].
    destruct (Serialize_mInObject _ _ _ _ _ _ _ Hw E) as (wr1 & Hw1 & Hin).
    intros H. destruct (IH _ _ _ Hw1 H) as (wr2 & Hw2 & Hin2).
    exists wr2. split; [exact Hw2 | congruence].
Qed.

End SerializerProtocol.

Section SerializerProtocolClaims.
Import Serializer SerializerNesting.
Local Open Scope Z_scope.

(** The writer notices a container closed by the wrong call: after
    [BeginArray] and any scalar writes, [EndArray] goes through and
    [EndObject] is a fatal error; after [BeginObject] and any scalar
    writes, [EndObject] goes through and [EndArray] is a fatal error;
    whatever state the writer was in before. *)
Theorem mismatched_close_is_fatal (arc : FSerializer) (name : option string)
    (fields : list Field) :
  isWriting arc = true ->
  (forall arc1 arc2 b,
      BeginArray arc name = Some (arc1, b) ->
      write_fields arc1 fields = Some arc2 ->
      EndObject arc2 = None /\ EndArray arc2 <> None) /\
  (forall arc1 arc2 b,
      BeginObject arc name = Some (arc1, b) ->
      write_fields arc1 fields = Some arc2 ->
      EndArray arc2 = None /\ EndObject arc2 <> None).
Proof.
  intros Hw. unfold isWriting in Hw.
  destruct (w arc) as [wr |] eqn:Hwr; [| discriminate].
  split; intros arc1 arc2 b Hbegin Hfields.
  - unfold BeginArray in Hbegin. rewrite Hwr in Hbegin.
    destruct (WriteKey arc name) as [arc0 |] eqn:Hk; [| discriminate].
    destruct (WriteKey_mInObject _ _ _ _ Hwr Hk) as (wr0 & Hw0 & _).
    inversion Hbegin; subst. unfold with_writer in Hfields.
    rewrite Hw0 in Hfields.
    match type of Hfields with
    | write_fields ?a _ = _ =>
        destruct (write_fields_mInObject fields a arc2 _ eq_refl Hfields)
          as (wr2 & Hw2 & Hin)
    end.
    unfold EndObject, EndArray. rewrite Hw2. unfold inObject. rewrite Hin.
    split; [reflexivity | discriminate].
  - unfold BeginObject in Hbegin. rewrite Hwr in Hbegin.
    destruct (WriteKey arc name) as [arc0 |] eqn:Hk; [| discriminate].
    destruct (WriteKey_mInObject _ _ _ _ Hwr Hk) as (wr0 & Hw0 & _).
    inversion Hbegin; subst. unfold with_writer in Hfields.
    rewrite Hw0 in Hfields.
    match type of Hfields with
    | write_fields ?a _ = _ =>
        destruct (write_fields_mInObject fields a arc2 _ eq_refl Hfields)
          as (wr2 & Hw2 & Hin)
    end.
    unfold EndObject, EndArray. rewrite Hw2. unfold inObject. rewrite Hin.
    split; [reflexivity | discriminate].
Qed.

Lemma mismatched_close_is_fatal_witness :
  (EndObject (array_writer (map (fun f => to_json (f_value f)) sample_fields)
                           [true] [mkLevel true (Some "xs"%string) [] []] 0)
   = None /\
   EndArray (array_writer (map (fun f => to_json (f_value f)) sample_fields)
                          [true] [mkLevel true (Some "xs"%string) [] []] 0)
   <> None) /\
  (EndArray (object_writer (members_of sample_fields)
                           [true] [mkLevel true (Some "xs"%string) [] []] 0)
   = None /\
   EndObject (object_writer (members_of sample_fields)
                            [true] [mkLevel true (Some "xs"%string) [] []] 0)
   <> None).
Proof.
  split.
  - refine (proj1 (mismatched_close_is_fatal (root_writer [])
                     (Some "xs"%string) sample_fields eq_refl)
                  (array_writer [] [true]
                                [mkLevel true (Some "xs"%string) [] []] 0)
                  _ true _ _).
    + reflexivity.
    + vm_compute. reflexivity.
  - refine (proj2 (mismatched_close_is_fatal (root_writer [])
                     (Some "xs"%string) sample_fields eq_refl)
                  (object_writer [] [true]
                                 [mkLevel true (Some "xs"%string) [] []] 0)
                  _ true _ _).
    + reflexivity.
    + vm_compute. reflexivity.
Defined.

(** A pointer written as its index: null goes out as -1 and comes back as
    null, a pointer into the array comes back as it was, and a pointer that
    equals its default is left out and the destination, which starts as the
    default, keeps it; no error is counted. *)
Theorem pointer_round_trip (key : string) (value defval : option Z) :
  valid_pointer value -> valid_pointer defval ->
  exists doc,
    pointer_written key value (Some defval) = Some doc /\
    (value = defval -> absent key doc) /\
    (value <> defval ->
     doc = JObject [(key, JInt (match value with
                                | None => -1
                                | Some i => i
                                end))]) /\
    pointer_read doc key defval (Some defval) = Some (0, value).
Proof.
  intros Hv Hd.
  assert (Hcases : value = defval \/ value <> defval).
  { destruct value as [v |], defval as [d |];
      try (right; discriminate); [| now left].
    destruct (Z.eq_dec v d) as [-> | Hne]; [now left |].
    right. intros H. inversion H. contradiction. }
  destruct Hcases as [<- | Hne].
  - exists (JObject []).
    assert (Hw : pointer_written key value (Some value) = Some (JObject [])).
    { unfold pointer_written. rewrite OpenWriter_root.
      unfold SerializePointer, root_writer, isReading. cbn [r w inObject
        mInObject negb orb].
      destruct value as [v |]; [rewrite Z.eqb_refl |]; reflexivity. }
    split; [exact Hw |]. split; [reflexivity |].
    split; [intros H; now contradiction H |].
    unfold pointer_read, SerializePointer, OpenReader, isReading.
    cbn [r orb]. unfold Serialize_int64.
    change (mkSerializer None (Some (mkReader [mkJSONObject (JObject []) 0]
                                              None)) 0)
      with (reader_at (JObject []) 0 [] 0).
    rewrite Serialize_integer_reads. cbn [FindMember find].
    destruct value as [v |]; cbn [valid_pointer] in Hv.
    + replace (v <? 0) with false by (symmetry; apply Z.ltb_ge; lia).
      reflexivity.
    + reflexivity.
  - set (idx := match value with None => -1 | Some i => i end).
    exists (JObject [(key, JInt idx)]).
    assert (Hw : pointer_written key value (Some defval)
                 = Some (JObject [(key, JInt idx)])).
    { unfold pointer_written. rewrite OpenWriter_root.
      unfold SerializePointer, root_writer, isReading.
      cbn [r w inObject mInObject negb orb].
      assert (Hdiff : match defval with
                      | Some d =>
                          match value with
                          | Some v => negb (v =? d)
                          | None => true
                          end
                      | None =>
                          match value with Some _ => true | None => false end
                      end = true).
      { destruct value as [v |], defval as [d |]; try reflexivity.
        - apply negb_true_iff, Z.eqb_neq. intros ->. now apply Hne.
        - now contradiction Hne. }
      rewrite Hdiff. reflexivity. }
    split; [exact Hw |].
    split; [intros H; now contradiction Hne |].
    split; [reflexivity |].
    unfold pointer_read, SerializePointer, OpenReader, isReading.
    cbn [r orb]. unfold Serialize_int64.
    change (mkSerializer None
              (Some (mkReader [mkJSONObject (JObject [(key, JInt idx)]) 0]
                              None)) 0)
      with (reader_at (JObject [(key, JInt idx)]) 0 [] 0).
    rewrite Serialize_integer_reads, FindMember_single.
    assert (Hin : IsInt64 (JInt idx) = true).
    { apply in_range_true. subst idx.
      destruct value as [v |]; cbn [valid_pointer] in Hv; lia. }
    rewrite Hin. cbn [GetInt mErrors reader_at]. subst idx.
    destruct value as [v |]; cbn [valid_pointer] in Hv.
    + replace (v <? 0) with false by (symmetry; apply Z.ltb_ge; lia).
      reflexivity.
    + reflexivity.
Qed.

Lemma pointer_round_trip_witness :
  exists doc,
    pointer_written "sector" (Some 12) (Some None) = Some doc /\
    (Some 12 = None -> absent "sector" doc) /\
    (Some 12 <> None ->
     doc = JObject [("sector"%string, JInt 12)]) /\
    pointer_read doc "sector" None (Some None) = Some (0, Some 12).
Proof.
  apply (pointer_round_trip "sector" (Some 12) None).
  - cbn. lia.
  - exact I.
Defined.

End SerializerProtocolClaims.
(** * Strings: the stored form and the way back *)

Section StoredStringFacts.
Import Strings StoredStrings.
Local Open Scope Z_scope.

Lemma enc1_double_encoded (b : Z) :
  nonzero_byte b -> enc1 b = double_encoded b.
Proof.
  intros Hb. apply byte_values_complete in Hb.
  assert (H : forallb (fun b => if list_eq_dec Z.eq_dec (enc1 b)
                                     (double_encoded b)
                                then true else false) byte_values = true)
    by (vm_compute; reflexivity).
  rewrite forallb_forall in H. specialize (H b Hb).
  now destruct (list_eq_dec Z.eq_dec (enc1 b) (double_encoded b)).
Qed.

Lemma enc_double_encoded (s : list Z) :
  Forall nonzero_byte s -> enc s = flat_map double_encoded s.
Proof.
  induction 1 as [| b s Hb _ IH]; [reflexivity |].
  cbn [enc flat_map]. fold (enc s). now rewrite IH, enc1_double_encoded.
Qed.

Lemma ascii_enc (s : list Z) :
  Forall nonzero_byte s -> forallb is_ascii s = true -> enc s = s.
Proof.
  induction 1 as [| b s Hb _ IH]; [reflexivity |].
  cbn [forallb]. intros H. apply andb_prop in H. destruct H as [Hb' Hs].
  cbn [enc flat_map]. fold (enc s). rewrite (IH Hs).
  rewrite (enc1_double_encoded b Hb). unfold double_encoded.
  unfold is_ascii in Hb'. now rewrite Hb'.
Qed.

Lemma not_ascii_enc_longer (s : list Z) :
  Forall nonzero_byte s -> forallb is_ascii s = false ->
  (length s < length (enc s))%nat.
Proof.
  induction 1 as [| b s Hb Hs IH]; [discriminate |].
  cbn [forallb enc flat_map]. fold (enc s). rewrite length_app.
  rewrite (enc1_double_encoded b Hb). unfold double_encoded, is_ascii.
  pose proof (enc_length_ge s Hs) as Hge.
  destruct (b <? 128); cbn [andb length].
  - intros H. specialize (IH H). lia.
  - intros _. lia.
Qed.

(** The buffer after the second loop of [StringToUnicode]. *)
Lemma StringToUnicode_buffer (s : list Z) (k : nat) :
  Forall nonzero_byte s ->
  encode_loop s 0 k
    (poke (Resize (Z.to_nat (Z.of_nat (length (enc s)) + 1)) [])
          (length (Resize (Z.to_nat (Z.of_nat (length (enc s)) + 1)) []) - 1)
          0)
  = enc s ++ [0].
Proof.
  intros Hs. unfold Resize. rewrite firstn_nil. cbn [app length].
  rewrite Nat.sub_0_r, poke_repeat_0.
  replace (Z.to_nat (Z.of_nat (length (enc s)) + 1))
    with (length (enc s) + 1)%nat by lia.
  rewrite repeat_app. cbn [repeat].
  apply (encode_loop_fills s Hs [] (repeat 0 (length (enc s))) [0]).
  apply repeat_length.
Qed.

Lemma StringToUnicode_cases (s out0 : list Z) :
  Forall nonzero_byte s ->
  StringToUnicode s (-1) out0
  = if forallb is_ascii s then (ArgPtr 0, [])
    else (OutPtr 0, enc s ++ [0]).
Proof.
  intros Hs. unfold StringToUnicode.
  rewrite (count_loop_all s Hs). cbn [Z.add].
  destruct (forallb is_ascii s) eqn:Hascii.
  - rewrite (ascii_enc s Hs Hascii), Z.eqb_refl. reflexivity.
  - pose proof (not_ascii_enc_longer s Hs Hascii) as Hlen.
    replace (Z.of_nat (length (enc s)) =? Z.of_nat (length s)) with false
      by (symmetry; apply Z.eqb_neq; lia).
    now rewrite StringToUnicode_buffer.
Qed.

(** Decoding the stored form out of the document into the buffer. *)
Lemma decode_loop_document (rest : list Z) :
  Forall nonzero_byte rest ->
  forall fuel seen done zs,
    (length rest < fuel)%nat ->
    (length rest < length zs)%nat ->
    exists junk,
      decode_loop fuel (seen ++ enc rest) (done ++ zs)
                  (ArgPtr (length seen)) (length done)
      = Some (done ++ rest ++ 0 :: junk).
Proof.
  induction 1 as [| ch rest Hb _ IH]; intros fuel seen done zs Hfuel Hzs;
    (destruct fuel as [| fuel]; [cbn in Hfuel; lia |]); cbn [decode_loop];
    (destruct zs as [| z zs]; [cbn in Hzs; lia |]).
  - unfold load. rewrite peek_app_at. cbn [enc flat_map peek nth Z.eqb].
    rewrite poke_app_here. now exists zs.
  - assert (Hsrc : forall j, (j < length (enc1 ch))%nat ->
               load (seen ++ enc (ch :: rest)) (done ++ z :: zs)
                    (ArgPtr (length seen)) j
               = nth j (enc1 ch) 0).
    { intros j Hj. unfold load. rewrite peek_app_at.
      cbn [enc flat_map]. unfold peek. now rewrite app_nth1. }
    rewrite (Hsrc 0%nat) by (apply enc1_nonempty; assumption).
    assert (Hnz : nth 0 (enc1 ch) 0 <> 0).
    { destruct (enc1_shape ch Hb)
        as [(_ & -> & _) | (_ & b0 & b1 & -> & ? & _)];
        cbn; [destruct Hb; lia | assumption]. }
    apply Z.eqb_neq in Hnz. rewrite Hnz.
    rewrite (utf8_decode_enc1 ch _ Hb Hsrc).
    replace ((ch <? 0) || (255 <? ch)) with false
      by (symmetry; apply orb_false_iff; split;
          [apply Z.ltb_ge | apply Z.ltb_ge]; destruct Hb; lia).
    rewrite poke_app_here. cbn [advance enc flat_map]. fold (enc rest).
    replace (seen ++ enc1 ch ++ enc rest)
      with ((seen ++ enc1 ch) ++ enc rest) by now rewrite app_assoc.
    replace (done ++ ch :: zs) with ((done ++ [ch]) ++ zs)
      by now rewrite <- app_assoc.
    replace (length seen + length (enc1 ch))%nat
      with (length (seen ++ enc1 ch)) by now rewrite length_app.
    replace (S (length done)) with (length (done ++ [ch]))
      by (rewrite length_app; cbn; lia).
    destruct (IH fuel (seen ++ enc1 ch) (done ++ [ch]) zs) as [junk Hj];
      [cbn in Hfuel; lia | cbn in Hzs; lia |].
    exists junk. rewrite Hj, <- app_assoc. reflexivity.
Qed.

End StoredStringFacts.

Section StoredStringClaims.
Import Strings StoredStrings.
Local Open Scope Z_scope.

(** What [StringToUnicode] returns for a string without a size limit: a
    string of bytes below 128 comes back as the caller's own pointer, with
    nothing copied; any other string is in the static buffer with every
    byte from 128 on replaced by the two bytes 192 + b / 64, 128 + b mod 64,
    and a NUL at the end. *)
Theorem StringToUnicode_result (s out0 : list Z) :
  Forall nonzero_byte s ->
  StringToUnicode s (-1) out0
  = (if forallb is_ascii s then (ArgPtr 0, [])
     else (OutPtr 0, flat_map double_encoded s ++ [0])) /\
  stored_form s out0 = flat_map double_encoded s.
Proof.
  intros Hs. rewrite <- (enc_double_encoded s Hs). split.
  - now apply StringToUnicode_cases.
  - unfold stored_form. rewrite (StringToUnicode_cases s out0 Hs).
    destruct (forallb is_ascii s) eqn:Hascii; cbn [string_at skipn].
    + rewrite (ascii_enc s Hs Hascii). unfold cstring.
      rewrite strlen_no_nul by now apply nonzero_byte_neq.
      apply firstn_all.
    + apply cstring_app_nul. now apply enc_nonzero.
Qed.

Lemma StringToUnicode_result_witness :
  StringToUnicode [72; 228; 108; 255; 1] (-1) [9; 9]
  = (if forallb is_ascii [72; 228; 108; 255; 1] then (ArgPtr 0, [])
     else (OutPtr 0, flat_map double_encoded [72; 228; 108; 255; 1] ++ [0])) /\
  stored_form [72; 228; 108; 255; 1] [9; 9]
  = flat_map double_encoded [72; 228; 108; 255; 1].
Proof.
  apply (StringToUnicode_result [72; 228; 108; 255; 1] [9; 9]).
  repeat constructor; unfold nonzero_byte; lia.
Defined.

(** A string goes through a document unharmed: the form the writer stores,
    copied into the document and decoded from there by [UnicodeToString],
    is the original string, whatever the static buffer held at the time of
    writing and at the time of reading. *)
Theorem stored_string_restored (s out0 out1 : list Z) :
  Forall nonzero_byte s ->
  restored (stored_form s out0) out1 = Some s.
Proof.
  intros Hs.
  destruct (StringToUnicode_result s out0 Hs) as [_ ->].
  rewrite <- (enc_double_encoded s Hs).
  unfold restored, UnicodeToString, strlen_at. cbn [skipn].
  rewrite strlen_no_nul by now apply enc_nonzero.
  pose proof (enc_length_ge s Hs) as Hge.
  destruct (decode_loop_document s Hs (S (length (enc s))) [] []
              (Resize (length (enc s) + 1) out1)) as [junk Hj].
  - lia.
  - unfold Resize. rewrite length_app, repeat_length.
    destruct (Nat.le_ge_cases (length (enc s) + 1) (length out1)) as [H | H].
    + rewrite firstn_length_le by exact H. lia.
    + rewrite firstn_all2 by exact H. lia.
  - cbn [app length] in Hj. rewrite Hj. cbn [string_at skipn].
    f_equal. apply cstring_app_nul. now apply nonzero_byte_neq.
Qed.

Lemma stored_string_restored_witness :
  restored (stored_form [72; 228; 108; 255; 1] [9; 9]) [7; 7; 7]
  = Some [72; 228; 108; 255; 1].
Proof.
  apply (stored_string_restored [72; 228; 108; 255; 1] [9; 9] [7; 7; 7]).
  repeat constructor; unfold nonzero_byte; lia.
Defined.

End StoredStringClaims.
(** * Stopping, relinking and evicting channels *)

Section ControlFacts.
Import Rolloff Sound SoundControl.
Local Open Scope Z_scope.

Context {BS : Type}.
Variable GSnd : SoundRenderer BS.
Variable ptr_of_point : FVector3 -> Z.
Variable point_of_ptr : Z -> FVector3.

(** The channel [c] stands in the active list between [done] and [next]. *)
Local Abbreviation active st done c next :=
  (Channels st = done ++ c :: next /\
   NoDup (map Addr (done ++ c :: next))).

Lemma active_deref (st : SoundEngine BS) (done next : list FSoundChan)
    (c : FSoundChan) :
  active st done c next -> deref st (Addr c) = Some c.
Proof.
  intros [Hch Hnd]. unfold deref. rewrite Hch.
  now rewrite (find_chan_middle done c next Hnd).
Qed.

Lemma assign_active (st : SoundEngine BS) (done next : list FSoundChan)
    (c : FSoundChan) (f : FSoundChan -> FSoundChan) :
  Addr (f c) = Addr c ->
  active st done c next ->
  active (assign st (Addr c) f) done (f c) next.
Proof.
  intros Hf [Hch Hnd]. split.
  - unfold assign. cbn [Channels set_Channels set_FreeChannels].
    rewrite Hch. now apply update_chan_middle.
  - rewrite map_app in *. cbn [map] in *. now rewrite Hf.
Qed.

Lemma ReturnChannel_active (st : SoundEngine BS)
    (done next : list FSoundChan) (c : FSoundChan) :
  active st done c next ->
  Channels (ReturnChannel st (Addr c)) = done ++ next.
Proof.
  intros [Hch Hnd]. unfold ReturnChannel, UnlinkChannel.
  cbn [Channels set_Channels set_FreeChannels].
  rewrite Hch. now apply remove_chan_middle.
Qed.

Lemma ChannelEnded_active (st : SoundEngine BS)
    (done next : list FSoundChan) (c : FSoundChan) :
  active st done c next ->
  Channels (ChannelEnded GSnd st (Some (Addr c)))
  = done ++ (if ended_evicted GSnd st c
             then [set_SysChannel
                     (set_ChanFlags c (Z.lor (ChanFlags c) CHAN_EVICTED)) 0]
             else []) ++ next.
Proof.
  intros Ha. unfold ChannelEnded. rewrite (active_deref _ _ _ _ Ha).
  destruct (ended_evicted GSnd st c); cbn [negb app].
  - apply (assign_active st done next c); [reflexivity | exact Ha].
  - now apply ReturnChannel_active.
Qed.

Lemma ended_evicted_state (st : SoundEngine BS) (bs : BS) (c : FSoundChan) :
  has (ChanFlags c) CHAN_FORGETTABLE = true
  \/ has (ChanFlags c) CHAN_EVICTED = true ->
  ended_evicted GSnd (set_GSndState st bs) c
  = negb (has (ChanFlags c) CHAN_FORGETTABLE).
Proof.
  intros H. unfold ended_evicted.
  destruct (has (ChanFlags c) CHAN_FORGETTABLE) eqn:Hf; [reflexivity |].
  destruct H as [H | H]; [discriminate |].
  now rewrite has_lor_mask, H, orb_true_r.
Qed.

(** [StopChannel] on a channel of the active list. *)
Lemma StopChannel_active (st : SoundEngine BS)
    (done next : list FSoundChan) (c : FSoundChan) :
  active st done c next ->
  Channels (StopChannel GSnd point_of_ptr st (Some (Addr c)))
  = done ++ after_stop c ++ next.
Proof.
  intros Ha. unfold StopChannel, after_stop.
  rewrite (active_deref _ _ _ _ Ha).
  destruct (SysChannel c =? 0) eqn:Hsys; cbn [negb andb app].
  { now apply ReturnChannel_active. }
  destruct (has (ChanFlags c) CHAN_EVICTED) eqn:Hev; cbn [negb andb].
  - rewrite (active_deref _ _ _ _ Ha). unfold backend_StopChannel.
    assert (Ha' : active (set_GSndState st
                            (GSnd_StopChannel GSnd (GSndState st) c))
                         done c next) by exact Ha.
    rewrite (ChannelEnded_active _ _ _ _ Ha').
    rewrite ended_evicted_state by now right.
    reflexivity.
  - set (f1 := fun c0 : FSoundChan =>
                 set_ChanFlags c0 (Z.lor (ChanFlags c0) CHAN_FORGETTABLE)).
    pose proof (assign_active st done next c f1 eq_refl Ha) as Ha1.
    assert (Hfg : forall x, has (ChanFlags (f1 x)) CHAN_FORGETTABLE = true)
      by (intros x; apply has_lor_same; discriminate).
    destruct (SourceType c =? SOURCE_Actor).
    + set (f2 := fun c0 : FSoundChan => set_Source point_of_ptr c0 0).
      pose proof (assign_active _ done next (f1 c) f2 eq_refl Ha1) as Ha2.
      change (Addr (f1 c)) with (Addr c) in Ha2.
      pose proof (active_deref _ _ _ _ Ha2) as Hd2.
      change (Addr (f2 (f1 c))) with (Addr c) in Hd2. rewrite Hd2.
      unfold backend_StopChannel.
      match goal with
      | |- Channels (ChannelEnded _ ?s _) = _ =>
          assert (Ha' : active s done (f2 (f1 c)) next) by exact Ha2
      end.
      rewrite (ChannelEnded_active _ _ _ _ Ha').
      rewrite ended_evicted_state by (left; apply Hfg).
      change (ChanFlags (f2 (f1 c))) with (ChanFlags (f1 c)).
      now rewrite Hfg.
    + pose proof (active_deref _ _ _ _ Ha1) as Hd1.
      change (Addr (f1 c)) with (Addr c) in Hd1. rewrite Hd1.
      unfold backend_StopChannel.
      match goal with
      | |- Channels (ChannelEnded _ ?s _) = _ =>
          assert (Ha' : active s done (f1 c) next) by exact Ha1
      end.
      rewrite (ChannelEnded_active _ _ _ _ Ha').
      rewrite ended_evicted_state by (left; apply Hfg).
      now rewrite Hfg.
Qed.

(** A channel replaced by at most one channel at its address. *)
Lemma NoDup_replaced (done next l : list FSoundChan) (c : FSoundChan) :
  NoDup (map Addr (done ++ c :: next)) ->
  Forall (fun c' => Addr c' = Addr c) l -> (length l <= 1)%nat ->
  NoDup (map Addr ((done ++ l) ++ next)).
Proof.
  intros Hnd Hl Hlen. rewrite <- app_assoc.
  destruct l as [| c' [| c'' l]]; [| | cbn in Hlen; lia].
  - cbn [app]. rewrite map_app in *. cbn [map] in Hnd.
    now apply NoDup_remove_1 in Hnd.
  - inversion Hl as [| ? ? He _]; subst.
    rewrite map_app in *. cbn [map app] in *. now rewrite He.
Qed.

Lemma after_stop_shape (c : FSoundChan) :
  Forall (fun c' => Addr c' = Addr c) (after_stop c) /\
  (length (after_stop c) <= 1)%nat.
Proof.
  unfold after_stop. destruct (_ && _); cbn; split; auto.
Qed.

(** A loop that visits the channels that were active when it started; each
    step leaves of the channel it visits what [R] allows. *)
Lemma visiting_loop (step : SoundEngine BS -> FSoundChan -> SoundEngine BS)
    (loop : SoundEngine BS -> list FSoundChan -> SoundEngine BS)
    (R : FSoundChan -> list FSoundChan -> Prop) :
  (forall st, loop st [] = st) ->
  (forall st chan next, loop st (chan :: next) = loop (step st chan) next) ->
  (forall c l, R c l ->
     Forall (fun c' => Addr c' = Addr c) l /\ (length l <= 1)%nat) ->
  (forall st done c next,
     active st done c next ->
     exists l, Channels (step st c) = done ++ l ++ next /\ R c l) ->
  forall chans st done,
    Channels st = done ++ chans ->
    NoDup (map Addr (done ++ chans)) ->
    exists ls,
      Channels (loop st chans) = done ++ concat ls /\ Forall2 R chans ls.
Proof.
  intros Hnil Hcons Hshape Hstep.
  induction chans as [| c next IH]; intros st done Hch Hnd.
  - exists []. rewrite Hnil. split; [exact Hch | constructor].
  - rewrite Hcons.
    destruct (Hstep st done c next (conj Hch Hnd)) as (l & Hl & HR).
    destruct (Hshape c l HR) as [Haddr Hlen].
    destruct (IH (step st c) (done ++ l)) as (ls & Hls & Hall).
    + now rewrite <- app_assoc.
    + now apply (NoDup_replaced done next l c).
    + exists (l :: ls). split; [| now constructor].
      rewrite Hls. cbn [concat]. now rewrite app_assoc.
Qed.

Lemma concat_visited (f : FSoundChan -> list FSoundChan)
    (chans : list FSoundChan) (ls : list (list FSoundChan)) :
  Forall2 (fun c l => l = f c) chans ls -> concat ls = flat_map f chans.
Proof.
  induction 1 as [| c l chans ls Hl _ IH]; [reflexivity |].
  cbn [concat flat_map]. now rewrite Hl, IH.
Qed.

End ControlFacts.
Section StoppingClaims.
Import Rolloff Sound SoundControl.
Local Open Scope Z_scope.

Context {BS : Type}.
Variable GSnd : SoundRenderer BS.
Variable GSnd_UpdateSounds : BS -> BS.
Variable ptr_of_point : FVector3 -> Z.
Variable point_of_ptr : Z -> FVector3.

Lemma after_stop_no_voice (chans : list FSoundChan) :
  Forall (fun c => SysChannel c = 0) (flat_map after_stop chans).
Proof.
  induction chans as [| c chans IH]; [constructor |].
  cbn [flat_map]. apply Forall_app. split; [| exact IH].
  unfold after_stop. destruct (_ && _); repeat constructor.
Qed.

Lemma after_stop_settled (c : FSoundChan) :
  (has (ChanFlags c) CHAN_EVICTED = true -> SysChannel c = 0) ->
  after_stop c = [].
Proof.
  intros H. unfold after_stop.
  destruct (SysChannel c =? 0) eqn:Hs; [reflexivity |].
  destruct (has (ChanFlags c) CHAN_EVICTED); [| reflexivity].
  apply Z.eqb_neq in Hs. now contradiction Hs; apply H.
Qed.

Lemma StopAllChannels_from_active (chans : list FSoundChan) :
  forall (st : SoundEngine BS) (done : list FSoundChan),
    Channels st = done ++ chans ->
    NoDup (map Addr (done ++ chans)) ->
    Channels (StopAllChannels_from GSnd point_of_ptr st chans)
    = done ++ flat_map after_stop chans.
Proof.
  intros st done Hch Hnd.
  destruct (visiting_loop
              (fun st c => StopChannel GSnd point_of_ptr st (Some (Addr c)))
              (StopAllChannels_from GSnd point_of_ptr)
              (fun c l => l = after_stop c))
    with (chans := chans) (st := st) (done := done) as (ls & Hls & Hall);
    try assumption; try reflexivity.
  - intros c l ->. apply after_stop_shape.
  - intros s d c n Ha. exists (after_stop c). split; [| reflexivity].
    now apply StopChannel_active.
  - now rewrite Hls, (concat_visited after_stop chans ls Hall).
Qed.

(** [StopAllChannels] leaves no voice: of the channels that were active,
    only those stay that held a voice while flagged evicted, and they are
    parked without it; when no channel was in that state the active list is
    empty afterwards. *)
Theorem StopAllChannels_leaves_no_voice (st : SoundEngine BS) :
  NoDup (map Addr (Channels st)) ->
  let st' := StopAllChannels GSnd GSnd_UpdateSounds point_of_ptr st in
  Channels st' = flat_map after_stop (Channels st) /\
  Forall (fun c => SysChannel c = 0) (Channels st') /\
  (settled (Channels st) -> Channels st' = []).
Proof.
  intros Hnd st'.
  assert (Hch : Channels st' = flat_map after_stop (Channels st)).
  { subst st'. unfold StopAllChannels. cbn [Channels set_GSndState].
    now rewrite (StopAllChannels_from_active (Channels st) st []). }
  split; [exact Hch |]. rewrite Hch. split.
  - apply after_stop_no_voice.
  - unfold settled. clear. induction 1 as [| c chans Hc _ IH]; [reflexivity |].
    cbn [flat_map]. now rewrite (after_stop_settled c Hc), IH.
Qed.

Lemma StopSound_source_from_active (sourcetype actor channel : Z)
    (chans : list FSoundChan) :
  forall (st : SoundEngine BS) (done : list FSoundChan),
    Channels st = done ++ chans ->
    NoDup (map Addr (done ++ chans)) ->
    Channels (StopSound_source_from GSnd point_of_ptr st chans
                                    sourcetype actor channel)
    = done ++ flat_map (fun c => if stop_test sourcetype actor channel c
                                 then after_stop c else [c]) chans.
Proof.
  intros st done Hch Hnd.
  set (visited := fun c => if stop_test sourcetype actor channel c
                           then after_stop c else [c]).
  destruct (visiting_loop
              (fun st chan =>
                 match deref st (Addr chan) with
                 | Some c =>
                     if stop_test sourcetype actor channel c
                     then StopChannel GSnd point_of_ptr st (Some (Addr chan))
                     else st
                 | None => st
                 end)
              (fun st chans => StopSound_source_from GSnd point_of_ptr st chans
                                 sourcetype actor channel)
              (fun c l => l = visited c))
    with (chans := chans) (st := st) (done := done) as (ls & Hls & Hall);
    try assumption; try reflexivity.
  - intros c l ->. unfold visited.
    destruct (stop_test sourcetype actor channel c);
      [apply after_stop_shape | cbn; split; auto].
  - intros s d c n Ha. exists (visited c). split; [| reflexivity].
    rewrite (active_deref _ _ _ _ Ha). unfold visited.
    destruct (stop_test sourcetype actor channel c).
    + now apply StopChannel_active.
    + apply Ha.
  - now rewrite Hls, (concat_visited visited chans ls Hall).
Qed.

(** The three-argument [StopSound] stops the channels of the emitter on the
    slot, on every slot for a negative [channel], and no other: the other
    channels stay as they are and in their order, and of the emitter's none
    holds a voice afterwards; none of them is left on the active list when
    no channel was flagged evicted while holding a voice. *)
Theorem StopSound_of_emitter (st : SoundEngine BS)
    (sourcetype actor channel : Z) :
  NoDup (map Addr (Channels st)) ->
  let st' := StopSound_source GSnd point_of_ptr st sourcetype actor channel in
  let mine := stop_test sourcetype actor channel in
  Channels st' = flat_map (fun c => if mine c then after_stop c else [c])
                          (Channels st) /\
  filter (fun c => negb (mine c)) (Channels st')
  = filter (fun c => negb (mine c)) (Channels st) /\
  Forall (fun c => mine c = true -> SysChannel c = 0) (Channels st') /\
  (settled (Channels st) -> Forall (fun c => mine c = false) (Channels st')).
Proof.
  intros Hnd st' mine.
  assert (Hch : Channels st'
                = flat_map (fun c => if mine c then after_stop c else [c])
                           (Channels st)).
  { subst st'. unfold StopSound_source.
    now rewrite (StopSound_source_from_active sourcetype actor channel
                   (Channels st) st []). }
  split; [exact Hch |]. rewrite Hch. clear Hch st' Hnd.
  split; [| split].
  - induction (Channels st) as [| c l IH]; [reflexivity |].
    cbn [flat_map]. rewrite filter_app, IH. cbn [filter].
    destruct (mine c) eqn:E; cbn [negb filter app]; [| now rewrite E].
    unfold after_stop. destruct (_ && _); cbn [filter app]; [| reflexivity].
    replace (mine (set_SysChannel
                     (set_ChanFlags c (Z.lor (ChanFlags c) CHAN_EVICTED)) 0))
      with (mine c) by reflexivity.
    now rewrite E.
  - induction (Channels st) as [| c l IH]; [constructor |].
    cbn [flat_map]. apply Forall_app. split; [| exact IH].
    destruct (mine c) eqn:E.
    + unfold after_stop. destruct (_ && _); repeat constructor.
    + repeat constructor. intros H. congruence.
  - unfold settled. induction 1 as [| c l Hc _ IH]; [constructor |].
    cbn [flat_map]. apply Forall_app. split; [| exact IH].
    destruct (mine c) eqn:E.
    + rewrite (after_stop_settled c Hc). constructor.
    + repeat constructor. exact E.
Qed.

End StoppingClaims.
Section RelinkClaims.
Import Rolloff Sound SoundControl.
Local Open Scope Z_scope.

Context {BS : Type}.
Variable GSnd : SoundRenderer BS.
Variable ptr_of_point : FVector3 -> Z.
Variable point_of_ptr : Z -> FVector3.

Lemma relinked_shape (to : Z) (optpos : option FVector3) (c : FSoundChan) :
  Forall (fun c' => Addr c' = Addr c)
         (relinked ptr_of_point point_of_ptr to optpos c) /\
  (length (relinked ptr_of_point point_of_ptr to optpos c) <= 1)%nat.
Proof.
  unfold relinked. destruct (negb (to =? 0)); [cbn; split; auto |].
  destruct optpos as [pos |]; [| apply after_stop_shape].
  destruct (negb (has (ChanFlags c) CHAN_LOOP));
    [cbn; split; auto | apply after_stop_shape].
Qed.

Lemma relink_one_active (st : SoundEngine BS) (done next : list FSoundChan)
    (c : FSoundChan) (to : Z) (optpos : option FVector3) :
  Channels st = done ++ c :: next ->
  NoDup (map Addr (done ++ c :: next)) ->
  Channels (relink_one GSnd ptr_of_point point_of_ptr st (Addr c) c to optpos)
  = done ++ relinked ptr_of_point point_of_ptr to optpos c ++ next.
Proof.
  intros Hch Hnd. unfold relink_one, relinked.
  destruct (negb (to =? 0)).
  { apply (assign_active st done next c); [reflexivity | now split]. }
  destruct optpos as [pos |];
    [| now apply StopChannel_active].
  destruct (negb (has (ChanFlags c) CHAN_LOOP)).
  - apply (assign_active st done next c); [reflexivity | now split].
  - now apply StopChannel_active.
Qed.

Lemma RelinkSound_from_active (sourcetype from to : Z)
    (optpos : option FVector3) (chans : list FSoundChan) :
  forall (st : SoundEngine BS) (done : list FSoundChan),
    Channels st = done ++ chans ->
    NoDup (map Addr (done ++ chans)) ->
    Channels (RelinkSound_from GSnd ptr_of_point point_of_ptr st chans
                               sourcetype from to optpos)
    = done ++ flat_map (fun c => if emitted_by sourcetype from c
                                 then relinked ptr_of_point point_of_ptr
                                               to optpos c
                                 else [c]) chans.
Proof.
  intros st done Hch Hnd.
  set (visited := fun c => if emitted_by sourcetype from c
                           then relinked ptr_of_point point_of_ptr to optpos c
                           else [c]).
  destruct (visiting_loop
              (fun st chan =>
                 match deref st (Addr chan) with
                 | Some c =>
                     if (SourceType c =? sourcetype) && (Source c =? from)
                     then relink_one GSnd ptr_of_point point_of_ptr st
                                     (Addr chan) c to optpos
                     else st
                 | None => st
                 end)
              (fun st chans =>
                 RelinkSound_from GSnd ptr_of_point point_of_ptr st chans
                                  sourcetype from to optpos)
              (fun c l => l = visited c))
    with (chans := chans) (st := st) (done := done) as (ls & Hls & Hall);
    try assumption; try reflexivity.
  - intros c l ->. unfold visited.
    destruct (emitted_by sourcetype from c);
      [apply relinked_shape | cbn; split; auto].
  - intros s d c n Ha. exists (visited c). split; [| reflexivity].
    rewrite (active_deref _ _ _ _ Ha). unfold visited, emitted_by.
    destruct ((SourceType c =? sourcetype) && (Source c =? from)).
    + now apply relink_one_active.
    + apply Ha.
  - now rewrite Hls, (concat_visited visited chans ls Hall).
Qed.

(** [RelinkSound] does nothing for a null [from].  Otherwise the channels
    of other emitters stay as they are; with a destination every channel of
    the emitter is handed to it and none is lost; without one, the
    channels that do not loop become unattached sounds at [optpos] when it
    is given, and all others of the emitter are stopped. *)
Theorem RelinkSound_moves_emitter (st : SoundEngine BS)
    (sourcetype from to : Z) (optpos : option FVector3) :
  NoDup (map Addr (Channels st)) ->
  let st' := RelinkSound GSnd ptr_of_point point_of_ptr st sourcetype from to
                         optpos in
  (from = 0 -> st' = st) /\
  (from <> 0 ->
   Channels st'
   = flat_map (fun c => if emitted_by sourcetype from c
                        then relinked ptr_of_point point_of_ptr to optpos c
                        else [c]) (Channels st)) /\
  (from <> 0 -> to <> 0 ->
   Channels st'
   = map (fun c => if emitted_by sourcetype from c
                   then set_Source point_of_ptr c to else c) (Channels st) /\
   (to <> from ->
    Forall (fun c => emitted_by sourcetype from c = false) (Channels st'))).
Proof.
  intros Hnd st'.
  assert (Hch : from <> 0 ->
                Channels st'
                = flat_map (fun c => if emitted_by sourcetype from c
                                     then relinked ptr_of_point point_of_ptr
                                                   to optpos c
                                     else [c]) (Channels st)).
  { intros Hfrom. subst st'. unfold RelinkSound.
    apply Z.eqb_neq in Hfrom. rewrite Hfrom.
    now rewrite (RelinkSound_from_active sourcetype from to optpos
                   (Channels st) st []). }
  split; [| split].
  - intros ->. reflexivity.
  - exact Hch.
  - intros Hfrom Hto. rewrite (Hch Hfrom). clear Hch st' Hnd.
    assert (Hrel : forall c, relinked ptr_of_point point_of_ptr to optpos c
                             = [set_Source point_of_ptr c to]).
    { intros c. unfold relinked. apply Z.eqb_neq in Hto. now rewrite Hto. }
    split.
    + induction (Channels st) as [| c l IH]; [reflexivity |].
      cbn [flat_map map]. rewrite IH, Hrel.
      now destruct (emitted_by sourcetype from c).
    + intros Hne. induction (Channels st) as [| c l IH]; [constructor |].
      cbn [flat_map]. apply Forall_app. split; [| exact IH].
      destruct (emitted_by sourcetype from c) eqn:E.
      * rewrite Hrel. repeat constructor. unfold emitted_by.
        cbn [SourceType Source set_Source].
        replace (to =? from) with false by (symmetry; now apply Z.eqb_neq).
        apply andb_false_r.
      * repeat constructor. exact E.
Qed.

End RelinkClaims.
Section EvictFacts.
Import Rolloff Sound SoundControl.
Local Open Scope Z_scope.

Context {BS : Type}.
Variable GSnd : SoundRenderer BS.
Variable point_of_ptr : Z -> FVector3.

Lemma same_sound_refl (c : FSoundChan) : same_sound c c.
Proof. unfold same_sound. repeat split. Qed.

Lemma evicted_as_shape (c : FSoundChan) (l : list FSoundChan) :
  evicted_as c l ->
  Forall (fun c' => Addr c' = Addr c) l /\ (length l <= 1)%nat.
Proof.
  unfold evicted_as. destruct (kept_evicted c).
  - intros (c' & -> & Hs & _). destruct Hs as [Ha _].
    cbn. split; auto.
  - intros ->. cbn. split; auto.
Qed.

Lemma evict_one_active (st : SoundEngine BS) (done next : list FSoundChan)
    (c : FSoundChan) :
  Channels st = done ++ c :: next ->
  NoDup (map Addr (done ++ c :: next)) ->
  exists l,
    Channels (evict_one GSnd point_of_ptr st (Addr c) c) = done ++ l ++ next /\
    evicted_as c l.
Proof.
  intros Hch Hnd. pose proof (conj Hch Hnd) as Ha.
  unfold evict_one, evicted_as, kept_evicted.
  destruct (has (ChanFlags c) CHAN_EVICTED) eqn:Hev; cbn [negb orb].
  { exists [c]. split; [exact Hch |]. exists c.
    split; [reflexivity |]. split; [apply same_sound_refl |].
    split; [exact Hev |]. split; [discriminate | reflexivity]. }
  set (f1 := fun c0 : FSoundChan =>
               set_ChanFlags c0 (Z.lor (ChanFlags c0) CHAN_EVICTED)).
  pose proof (assign_active st done next c f1 eq_refl Ha) as Ha1.
  pose proof (active_deref _ _ _ _ Ha1) as Hd1.
  change (Addr (f1 c)) with (Addr c) in Hd1. rewrite Hd1.
  change (SysChannel (f1 c)) with (SysChannel c).
  assert (Hev1 : has (ChanFlags (f1 c)) CHAN_EVICTED = true)
    by (apply has_lor_same; discriminate).
  destruct (SysChannel c =? 0) eqn:Hsys; cbn [negb orb].
  { exists [f1 c]. split; [apply Ha1 |]. exists (f1 c).
    split; [reflexivity |]. split; [unfold same_sound; repeat split |].
    split; [exact Hev1 |]. split; [| discriminate].
    intros _. now apply Z.eqb_eq. }
  set (st1 := assign st (Addr c) f1) in *.
  assert (Hstop : forall (s : SoundEngine BS) (c2 : FSoundChan),
            Channels s = done ++ c2 :: next ->
            NoDup (map Addr (done ++ c2 :: next)) ->
            Addr c2 = Addr c -> SysChannel c2 = SysChannel c ->
            has (ChanFlags c2) CHAN_EVICTED = true ->
            has (ChanFlags c2) CHAN_FORGETTABLE
            = has (ChanFlags c) CHAN_FORGETTABLE ->
            same_sound c c2 ->
            exists l,
              Channels (StopChannel GSnd point_of_ptr s (Some (Addr c)))
              = done ++ l ++ next /\
              (if negb (has (ChanFlags c) CHAN_FORGETTABLE)
               then exists c', l = [c'] /\ same_sound c c' /\
                      has (ChanFlags c') CHAN_EVICTED = true /\
                      (false = false -> SysChannel c' = 0) /\
                      (false = true -> c' = c)
               else l = [])).
  { intros s c2 Hs Hn Haddr Hsc He2 Hf2 Hsame.
    exists (after_stop c2). rewrite <- Haddr.
    split; [now apply StopChannel_active |].
    unfold after_stop. rewrite Hsc, Hsys, He2, Hf2. cbn [negb andb].
    destruct (has (ChanFlags c) CHAN_FORGETTABLE); cbn [negb];
      [reflexivity |].
    eexists. split; [reflexivity |].
    split; [exact Hsame |].
    split; [apply has_lor_same; discriminate |].
    split; [reflexivity | discriminate]. }
  assert (Hf1 : has (ChanFlags (f1 c)) CHAN_FORGETTABLE
                = has (ChanFlags c) CHAN_FORGETTABLE).
  { unfold f1. cbn [ChanFlags set_ChanFlags]. rewrite has_lor_flags.
    change (has CHAN_EVICTED CHAN_FORGETTABLE) with false.
    apply orb_false_r. }
  destruct (has (ChanFlags (f1 c)) CHAN_ABSTIME); cbn [negb].
  - apply (Hstop st1 (f1 c)); try reflexivity; try apply Ha1;
      try assumption.
    unfold same_sound; repeat split.
  - set (pos := GSnd_GetPosition GSnd (GSndState st1) (f1 c)).
    set (f2 := fun c0 : FSoundChan =>
                 set_ChanFlags (set_StartTime c0 pos)
                               (Z.lor (ChanFlags c0) CHAN_ABSTIME)).
    pose proof (assign_active st1 done next (f1 c) f2 eq_refl Ha1) as Ha2.
    change (Addr (f1 c)) with (Addr c) in Ha2.
    apply (Hstop _ (f2 (f1 c))); try reflexivity; try apply Ha2.
    + unfold f2. cbn [ChanFlags set_ChanFlags]. rewrite has_lor_flags.
      fold (f1 c). now rewrite Hev1.
    + unfold f2. cbn [ChanFlags set_ChanFlags set_StartTime].
      rewrite has_lor_flags. fold (f1 c). rewrite Hf1.
      change (has CHAN_ABSTIME CHAN_FORGETTABLE) with false.
      apply orb_false_r.
    + unfold same_sound; repeat split.
Qed.

Lemma EvictAllChannels_from_active (chans : list FSoundChan) :
  forall (st : SoundEngine BS) (done : list FSoundChan),
    Channels st = done ++ chans ->
    NoDup (map Addr (done ++ chans)) ->
    exists ls,
      Channels (EvictAllChannels_from GSnd point_of_ptr st chans)
      = done ++ concat ls /\
      Forall2 evicted_as chans ls.
Proof.
  intros st done Hch Hnd.
  apply (visiting_loop
           (fun st chan =>
              match deref st (Addr chan) with
              | Some c => evict_one GSnd point_of_ptr st (Addr chan) c
              | None => st
              end)
           (EvictAllChannels_from GSnd point_of_ptr) evicted_as);
    try assumption; try reflexivity.
  - apply evicted_as_shape.
  - intros s d c n Ha. rewrite (active_deref _ _ _ _ Ha).
    apply evict_one_active; apply Ha.
Qed.

End EvictFacts.

Section EvictClaims.
Import Rolloff Sound SoundControl.
Local Open Scope Z_scope.

Context {BS : Type}.
Variable GSnd : SoundRenderer BS.
Variable point_of_ptr : Z -> FVector3.

(** [EvictAllChannels] leaves every active channel flagged evicted.  The
    channels it drops are those that held a voice, were not flagged
    evicted and were forgettable; every other channel stays in its place
    with what is needed to restart its sound, and, if it was not flagged
    evicted before, without its voice; so when no channel was flagged
    evicted while holding a voice, none holds a voice afterwards. *)
Theorem EvictAllChannels_keeps_what_restarts (st : SoundEngine BS) :
  NoDup (map Addr (Channels st)) ->
  let st' := EvictAllChannels GSnd point_of_ptr st in
  Forall (fun c => has (ChanFlags c) CHAN_EVICTED = true) (Channels st') /\
  Forall2 same_sound (filter kept_evicted (Channels st)) (Channels st') /\
  (settled (Channels st) ->
   Forall (fun c => SysChannel c = 0) (Channels st')).
Proof.
  intros Hnd st'.
  destruct (EvictAllChannels_from_active GSnd point_of_ptr (Channels st) st []
              eq_refl Hnd) as (ls & Hls & Hall).
  subst st'. unfold EvictAllChannels. rewrite Hls. cbn [app].
  clear Hls Hnd. split; [| split].
  - induction Hall as [| c l chans ls Hc _ IH]; [constructor |].
    cbn [concat]. apply Forall_app. split; [| exact IH].
    unfold evicted_as in Hc. destruct (kept_evicted c).
    + destruct Hc as (c' & -> & _ & He & _). now repeat constructor.
    + subst l. constructor.
  - induction Hall as [| c l chans ls Hc _ IH]; [constructor |].
    cbn [concat filter]. unfold evicted_as in Hc.
    destruct (kept_evicted c).
    + destruct Hc as (c' & -> & Hs & _). cbn [app]. now constructor.
    + subst l. exact IH.
  - unfold settled. intros Hset.
    induction Hall as [| c l chans ls Hc _ IH]; [constructor |].
    inversion Hset as [| ? ? Hsc Hset']; subst.
    cbn [concat]. apply Forall_app. split; [| now apply IH].
    unfold evicted_as in Hc. destruct (kept_evicted c).
    + destruct Hc as (c' & -> & _ & _ & Hno & Hsame).
      repeat constructor.
      destruct (has (ChanFlags c) CHAN_EVICTED) eqn:E.
      * rewrite (Hsame eq_refl). now apply Hsc.
      * now apply Hno.
    + subst l. constructor.
Qed.

End EvictClaims.
(** * The channel pool *)

Section PoolFacts.
Import Rolloff Sound SoundControl.
Local Open Scope Z_scope.

Context {BS : Type}.
Variable GSnd : SoundRenderer BS.
Variable point_of_ptr : Z -> FVector3.

Lemma map_Addr_update_chan (a : nat) (f : FSoundChan -> FSoundChan)
    (l : list FSoundChan) :
  (forall x, Addr (f x) = Addr x) ->
  map Addr (update_chan a f l) = map Addr l.
Proof.
  intros Hf. unfold update_chan. rewrite map_map. apply map_ext.
  intros c. now destruct (at_addr a c).
Qed.

Lemma map_Addr_remove_chan (a : nat) (l : list FSoundChan) :
  map Addr (remove_chan a l)
  = filter (fun x => negb (x =? a)%nat) (map Addr l).
Proof.
  unfold remove_chan, at_addr. induction l as [| c l IH]; [reflexivity |].
  cbn [filter map]. destruct (Addr c =? a)%nat; cbn [negb map];
    now rewrite IH.
Qed.

Lemma assign_well_formed (st : SoundEngine BS) (a : nat)
    (f : FSoundChan -> FSoundChan) :
  (forall x, Addr (f x) = Addr x) ->
  well_formed st -> well_formed (assign st a f).
Proof.
  intros Hf [Hnd Hlt]. unfold well_formed, assign.
  cbn [Channels FreeChannels allocated set_Channels set_FreeChannels].
  rewrite map_app, !map_Addr_update_chan, <- map_app by exact Hf.
  split; [exact Hnd |].
  rewrite Forall_forall in *. intros c Hin.
  assert (Hc : In (Addr c) (map Addr (Channels st ++ FreeChannels st))).
  { rewrite map_app, <- (map_Addr_update_chan a f (Channels st) Hf),
            <- (map_Addr_update_chan a f (FreeChannels st) Hf), <- map_app.
    now apply in_map. }
  apply in_map_iff in Hc. destruct Hc as (x & Hx & Hxin).
  rewrite <- Hx. now apply Hlt.
Qed.

Lemma ReturnChannel_well_formed (st : SoundEngine BS) (a : nat) :
  (a < allocated st)%nat ->
  well_formed st -> well_formed (ReturnChannel st a).
Proof.
  intros Ha [Hnd Hlt]. unfold well_formed, ReturnChannel, UnlinkChannel.
  cbn [Channels FreeChannels allocated set_Channels set_FreeChannels].
  set (keep := fun x => negb (x =? a)%nat).
  assert (Hrest : map Addr (remove_chan a (Channels st)
                            ++ remove_chan a (FreeChannels st))
                  = filter keep (map Addr (Channels st ++ FreeChannels st))).
  { now rewrite !map_app, filter_app, !map_Addr_remove_chan. }
  split.
  - eapply Permutation_NoDup.
    + rewrite map_app. cbn [map]. apply Permutation_middle.
    + rewrite <- map_app, Hrest. cbn [Addr zeroed]. constructor.
      * intros Hin. apply filter_In in Hin. destruct Hin as [_ Hk].
        unfold keep in Hk. now rewrite Nat.eqb_refl in Hk.
      * now apply NoDup_filter.
  - apply Forall_app. apply Forall_app in Hlt. destruct Hlt as [H1 H2].
    split; [| constructor; [exact Ha |]]; unfold remove_chan;
      apply Forall_forall; intros c Hin; apply filter_In in Hin;
      destruct Hin as [Hin _];
      [rewrite Forall_forall in H1; now apply H1
      | rewrite Forall_forall in H2; now apply H2].
Qed.

Lemma deref_allocated (st : SoundEngine BS) (a : nat) (c : FSoundChan) :
  well_formed st -> deref st a = Some c ->
  Addr c = a /\ (a < allocated st)%nat.
Proof.
  intros [_ Hlt] Hd. unfold deref, find_chan in Hd.
  rewrite Forall_forall in Hlt.
  assert (H : In c (Channels st ++ FreeChannels st) /\ at_addr a c = true).
  { destruct (find (at_addr a) (Channels st)) eqn:E.
    - inversion Hd; subst. apply find_some in E.
      split; [apply in_or_app; left |]; apply E.
    - apply find_some in Hd.
      split; [apply in_or_app; right |]; apply Hd. }
  destruct H as [Hin Hat]. unfold at_addr in Hat. apply Nat.eqb_eq in Hat.
  split; [exact Hat |]. rewrite <- Hat. now apply Hlt.
Qed.

Lemma set_GSndState_well_formed (st : SoundEngine BS) (bs : BS) :
  well_formed st -> well_formed (set_GSndState st bs).
Proof. intros H. exact H. Qed.

Lemma ChannelEnded_well_formed (st : SoundEngine BS) (ichan : option nat) :
  well_formed st -> well_formed (ChannelEnded GSnd st ichan).
Proof.
  intros Hwf. unfold ChannelEnded. destruct ichan as [a |]; [| exact Hwf].
  destruct (deref st a) as [c |] eqn:Hd; [| exact Hwf].
  destruct (deref_allocated st a c Hwf Hd) as [_ Ha].
  destruct (negb (ended_evicted GSnd st c)).
  - now apply ReturnChannel_well_formed.
  - now apply assign_well_formed.
Qed.

Lemma StopChannel_well_formed (st : SoundEngine BS) (chan : option nat) :
  well_formed st -> well_formed (StopChannel GSnd point_of_ptr st chan).
Proof.
  intros Hwf. unfold StopChannel. destruct chan as [a |]; [| exact Hwf].
  destruct (deref st a) as [c |] eqn:Hd; [| exact Hwf].
  destruct (deref_allocated st a c Hwf Hd) as [_ Ha].
  destruct (negb (SysChannel c =? 0));
    [| now apply ReturnChannel_well_formed].
  match goal with
  | |- well_formed (match deref ?s a with _ => _ end) =>
      assert (Hs : well_formed s)
  end.
  { destruct (negb (has (ChanFlags c) CHAN_EVICTED)); [| exact Hwf].
    destruct (SourceType c =? SOURCE_Actor);
      repeat (apply assign_well_formed; [reflexivity |]); exact Hwf. }
  match goal with
  | |- well_formed (match deref ?s a with _ => _ end) =>
      destruct (deref s a) as [c' |]; [| exact Hs]
  end.
  unfold backend_StopChannel. apply ChannelEnded_well_formed. exact Hs.
Qed.

End PoolFacts.
Section StartInvariant.
Import Rolloff Sound SoundControl.
Local Open Scope Z_scope.

Context {BS : Type}.
Variable GSnd : SoundRenderer BS.
Variable client : SoundClient.
Variable rand_value : nat -> Z.
Variable ptr_of_point : FVector3 -> Z.
Variable point_of_ptr : Z -> FVector3.

Lemma StartSound_check_returns (fuel : nat) (st : SoundEngine BS)
    (type source : Z) (pt : option FVector3) (channel sound_id : Z)
    (volume attenuation : Q) (forcedrolloff : option (FRolloffInfo Q))
    (spitch : Q) (r : option nat) (st' : SoundEngine BS) :
  StartSound_check client rand_value fuel st type source pt channel sound_id
                   volume attenuation forcedrolloff spitch
  = inl (Returns r st') ->
  r = None /\ st' = st.
Proof.
  unfold StartSound_check.
  destruct (_ || _); [intros [= <- <-]; now split |].
  destruct (client_CalcPosVel client _ source pt _ _) as [pos vel].
  destruct (negb _); [intros [= <- <-]; now split |].
  destruct (Qle_bool _ 0); [intros [= <- <-]; now split |].
  destruct (resolve_links rand_value fuel st sound_id attenuation _ _ _)
    as [[[[[[st0 id'] att'] nl'] lr'] ro'] |]; discriminate.
Qed.

Lemma StartSound_select_well_formed (st : SoundEngine BS) (l : Locals) :
  well_formed st ->
  match StartSound_select GSnd client rand_value point_of_ptr st l with
  | inl (Returns r st') => r = None /\ well_formed st'
  | inl NoReturn => True
  | inr (st2, _) => well_formed st2
  end.
Proof.
  intros Hwf. unfold StartSound_select.
  destruct (_ =? CHAN_EVICTED); [now split |].
  pose proof (LoadSound_same GSnd client st (l_sfx l)) as Hload.
  destruct (LoadSound GSnd client st (l_sfx l)) as [st0 sfx].
  cbn [fst] in Hload.
  pose proof (well_formed_same _ _ Hload Hwf) as Hwf0.
  destruct (lumpnum _ =? _); [now split |].
  destruct (select_channel st0 _ _ _) as [[k seen] |]; [| now split].
  match goal with
  | |- context [let '(_, _) := ?x in _] => destruct x as [stop seen']
  end.
  match goal with
  | |- context [SoundPaused ?s] => assert (Hs : well_formed s)
  end.
  { destruct stop; [now apply StopChannel_well_formed | exact Hwf0]. }
  destruct (_ && _ && SoundPaused _); [now split |].
  destruct (negb (l_pitchmask l =? 0)); unfold rand; exact Hs.
Qed.

End StartInvariant.

Section PoolClaims.
Import Rolloff Sound SoundControl.
Local Open Scope Z_scope.

Context {BS : Type}.
Variable GSnd : SoundRenderer BS.
Variable client : SoundClient.
Variable rand_value : nat -> Z.
Variable ptr_of_point : FVector3 -> Z.
Variable point_of_ptr : Z -> FVector3.

(** [StartSound] keeps the two channel lists in order: when it returns,
    the channels of the active and the free list are still distinct
    objects, all of them allocated by the engine, and a channel it returns
    is the head of the active list. *)
Theorem StartSound_keeps_lists (fuel : nat) (st st' : SoundEngine BS)
    (type source : Z) (pt : option FVector3) (channel sound_id : Z)
    (volume attenuation : Q) (forcedrolloff : option (FRolloffInfo Q))
    (spitch : Q) (r : option nat) :
  well_formed st ->
  StartSound GSnd client rand_value ptr_of_point point_of_ptr fuel st type
             source pt channel sound_id volume attenuation forcedrolloff
             spitch = Returns r st' ->
  well_formed st' /\
  (forall a, r = Some a ->
             exists c, Channels st' = c :: tl (Channels st') /\ Addr c = a).
Proof.
  intros Hwf. unfold StartSound.
  destruct (StartSound_check client rand_value fuel st type source pt channel
              sound_id volume attenuation forcedrolloff spitch)
    as [out | [st1 l1]] eqn:Hcheck.
  { intros ->. apply StartSound_check_returns in Hcheck.
    destruct Hcheck as [-> ->].
    split; [exact Hwf | discriminate]. }
  apply StartSound_check_frame in Hcheck. destruct Hcheck as (Hsame & _).
  pose proof (well_formed_same _ _ Hsame Hwf) as Hwf1.
  pose proof (StartSound_select_well_formed GSnd client rand_value
                point_of_ptr st1 l1 Hwf1) as Hsel.
  destruct (StartSound_select GSnd client rand_value point_of_ptr st1 l1)
    as [out | [st2 l2]].
  { intros ->. destruct Hsel as [-> Hwf']. split; [exact Hwf' | discriminate]. }
  intros Hplay. destruct r as [a |].
  - destruct (StartSound_play_headed GSnd client ptr_of_point point_of_ptr
                st2 st' l2 a Hsel Hplay) as (c & (Hch & Ha & Hwf') & _).
    split; [exact Hwf' |]. intros a' [= <-]. exists c.
    rewrite Hch. now split.
  - split; [| discriminate].
    unfold StartSound_play in Hplay.
    pose proof (start_voice_same GSnd client st2 l2) as Hv.
    destruct (start_voice GSnd client st2 l2) as [voice st3].
    cbn [snd] in Hv.
    destruct voice as [v |].
    + destruct (GetChannel st3 v). discriminate.
    + destruct (has (l_chanflags l2) CHAN_LOOP).
      * destruct (GetChannel st3 0). discriminate.
      * inversion Hplay; subst. exact (well_formed_same _ _ Hv Hsel).
Qed.

(** The callbacks keep the lists in order as well: after [ChannelEnded]
    and after [StopChannel], on any pointer, the channels of the two lists
    are distinct allocated objects. *)
Theorem stopping_keeps_lists (st : SoundEngine BS) (ichan : option nat) :
  well_formed st ->
  well_formed (ChannelEnded GSnd st ichan) /\
  well_formed (StopChannel GSnd point_of_ptr st ichan).
Proof.
  intros Hwf.
  split; [now apply ChannelEnded_well_formed |].
  now apply StopChannel_well_formed.
Qed.

End PoolClaims.

Section PoolOnly.
Import Rolloff Sound SoundControl.
Local Open Scope Z_scope.

Context {BS : Type}.

Lemma head_is_fresh (st : SoundEngine BS) (c : FSoundChan)
    (old : list FSoundChan) :
  Channels st = c :: old -> well_formed st ->
  ~ In (Addr c) (map Addr old) /\ ~ In (Addr c) (map Addr (FreeChannels st)).
Proof.
  intros Hch [Hnd _]. rewrite Hch in Hnd. cbn [app map] in Hnd.
  apply NoDup_cons_iff in Hnd. destruct Hnd as [Hnot _].
  rewrite map_app, in_app_iff in Hnot.
  split; intros Hin; apply Hnot; auto.
Qed.

(** [GetChannel] puts the channel it returns at the head of the active
    list. *)
Lemma GetChannel_heads (st : SoundEngine BS) (syschan : Z) :
  well_formed st ->
  exists c,
    Channels (snd (GetChannel st syschan)) = c :: Channels st /\
    Addr c = fst (GetChannel st syschan) /\
    well_formed (snd (GetChannel st syschan)).
Proof.
  intros [Hnd Hlt]. unfold GetChannel.
  destruct (FreeChannels st) as [| f free] eqn:Hfree.
  - exists (set_SysChannel (zeroed (allocated st)) syschan).
    cbn [fst snd]. split; [reflexivity |]. split; [reflexivity |].
    unfold well_formed.
    cbn [Channels FreeChannels allocated set_Channels set_allocated].
    rewrite Hfree in *. cbn [app map]. split.
    + cbn [Addr set_SysChannel zeroed]. constructor; [| exact Hnd].
      intros Hin. apply in_map_iff in Hin. destruct Hin as (x & Hx & Hin).
      rewrite Forall_forall in Hlt. specialize (Hlt x Hin). lia.
    + constructor; [cbn; lia |].
      eapply Forall_impl; [| exact Hlt]. cbn. intros; lia.
  - assert (Hsplit : NoDup (Addr f :: map Addr (Channels st ++ free))).
    { eapply Permutation_NoDup; [| exact Hnd].
      rewrite !map_app. cbn [map]. symmetry. apply Permutation_middle. }
    apply NoDup_cons_iff in Hsplit. destruct Hsplit as [Hnot Hnd'].
    rewrite map_app, in_app_iff in Hnot.
    assert (Hc : remove_chan (Addr f) (Channels st) = Channels st)
      by (apply remove_chan_absent; intros Hin; apply Hnot; auto).
    assert (Hf : remove_chan (Addr f) (f :: free) = free).
    { unfold remove_chan. cbn [filter]. unfold at_addr at 1.
      rewrite Nat.eqb_refl. cbn [negb].
      apply remove_chan_absent. intros Hin; apply Hnot; auto. }
    exists (set_SysChannel f syschan). cbn [fst snd].
    unfold UnlinkChannel, well_formed.
    cbn [Channels FreeChannels allocated set_Channels set_FreeChannels].
    rewrite Hfree, Hc, Hf. split; [reflexivity |]. split; [reflexivity |].
    cbn [app map]. split.
    + constructor; [| exact Hnd']. cbn [Addr set_SysChannel].
      rewrite map_app, in_app_iff. exact Hnot.
    + apply Forall_app in Hlt. destruct Hlt as [Hl1 Hl2].
      inversion Hl2 as [| ? ? Hf1 Hf2]; subst.
      constructor; [exact Hf1 |]. apply Forall_app. now split.
Qed.

(** A channel given back is the next one handed out: after [GetChannel]
    and [ReturnChannel] the active list is as before, and the next
    [GetChannel] returns the same object, zeroed, without allocating. *)
Theorem channel_pool_reuse (st : SoundEngine BS) (syschan syschan' : Z) :
  well_formed st ->
  let a := fst (GetChannel st syschan) in
  let st1 := snd (GetChannel st syschan) in
  let st2 := ReturnChannel st1 a in
  well_formed st1 /\ well_formed st2 /\
  Channels st2 = Channels st /\
  fst (GetChannel st2 syschan') = a /\
  Channels (snd (GetChannel st2 syschan'))
  = set_SysChannel (zeroed a) syschan' :: Channels st /\
  allocated (snd (GetChannel st2 syschan')) = allocated st1.
Proof.
  intros Hwf a st1 st2.
  destruct (GetChannel_heads st syschan Hwf) as (c & Hch & Ha & Hwf1).
  fold a st1 in Hch, Ha, Hwf1.
  assert (Hlt : (a < allocated st1)%nat).
  { destruct Hwf1 as [_ Hall]. rewrite Hch in Hall.
    inversion Hall as [| ? ? Hc _]; subst. rewrite <- Ha. exact Hc. }
  pose proof (ReturnChannel_well_formed st1 a Hlt Hwf1) as Hwf2.
  fold st2 in Hwf2.
  destruct (head_is_fresh st1 c (Channels st) Hch Hwf1) as [Hn1 Hn2].
  rewrite Ha in Hn1, Hn2.
  assert (Hch2 : Channels st2 = Channels st).
  { unfold st2, ReturnChannel, UnlinkChannel.
    cbn [Channels set_Channels set_FreeChannels]. rewrite Hch.
    unfold remove_chan at 1. cbn [filter]. unfold at_addr at 1.
    rewrite Ha, Nat.eqb_refl. cbn [negb].
    now apply remove_chan_absent. }
  assert (Hfree2 : FreeChannels st2 = zeroed a :: FreeChannels st1).
  { unfold st2, ReturnChannel, UnlinkChannel.
    cbn [FreeChannels set_Channels set_FreeChannels].
    f_equal. now apply remove_chan_absent. }
  split; [exact Hwf1 |]. split; [exact Hwf2 |]. split; [exact Hch2 |].
  unfold GetChannel. rewrite Hfree2. cbn [fst snd Addr zeroed set_SysChannel].
  split; [reflexivity |]. split.
  - unfold UnlinkChannel.
    cbn [Channels set_Channels set_FreeChannels]. rewrite Hch2.
    f_equal. now apply remove_chan_absent.
  - reflexivity.
Qed.

Lemma Init_loop_frees (chans : list FSoundChan) :
  forall (fuel : nat) (st : SoundEngine BS),
    Channels st = chans ->
    NoDup (map Addr (Channels st ++ FreeChannels st)) ->
    (length chans <= fuel)%nat ->
    exists st',
      Init_loop fuel st = Some st' /\
      Channels st' = [] /\
      FreeChannels st'
      = rev (map (fun c => zeroed (Addr c)) chans) ++ FreeChannels st /\
      GSndState st' = GSndState st /\ S_sfx st' = S_sfx st /\
      allocated st' = allocated st.
Proof.
  induction chans as [| c chans IH]; intros fuel st Hch Hnd Hfuel.
  - exists st. destruct fuel; cbn [Init_loop]; rewrite Hch; repeat split.
  - destruct fuel as [| fuel]; [cbn in Hfuel; lia |].
    cbn [Init_loop]. rewrite Hch.
    rewrite Hch in Hnd. cbn [app map] in Hnd.
    apply NoDup_cons_iff in Hnd. destruct Hnd as [Hnot Hnd].
    rewrite map_app, in_app_iff in Hnot.
    assert (Hc1 : Channels (ReturnChannel st (Addr c)) = chans).
    { unfold ReturnChannel, UnlinkChannel.
      cbn [Channels set_Channels set_FreeChannels]. rewrite Hch.
      unfold remove_chan at 1. cbn [filter]. unfold at_addr at 1.
      rewrite Nat.eqb_refl. cbn [negb]. apply remove_chan_absent; intros Hin; apply Hnot; auto. }
    assert (Hf1 : FreeChannels (ReturnChannel st (Addr c))
                  = zeroed (Addr c) :: FreeChannels st).
    { unfold ReturnChannel, UnlinkChannel.
      cbn [FreeChannels set_Channels set_FreeChannels].
      f_equal. apply remove_chan_absent; intros Hin; apply Hnot; auto. }
    destruct (IH fuel (ReturnChannel st (Addr c)) Hc1)
      as (st' & Hl & Hch' & Hfree' & Hbs & Hsfx & Hal).
    + rewrite Hc1, Hf1. eapply Permutation_NoDup.
      * rewrite map_app. cbn [map]. apply Permutation_middle.
      * cbn [Addr zeroed]. rewrite <- map_app. constructor; [| exact Hnd].
        rewrite map_app, in_app_iff. intros [Hin | Hin]; apply Hnot; auto.
    + cbn in Hfuel. lia.
    + exists st'. split; [exact Hl |]. split; [exact Hch' |].
      split; [| now repeat split].
      rewrite Hfree', Hf1. cbn [map rev]. now rewrite <- app_assoc.
Qed.

(** [Init] empties the active list: with enough rounds it returns, every
    channel that was active is in the free pool, zeroed, the sound curve
    is the one given, and the backend was not told: it keeps the state it
    had. *)
Theorem Init_frees_all_channels (fuel : nat) (st : SoundEngine BS)
    (curve : list Z) :
  NoDup (map Addr (Channels st ++ FreeChannels st)) ->
  (length (Channels st) <= fuel)%nat ->
  exists st',
    Init fuel st curve = Some st' /\
    Channels st' = [] /\
    FreeChannels st'
    = rev (map (fun c => zeroed (Addr c)) (Channels st)) ++ FreeChannels st /\
    S_SoundCurve st' = curve /\
    GSndState st' = GSndState st.
Proof.
  intros Hnd Hfuel.
  destruct (Init_loop_frees (Channels st) fuel st eq_refl Hnd Hfuel)
    as (st1 & Hl & Hch & Hfree & Hbs & _).
  unfold Init. rewrite Hl. eexists. split; [reflexivity |].
  cbn [Channels FreeChannels S_SoundCurve GSndState]. repeat split; assumption.
Qed.

End PoolOnly.
Section ControlExamples.
Import Rolloff Sound World SoundControl Scenes.
Local Open Scope Z_scope.

Lemma busy_distinct : NoDup (map Addr (Channels busy)).
Proof. vm_compute. repeat constructor; cbn; intuition discriminate. Qed.

Lemma busy_settled : settled (Channels busy).
Proof.
  unfold settled. vm_compute.
  repeat constructor; intros H; try reflexivity; discriminate H.
Qed.

Lemma busy_well_formed : well_formed busy.
Proof.
  split.
  - vm_compute. repeat constructor; cbn; intuition discriminate.
  - vm_compute. repeat constructor.
Qed.

(** Everything stops in the scene [busy]. *)
Lemma StopAllChannels_leaves_no_voice_witness :
  NoDup (map Addr (Channels busy)) /\
  Channels (StopAllChannels granting no_update point_bits busy) = [].
Proof.
  split; [exact busy_distinct |].
  exact (proj2 (proj2 (StopAllChannels_leaves_no_voice granting no_update
                         point_bits busy busy_distinct)) busy_settled).
Defined.

(** Actor 1000 is silenced on all its slots; the two others play on. *)
Lemma StopSound_of_emitter_witness :
  NoDup (map Addr (Channels busy)) /\
  map Source
      (Channels (StopSound_source granting point_bits busy SOURCE_Actor 1000
                                  (-1)))
  = [0; 2000].
Proof.
  split; [exact busy_distinct |].
  rewrite (proj1 (StopSound_of_emitter granting point_bits busy SOURCE_Actor
                    1000 (-1) busy_distinct)).
  vm_compute. reflexivity.
Defined.

(** The sounds of actor 1000 move to actor 3000. *)
Lemma RelinkSound_moves_emitter_witness :
  NoDup (map Addr (Channels busy)) /\
  map Source
      (Channels (RelinkSound granting ptr_bits point_bits busy SOURCE_Actor
                             1000 3000 None))
  = [0; 2000; 3000; 3000; 3000; 3000].
Proof.
  split; [exact busy_distinct |].
  rewrite (proj1 (proj2 (proj2 (RelinkSound_moves_emitter granting ptr_bits
                                  point_bits busy SOURCE_Actor 1000 3000 None
                                  busy_distinct))
                        ltac:(discriminate) ltac:(discriminate))).
  vm_compute. reflexivity.
Defined.

(** All six channels of the scene are kept, evicted and without voice. *)
Lemma EvictAllChannels_keeps_what_restarts_witness :
  NoDup (map Addr (Channels busy)) /\
  Forall (fun c => has (ChanFlags c) CHAN_EVICTED = true)
         (Channels (EvictAllChannels granting point_bits busy)) /\
  Forall (fun c => SysChannel c = 0)
         (Channels (EvictAllChannels granting point_bits busy)).
Proof.
  split; [exact busy_distinct |].
  destruct (EvictAllChannels_keeps_what_restarts granting point_bits busy
              busy_distinct) as (H1 & _ & H3).
  split; [exact H1 | exact (H3 busy_settled)].
Defined.

(** One more start in the scene. *)
Lemma StartSound_keeps_lists_witness :
  well_formed busy /\
  well_formed (state_of (start busy SOURCE_Actor 2000 2 4)).
Proof.
  split; [exact busy_well_formed |].
  refine (proj1 (StartSound_keeps_lists granting still no_rand ptr_bits
                   point_bits 4 busy
                   (state_of (start busy SOURCE_Actor 2000 2 4))
                   SOURCE_Actor 2000 None 2 4 1 1 None 0 (Some 6%nat)
                   busy_well_formed _)).
  vm_compute. reflexivity.
Defined.

Lemma stopping_keeps_lists_witness :
  well_formed busy /\
  well_formed (ChannelEnded granting busy (Some 3%nat)) /\
  well_formed (StopChannel granting point_bits busy (Some 3%nat)).
Proof.
  split; [exact busy_well_formed |].
  exact (stopping_keeps_lists granting point_bits busy (Some 3%nat)
           busy_well_formed).
Defined.

Lemma channel_pool_reuse_witness :
  well_formed busy /\
  fst (GetChannel (ReturnChannel (snd (GetChannel busy 9))
                                 (fst (GetChannel busy 9))) 7)
  = fst (GetChannel busy 9).
Proof.
  split; [exact busy_well_formed |].
  exact (proj1 (proj2 (proj2 (proj2 (channel_pool_reuse busy 9 7
                                       busy_well_formed))))).
Defined.

Lemma Init_frees_all_channels_witness :
  exists st',
    Init 6 busy [127; 64; 0] = Some st' /\
    Channels st' = [] /\
    FreeChannels st'
    = rev (map (fun c => zeroed (Addr c)) (Channels busy))
      ++ FreeChannels busy /\
    S_SoundCurve st' = [127; 64; 0] /\
    GSndState st' = GSndState busy.
Proof.
  apply (Init_frees_all_channels 6 busy [127; 64; 0]).
  - exact (proj1 busy_well_formed).
  - vm_compute. repeat constructor.
Defined.

End ControlExamples.
(** * Asking what an emitter plays, and changing its volume *)

Section QueryClaims.
Import Rolloff Sound SoundControl.
Local Open Scope Z_scope.

Context {BS : Type}.
Variable GSnd : SoundRenderer BS.
Variable GSnd_ChannelVolume : BS -> FSoundChan -> Q -> BS.
Variable point_of_ptr : Z -> FVector3.

Lemma IsSourcePlayingSomething_from_none (chans : list FSoundChan)
    (sourcetype actor channel sound_id : Z) :
  Forall (fun c => (SourceType c =? sourcetype) && (Source c =? actor)
                   && ((channel =? 0) || (EntChannel c =? channel)) = false)
         chans ->
  IsSourcePlayingSomething_from chans sourcetype actor channel sound_id
  = false.
Proof.
  induction 1 as [| c l Hc _ IH]; [reflexivity |].
  cbn [IsSourcePlayingSomething_from]. now rewrite Hc.
Qed.

Lemma GetSoundPlayingInfo_from_none (chans : list FSoundChan)
    (sourcetype source sound_id : Z) :
  Forall (fun c => (SourceType c =? sourcetype) && (Source c =? source)
                   = false) chans ->
  GetSoundPlayingInfo_from chans sourcetype source sound_id = false.
Proof.
  induction 1 as [| c l Hc _ IH]; [reflexivity |].
  cbn [GetSoundPlayingInfo_from].
  destruct (OrgID c =? sound_id); cbn [andb]; [| exact IH].
  apply andb_false_iff in Hc. destruct Hc as [-> | ->]; cbn [andb];
    [exact IH |].
  now rewrite andb_false_r.
Qed.

Lemma stopped_none_left (sourcetype actor channel : Z)
    (chans : list FSoundChan) :
  settled chans ->
  Forall (fun c => stop_test sourcetype actor channel c = false)
         (flat_map (fun c => if stop_test sourcetype actor channel c
                             then after_stop c else [c]) chans).
Proof.
  unfold settled. induction 1 as [| c l Hc _ IH]; [constructor |].
  cbn [flat_map]. apply Forall_app. split; [| exact IH].
  destruct (stop_test sourcetype actor channel c) eqn:E.
  - rewrite (after_stop_settled c Hc). constructor.
  - repeat constructor. exact E.
Qed.

(** After the three-argument [StopSound] the emitter is reported silent,
    when no channel was flagged evicted while holding a voice: on the slot
    that was stopped [IsSourcePlayingSomething] is false for every sound,
    and after a stop of every slot (a negative [channel]) both
    [IsSourcePlayingSomething], on any slot, and [GetSoundPlayingInfo] are
    false for every sound. *)
Theorem stopped_emitter_is_silent (st : SoundEngine BS)
    (sourcetype actor channel : Z) :
  NoDup (map Addr (Channels st)) ->
  settled (Channels st) ->
  let st' := StopSound_source GSnd point_of_ptr st sourcetype actor channel in
  (channel <> 0 ->
   forall sound_id,
     IsSourcePlayingSomething st' sourcetype actor channel sound_id = false) /\
  (channel < 0 ->
   forall slot sound_id,
     IsSourcePlayingSomething st' sourcetype actor slot sound_id = false /\
     GetSoundPlayingInfo st' sourcetype actor sound_id = false).
Proof.
  intros Hnd Hset st'.
  assert (Hleft : Forall (fun c => stop_test sourcetype actor channel c
                                   = false) (Channels st')).
  { subst st'. unfold StopSound_source.
    rewrite (StopSound_source_from_active GSnd point_of_ptr
               sourcetype actor channel (Channels st) st [] eq_refl Hnd).
    now apply stopped_none_left. }
  split.
  - intros Hch sound_id. unfold IsSourcePlayingSomething.
    apply IsSourcePlayingSomething_from_none.
    eapply Forall_impl; [| exact Hleft]. intros c Hc. cbv beta in *.
    unfold stop_test in Hc.
    replace (channel =? 0) with false by (symmetry; now apply Z.eqb_neq).
    cbn [orb]. apply andb_false_iff in Hc. destruct Hc as [-> | Hc];
      [reflexivity |].
    apply orb_false_iff in Hc. destruct Hc as [-> _].
    apply andb_false_r.
  - intros Hch slot sound_id.
    assert (Hnone : Forall (fun c => (SourceType c =? sourcetype)
                                     && (Source c =? actor) = false)
                           (Channels st')).
    { eapply Forall_impl; [| exact Hleft]. intros c Hc. cbv beta in *.
      unfold stop_test in Hc.
      replace (channel <? 0) with true in Hc
        by (symmetry; now apply Z.ltb_lt).
      now rewrite orb_true_r, andb_true_r in Hc. }
    split.
    + unfold IsSourcePlayingSomething.
      apply IsSourcePlayingSomething_from_none.
      eapply Forall_impl; [| exact Hnone]. intros c Hc. cbv beta in *.
      now rewrite Hc.
    + unfold GetSoundPlayingInfo. destruct (0 <? sound_id); [| reflexivity].
      now apply GetSoundPlayingInfo_from_none.
Qed.

Lemma ChangeSoundVolume_from_miss (chans : list FSoundChan) :
  forall (st : SoundEngine BS) (sourcetype source channel : Z) (volume : Q),
    Forall (fun c => volume_test sourcetype source channel c = false) chans ->
    ChangeSoundVolume_from GSnd_ChannelVolume st chans
                           sourcetype source channel volume = st.
Proof.
  induction chans as [| c l IH]; intros st sourcetype source channel volume H;
    [reflexivity |].
  inversion H as [| ? ? Hc Hl]; subst. cbn [ChangeSoundVolume_from].
  unfold volume_test in Hc. rewrite Hc. now apply IH.
Qed.

Lemma ChangeSoundVolume_from_hit (done : list FSoundChan) :
  forall (st : SoundEngine BS) (c : FSoundChan) (next : list FSoundChan)
         (sourcetype source channel : Z) (volume : Q),
    Forall (fun c => volume_test sourcetype source channel c = false) done ->
    volume_test sourcetype source channel c = true ->
    ChangeSoundVolume_from GSnd_ChannelVolume st (done ++ c :: next)
                           sourcetype source channel volume
    = assign (set_GSndState st (GSnd_ChannelVolume (GSndState st) c volume))
             (Addr c) (fun c => set_ChanVolume c volume).
Proof.
  induction done as [| d l IH]; intros st c next sourcetype source channel
                                       volume Hd Hc.
  - cbn [app ChangeSoundVolume_from]. unfold volume_test in Hc.
    now rewrite Hc.
  - inversion Hd as [| ? ? Hd1 Hd2]; subst.
    cbn [app ChangeSoundVolume_from]. unfold volume_test in Hd1.
    rewrite Hd1. now apply IH.
Qed.


End QueryClaims.

Section QueryScenes.
Import Rolloff Sound World SoundControl Scenes.
Local Open Scope Z_scope.

(** Actor 1000 is silenced on all its slots and then plays nothing. *)
Lemma stopped_emitter_is_silent_witness :
  NoDup (map Addr (Channels busy)) /\
  settled (Channels busy) /\
  IsSourcePlayingSomething
    (StopSound_source granting point_bits busy SOURCE_Actor 1000 (-1))
    SOURCE_Actor 1000 0 0 = false.
Proof.
  split; [exact busy_distinct |]. split; [exact busy_settled |].
  refine (proj1 (proj2 (stopped_emitter_is_silent granting point_bits busy
                          SOURCE_Actor 1000 (-1) busy_distinct busy_settled)
                   _ 0 0)).
  reflexivity.
Defined.


End QueryScenes.
(** * The table of sounds: hash chains and lookups *)

Section TableFacts.
Import Rolloff Sound SoundTable.
Local Open Scope Z_scope.

Lemma update_nth_length {A : Type} (n : nat) (f : A -> A) (l : list A) :
  length (update_nth n f l) = length l.
Proof.
  revert n. induction l as [| x l IH]; intros [| n]; cbn; auto.
Qed.

Lemma nth_update_nth_same {A : Type} (n : nat) (f : A -> A) (l : list A)
    (d : A) :
  (n < length l)%nat -> nth n (update_nth n f l) d = f (nth n l d).
Proof.
  revert n. induction l as [| x l IH]; intros [| n] H; cbn in *;
    try lia; [reflexivity | apply IH; lia].
Qed.

Lemma nth_update_nth_other {A : Type} (n m : nat) (f : A -> A) (l : list A)
    (d : A) :
  n <> m -> nth m (update_nth n f l) d = nth m l d.
Proof.
  revert n m. induction l as [| x l IH]; intros [| n] [| m] H; cbn;
    try reflexivity; try congruence.
  apply IH. congruence.
Qed.

Variable MakeKey : string -> Z.

Abbreviation key sfx i :=
  (bucket_of MakeKey (length sfx) (name (slot_at sfx i))).

(** What one round of the hashing loop changes. *)
Lemma hash_one_length (sfx : list sfxslot) (i : nat) :
  length (hash_one MakeKey sfx i) = length sfx.
Proof. unfold hash_one. now rewrite !update_nth_length. Qed.

Lemma hash_one_name (sfx : list sfxslot) (i m : nat) :
  name (slot_at (hash_one MakeKey sfx i) m) = name (slot_at sfx m).
Proof.
  unfold hash_one. set (j := key sfx i). unfold slot_at.
  assert (Hstep : forall (l : list sfxslot) (n : nat) (g : sfxslot -> sfxslot),
             (forall s, name (g s) = name s) ->
             name (nth m (update_nth n g l) no_slot)
             = name (nth m l no_slot)).
  { intros l n g Hg. destruct (Nat.eq_dec n m) as [-> | Hne].
    - destruct (Nat.lt_ge_cases m (length l)) as [Hlt | Hge].
      + now rewrite nth_update_nth_same, Hg.
      + rewrite !nth_overflow; rewrite ?update_nth_length; auto.
    - now rewrite nth_update_nth_other. }
  rewrite Hstep by reflexivity. now rewrite Hstep by reflexivity.
Qed.

Lemma hash_one_next (sfx : list sfxslot) (i m : nat) :
  (i < length sfx)%nat ->
  next (slot_at (hash_one MakeKey sfx i) m)
  = if (m =? i)%nat then index (slot_at sfx (key sfx i))
    else next (slot_at sfx m).
Proof.
  intros Hi. unfold hash_one. set (j := key sfx i). unfold slot_at.
  set (sfx1 := update_nth i (fun s => set_next s (index (nth j sfx no_slot)))
                          sfx).
  assert (H1 : next (nth m sfx1 no_slot)
               = if (m =? i)%nat then index (nth j sfx no_slot)
                 else next (nth m sfx no_slot)).
  { unfold sfx1. destruct (Nat.eqb_spec m i) as [-> | Hne].
    - now rewrite nth_update_nth_same.
    - rewrite nth_update_nth_other by congruence. reflexivity. }
  rewrite <- H1.
  destruct (Nat.eq_dec j m) as [-> | Hne].
  - destruct (Nat.lt_ge_cases m (length sfx1)) as [Hlt | Hge].
    + now rewrite nth_update_nth_same.
    + rewrite !nth_overflow; rewrite ?update_nth_length; auto.
  - now rewrite nth_update_nth_other.
Qed.

Lemma hash_one_index (sfx : list sfxslot) (i m : nat) :
  (m < length sfx)%nat ->
  index (slot_at (hash_one MakeKey sfx i) m)
  = if (m =? key sfx i)%nat then Z.of_nat i else index (slot_at sfx m).
Proof.
  intros Hm. unfold hash_one. set (j := key sfx i). unfold slot_at.
  set (sfx1 := update_nth i (fun s => set_next s (index (nth j sfx no_slot)))
                          sfx).
  assert (H1 : index (nth m sfx1 no_slot) = index (nth m sfx no_slot)).
  { unfold sfx1. destruct (Nat.eq_dec i m) as [-> | Hne].
    - now rewrite nth_update_nth_same.
    - now rewrite nth_update_nth_other. }
  destruct (Nat.eqb_spec m j) as [-> | Hne].
  - rewrite nth_update_nth_same; [reflexivity |].
    unfold sfx1. now rewrite update_nth_length.
  - rewrite nth_update_nth_other by congruence. exact H1.
Qed.

(** A chain only depends on the links of its own entries. *)
Lemma chained_ext (sfx sfx' : list sfxslot) (l : list nat) :
  (forall i, In i l -> next (slot_at sfx' i) = next (slot_at sfx i)) ->
  forall start, chained sfx start l -> chained sfx' start l.
Proof.
  induction l as [| i l IH]; intros Hext start; cbn [chained]; [auto |].
  intros [Hs Hc]. split; [exact Hs |].
  rewrite (Hext i (or_introl eq_refl)). apply IH; [| exact Hc].
  intros m Hm. apply Hext. now right.
Qed.

Lemma bucket_range (sfx : list sfxslot) (k j i : nat) :
  In i (bucket MakeKey sfx k j) -> (1 <= i <= k)%nat /\ key sfx i = j.
Proof.
  unfold bucket. intros H. apply filter_In in H. destruct H as [Hin Hk].
  apply in_rev, in_seq in Hin. apply Nat.eqb_eq in Hk. split; [lia | exact Hk].
Qed.

Lemma bucket_succ (sfx : list sfxslot) (k j : nat) :
  bucket MakeKey sfx (S k) j
  = if (key sfx (S k) =? j)%nat then S k :: bucket MakeKey sfx k j
    else bucket MakeKey sfx k j.
Proof.
  unfold bucket. rewrite seq_S, rev_app_distr. cbn [rev app filter Nat.add].
  reflexivity.
Qed.

Lemma bucket_of_inside (size : nat) (nm : string) :
  (0 < size)%nat -> (bucket_of MakeKey size nm < size)%nat.
Proof.
  intros Hs. unfold bucket_of.
  pose proof (Z.mod_pos_bound (MakeKey nm) (Z.of_nat size)) as H. lia.
Qed.

(** The chains after the first [k] rounds of the hashing loop. *)
Lemma hashed_prefix (sfx0 : list sfxslot) :
  (forall m, index (slot_at sfx0 m) = 0) ->
  forall k, (k < length sfx0)%nat ->
    let sk := fold_left (hash_one MakeKey) (seq 1 k) sfx0 in
    length sk = length sfx0 /\
    (forall m, name (slot_at sk m) = name (slot_at sfx0 m)) /\
    (forall j, (j < length sfx0)%nat ->
               chained sk (index (slot_at sk j)) (bucket MakeKey sfx0 k j)).
Proof.
  intros Hempty. induction k as [| k IH]; intros Hk.
  - cbn [seq fold_left]. split; [reflexivity |]. split; [reflexivity |].
    intros j _. cbn. apply Hempty.
  - destruct (IH ltac:(lia)) as (Hlen & Hname & Hchain). clear IH.
    rewrite seq_S, fold_left_app. cbn [fold_left Nat.add].
    set (sk := fold_left (hash_one MakeKey) (seq 1 k) sfx0) in *.
    assert (Hkey : key sk (S k) = key sfx0 (S k))
      by now rewrite Hlen, Hname.
    split; [now rewrite hash_one_length |].
    split; [intros m; now rewrite hash_one_name |].
    intros j Hj.
    rewrite hash_one_index by (rewrite Hlen; exact Hj).
    rewrite Hkey, bucket_succ, (Nat.eqb_sym j).
    assert (Hold : forall i, In i (bucket MakeKey sfx0 k j) ->
               next (slot_at (hash_one MakeKey sk (S k)) i)
               = next (slot_at sk i)).
    { intros i Hi. apply bucket_range in Hi. destruct Hi as [Hi _].
      rewrite hash_one_next by (rewrite Hlen; exact Hk).
      destruct (Nat.eqb_spec i (S k)); [lia | reflexivity]. }
    destruct (Nat.eqb_spec (key sfx0 (S k)) j) as [He | Hne].
    + cbn [chained]. split; [reflexivity |].
      rewrite hash_one_next by (rewrite Hlen; exact Hk).
      rewrite Nat.eqb_refl, Hkey, He.
      apply (chained_ext sk); [exact Hold | now apply Hchain].
    + apply (chained_ext sk); [exact Hold | now apply Hchain].
Qed.

(** Following a chain finds its first entry of the name. *)
Lemma follow_chain (sfx : list sfxslot) (nm : string) (l : list nat) :
  forall fuel start,
    chained sfx start l ->
    (forall i, In i l -> i <> 0%nat) ->
    (length l <= fuel)%nat ->
    follow fuel sfx nm start
    = Some (Z.of_nat (hd 0%nat (filter (named sfx nm) l))).
Proof.
  induction l as [| i l IH]; intros fuel start Hc Hnz Hfuel;
    cbn [chained] in Hc.
  - subst start. destruct fuel; reflexivity.
  - destruct Hc as [-> Hc].
    assert (Hi : i <> 0%nat) by (apply Hnz; now left).
    assert (Hstep : forall f,
              follow (S f) sfx nm (Z.of_nat i)
              = if named sfx nm i then Some (Z.of_nat i)
                else follow f sfx nm (next (slot_at sfx i))).
    { intros f. cbn [follow]. rewrite Nat2Z.id. unfold named.
      replace (Z.of_nat i =? 0) with false by (symmetry; apply Z.eqb_neq; lia).
      now destruct (stricmp_eq _ _). }
    destruct fuel as [| fuel]; [cbn in Hfuel; lia |].
    rewrite Hstep. cbn [filter].
    destruct (named sfx nm i); [reflexivity |].
    apply IH; [exact Hc | | cbn in Hfuel; lia].
    intros m Hm. apply Hnz. now right.
Qed.

Lemma filter_filter_implied {A : Type} (p q : A -> bool) (l : list A) :
  (forall x, p x = true -> q x = true) ->
  filter p (filter q l) = filter p l.
Proof.
  intros H. induction l as [| x l IH]; [reflexivity |].
  cbn [filter]. destruct (q x) eqn:Hq; cbn [filter].
  - now rewrite IH.
  - destruct (p x) eqn:Hp; [| exact IH].
    rewrite (H x Hp) in Hq. discriminate.
Qed.

Lemma scan_names_first (rest : list sfxslot) (nm : string) :
  forall (pre : list sfxslot),
    scan_names rest (Z.of_nat (length pre)) nm
    = Z.of_nat (hd 0%nat (filter (named (pre ++ rest) nm)
                                 (seq (length pre) (length rest)))).
Proof.
  induction rest as [| s rest IH]; intros pre; [reflexivity |].
  cbn [scan_names length seq filter].
  assert (Hs : named (pre ++ s :: rest) nm (length pre)
               = stricmp_eq (name s) nm).
  { unfold named, slot_at. now rewrite nth_middle. }
  rewrite Hs. destruct (stricmp_eq (name s) nm); [reflexivity |].
  specialize (IH (pre ++ [s])). rewrite <- app_assoc in IH. cbn [app] in IH.
  rewrite length_app in IH. cbn [length] in IH.
  replace (Z.of_nat (length pre) + 1) with (Z.of_nat (length pre + 1)) by lia.
  rewrite IH. now rewrite Nat.add_1_r.
Qed.

End TableFacts.
Section TableClaims.
Import Rolloff Sound SoundTable.
Local Open Scope Z_scope.

Variable MakeKey : string -> Z.

Lemma emptied_slots (sfx : list sfxslot) (m : nat) :
  index (slot_at (map (fun s => set_index s 0) sfx) m) = 0 /\
  name (slot_at (map (fun s => set_index s 0) sfx) m) = name (slot_at sfx m).
Proof.
  unfold slot_at.
  destruct (Nat.lt_ge_cases m (length sfx)) as [Hlt | Hge].
  - rewrite (nth_indep _ no_slot (set_index no_slot 0))
      by (now rewrite length_map).
    rewrite (map_nth (fun s => set_index s 0)). split; reflexivity.
  - rewrite !nth_overflow; rewrite ?length_map; auto.
Qed.

Lemma entries_named_zero (sfx : list sfxslot) (nm : string)
    (l : list nat) :
  (forall i, In i l -> i <> 0%nat) ->
  (hd 0%nat (filter (named sfx nm) l) = 0%nat
   <-> filter (named sfx nm) l = []).
Proof.
  intros Hnz. split.
  - destruct (filter (named sfx nm) l) as [| i rest] eqn:E; [reflexivity |].
    cbn [hd]. intros ->.
    assert (Hin : In 0%nat (filter (named sfx nm) l))
      by (rewrite E; now left).
    apply filter_In in Hin. destruct Hin as [Hin _].
    now contradiction (Hnz 0%nat Hin).
  - intros ->. reflexivity.
Qed.

Lemma filter_rev_nil {A : Type} (p : A -> bool) (l : list A) :
  filter p (rev l) = [] <-> filter p l = [].
Proof.
  assert (H : forall l', filter p l' = [] <-> forall x, In x l' -> p x = false).
  { intros l'. split.
    - intros Hn x Hx. destruct (p x) eqn:E; [| reflexivity].
      assert (Hin : In x (filter p l')) by (apply filter_In; now split).
      rewrite Hn in Hin. contradiction.
    - intros Hall. induction l' as [| y l' IH]; [reflexivity |].
      cbn [filter]. rewrite (Hall y (or_introl eq_refl)).
      apply IH. intros x Hx. apply Hall. now right. }
  rewrite !H. split; intros Hall x Hx; apply Hall;
    [now apply -> in_rev | now apply <- in_rev].
Qed.

(** Lookup by name after [HashSounds]: with a hash that goes with
    [stricmp], [FindSound] returns and finds the latest entry of the name,
    0 when there is none; [FindSoundNoHash] finds the earliest one; so the
    two agree on whether the name is known, and on the entry when it is
    there once. *)
Theorem FindSound_after_HashSounds (t : Table) (nm : string) (fuel : nat) :
  hash_of_names MakeKey ->
  T_sfx t <> [] ->
  (length (T_sfx t) <= fuel)%nat ->
  FindSound MakeKey fuel (HashSounds MakeKey t) (Some nm)
  = Some (last_named (T_sfx t) nm) /\
  FindSoundNoHash (HashSounds MakeKey t) nm = first_named (T_sfx t) nm /\
  (last_named (T_sfx t) nm = 0 <-> first_named (T_sfx t) nm = 0).
Proof.
  intros [Hsame _] Hne Hfuel.
  set (sfx := T_sfx t) in *.
  set (sfx0 := map (fun s => set_index s 0) sfx).
  assert (Hn : (0 < length sfx)%nat)
    by (destruct sfx; [contradiction | cbn; lia]).
  assert (Hlen0 : length sfx0 = length sfx) by apply length_map.
  destruct (hashed_prefix MakeKey sfx0 (fun m => proj1 (emptied_slots sfx m))
              (length sfx - 1) ltac:(lia)) as (Hlen & Hname & Hchain).
  rewrite Hlen0 in Hlen, Hchain.
  assert (HT : T_sfx (HashSounds MakeKey t)
               = fold_left (hash_one MakeKey) (seq 1 (length sfx - 1)) sfx0)
    by reflexivity.
  remember (fold_left (hash_one MakeKey) (seq 1 (length sfx - 1)) sfx0)
    as sN eqn:EsN.
  destruct sN as [| s0 sN']; [cbn in Hlen; lia |].
  clear EsN. set (sN := s0 :: sN') in *.
  assert (Hnames : forall m, name (slot_at sN m) = name (slot_at sfx m)).
  { intros m. rewrite Hname. apply emptied_slots. }
  assert (Hnamed : forall (l : list nat),
             filter (named sN nm) l = filter (named sfx nm) l).
  { intros l. apply filter_ext. intros i. unfold named. now rewrite Hnames. }
  split; [| split].
  - unfold FindSound. rewrite HT. unfold sN at 1. cbv iota. fold sN.
    set (j := bucket_of MakeKey (length sN) nm).
    assert (Hj : (j < length sfx)%nat)
      by (unfold j; rewrite Hlen; now apply bucket_of_inside).
    rewrite (follow_chain sN nm (bucket MakeKey sfx0 (length sfx - 1) j)).
    + rewrite Hnamed. unfold last_named, entries, bucket. do 3 f_equal.
      apply filter_filter_implied. intros i Hi. unfold named in Hi.
      apply Nat.eqb_eq. unfold j, bucket_of.
      pose proof (proj2 (emptied_slots sfx i)) as Hi0. fold sfx0 in Hi0.
      rewrite Hlen0, Hlen, Hi0. now rewrite (Hsame _ _ Hi).
    + now apply Hchain.
    + intros i Hi. apply bucket_range in Hi. lia.
    + unfold bucket.
      pose proof (filter_length_le
                    (fun i => (bucket_of MakeKey (length sfx0)
                                 (name (slot_at sfx0 i)) =? j)%nat)
                    (rev (seq 1 (length sfx - 1)))) as Hle.
      rewrite length_rev, length_seq in Hle. lia.
  - unfold FindSoundNoHash, first_named, entries. rewrite HT.
    unfold sN at 1. cbn [tl].
    pose proof (scan_names_first sN' nm [s0]) as Hscan.
    cbn [length app] in Hscan. change (Z.of_nat 1) with 1 in Hscan.
    fold sN in Hscan. rewrite Hscan, Hnamed.
    unfold sN in Hlen. cbn [length] in Hlen.
    replace (length sN') with (length sfx - 1)%nat by lia. reflexivity.
  - unfold last_named, first_named, entries.
    assert (Hnz : forall i, In i (seq 1 (length sfx - 1)) -> i <> 0%nat)
      by (intros i Hi; apply in_seq in Hi; lia).
    assert (Hnz' : forall i, In i (rev (seq 1 (length sfx - 1))) ->
                             i <> 0%nat)
      by (intros i Hi; apply in_rev in Hi; now apply Hnz).
    pose proof (entries_named_zero sfx nm _ Hnz) as H1.
    pose proof (entries_named_zero sfx nm _ Hnz') as H2.
    pose proof (filter_rev_nil (named sfx nm) (seq 1 (length sfx - 1))) as H3.
    split; intros H.
    + assert (H0 : hd 0%nat (filter (named sfx nm)
                               (rev (seq 1 (length sfx - 1)))) = 0%nat)
        by lia.
      apply H2, H3, H1 in H0. now rewrite H0.
    + assert (H0 : hd 0%nat (filter (named sfx nm)
                               (seq 1 (length sfx - 1))) = 0%nat) by lia.
      apply H1, H3, H2 in H0. now rewrite H0.
Qed.

End TableClaims.
Section NameFacts.
Import Rolloff Sound SoundTable.
Local Open Scope Z_scope.

Lemma lower_length (s : string) : String.length (lower s) = String.length s.
Proof. induction s as [| c s IH]; cbn; congruence. Qed.

Lemma length_key_hash : hash_of_names length_key.
Proof.
  split.
  - intros a b H. unfold stricmp_eq in H. apply String.eqb_eq in H.
    unfold length_key. rewrite <- (lower_length a), <- (lower_length b).
    now rewrite H.
  - intros a. unfold length_key. lia.
Qed.

Lemma stricmp_eq_refl (a : string) : stricmp_eq a a = true.
Proof. apply String.eqb_refl. Qed.

(** The scan finds the first entry of the name, counted from [i]. *)
Lemma scan_names_found (l : list sfxslot) (nm : string) :
  forall i, 0 < i ->
    (existsb (has_name nm) l = false -> scan_names l i nm = 0) /\
    (existsb (has_name nm) l = true ->
     i <= scan_names l i nm < i + Z.of_nat (length l) /\
     has_name nm (nth (Z.to_nat (scan_names l i nm - i)) l no_slot) = true).
Proof.
  induction l as [| s l IH]; intros i Hi; cbn [existsb scan_names length].
  - split; [reflexivity | discriminate].
  - unfold has_name at 1 3. destruct (stricmp_eq (name s) nm) eqn:E;
      cbn [orb].
    + split; [discriminate | intros _].
      rewrite Z.sub_diag. cbn [Z.to_nat nth]. unfold has_name.
      split; [lia | exact E].
    + destruct (IH (i + 1) ltac:(lia)) as [H0 H1]. split; [exact H0 |].
      intros Hex. destruct (H1 Hex) as [Hr Hn]. split; [lia |].
      replace (Z.to_nat (scan_names l (i + 1) nm - i))
        with (S (Z.to_nat (scan_names l (i + 1) nm - (i + 1)))) by lia.
      exact Hn.
Qed.

Lemma scan_names_app (l : list sfxslot) (s : sfxslot) (nm : string) :
  forall i,
    scan_names (l ++ [s]) i nm
    = if existsb (has_name nm) l then scan_names l i nm
      else if has_name nm s then i + Z.of_nat (length l) else 0.
Proof.
  induction l as [| x l IH]; intros i; cbn [app existsb scan_names length].
  - unfold has_name. rewrite Z.add_0_r. reflexivity.
  - unfold has_name at 1. destruct (stricmp_eq (name x) nm); cbn [orb];
      [reflexivity |].
    rewrite IH. destruct (existsb (has_name nm) l); [reflexivity |].
    destruct (has_name nm s); [lia | reflexivity].
Qed.

Lemma update_nth_app_last {A : Type} (f : A -> A) (l : list A) (x : A) :
  update_nth (length l) f (l ++ [x]) = l ++ [f x].
Proof. induction l as [| y l IH]; cbn; [reflexivity | now rewrite IH]. Qed.

Lemma scan_names_zero (l : list sfxslot) (nm : string) :
  scan_names l 1 nm = 0 <-> existsb (has_name nm) l = false.
Proof.
  destruct (scan_names_found l nm 1 ltac:(lia)) as [H0 H1]. split.
  - intros Hz. destruct (existsb (has_name nm) l); [| reflexivity].
    destruct (H1 eq_refl) as [Hr _]. lia.
  - exact H0.
Qed.

End NameFacts.

Section NameClaims.
Import Rolloff Sound SoundTable.
Local Open Scope Z_scope.

Lemma FindSound_after_HashSounds_witness :
  FindSound length_key 5 (HashSounds length_key some_sounds)
            (Some "WEAPONS/PISTOL"%string)
  = Some (last_named (T_sfx some_sounds) "WEAPONS/PISTOL") /\
  FindSoundNoHash (HashSounds length_key some_sounds) "WEAPONS/PISTOL"
  = first_named (T_sfx some_sounds) "WEAPONS/PISTOL" /\
  (last_named (T_sfx some_sounds) "WEAPONS/PISTOL" = 0
   <-> first_named (T_sfx some_sounds) "WEAPONS/PISTOL" = 0).
Proof.
  apply (FindSound_after_HashSounds length_key some_sounds
           "WEAPONS/PISTOL" 5 length_key_hash).
  - discriminate.
  - vm_compute. repeat constructor.
Defined.



Lemma FindSoundTentative_new (t : Table) (nm : string) :
  FindSoundNoHash t nm = 0 ->
  FindSoundTentative t nm
  = (mkTable (T_sfx t ++ [mkSlot (default_sfx (-1) 0) nm 0 0 true (-1)])
             (ResIdMap t),
     Z.of_nat (length (T_sfx t))).
Proof.
  intros Hz. unfold FindSoundTentative. rewrite Hz. cbn [Z.eqb].
  unfold AddSoundLump. cbn [T_sfx ResIdMap Z.leb Z.compare].
  rewrite length_app. cbn [length].
  replace (Z.of_nat (length (T_sfx t) + 1) - 1)
    with (Z.of_nat (length (T_sfx t))) by lia.
  rewrite Nat2Z.id, update_nth_app_last. reflexivity.
Qed.

Lemma FindSoundTentative_known (t : Table) (nm : string) :
  FindSoundNoHash t nm <> 0 ->
  FindSoundTentative t nm = (t, FindSoundNoHash t nm).
Proof.
  intros Hnz. unfold FindSoundTentative.
  apply Z.eqb_neq in Hnz. now rewrite Hnz.
Qed.



End NameClaims.
(** * Loading the data of a sound *)

Section LoadingFacts.
Import Rolloff Sound.
Local Open Scope Z_scope.

Context {BS : Type}.
Variable GSnd : SoundRenderer BS.
Variable client : SoundClient.

(** The entry [sfx] is one of the table. *)
Local Abbreviation inside st sfx :=
  (0 <= sfx < Z.of_nat (length (S_sfx st))).

Lemma nth_update_nth_kept {A B : Type} (g : A -> B) (f : A -> A)
    (n m : nat) (l : list A) (d : A) :
  (forall x, g (f x) = g x) ->
  g (nth m (update_nth n f l) d) = g (nth m l d).
Proof.
  intros Hg. revert n m.
  induction l as [| x l IH]; intros [| n] [| m]; cbn; auto.
Qed.

Lemma update_sfx_kept {B : Type} (g : sfxinfo_t -> B) (st : SoundEngine BS)
    (sfx i : Z) (f : sfxinfo_t -> sfxinfo_t) :
  (forall s, g (f s) = g s) ->
  g (sfx_at (update_sfx st sfx f) i) = g (sfx_at st i).
Proof.
  intros Hg. unfold sfx_at, update_sfx. cbn [S_sfx set_S_sfx].
  now apply nth_update_nth_kept.
Qed.

Lemma update_sfx_here (st : SoundEngine BS) (sfx : Z)
    (f : sfxinfo_t -> sfxinfo_t) :
  inside st sfx ->
  sfx_at (update_sfx st sfx f) sfx = f (sfx_at st sfx).
Proof.
  intros Hin. unfold sfx_at, update_sfx. cbn [S_sfx set_S_sfx].
  apply nth_update_nth_same. lia.
Qed.

Lemma update_sfx_length (st : SoundEngine BS) (sfx : Z)
    (f : sfxinfo_t -> sfxinfo_t) :
  length (S_sfx (update_sfx st sfx f)) = length (S_sfx st).
Proof.
  unfold update_sfx. cbn [S_sfx set_S_sfx]. apply update_nth_length.
Qed.

Lemma same_lump_from_found (l : list sfxinfo_t) :
  forall (k lump i : Z),
    same_lump_from l k lump = Some i ->
    k <= i < k + Z.of_nat (length l) /\
    isValid (data (nth (Z.to_nat (i - k)) l (default_sfx (-1) 0))) = true.
Proof.
  induction l as [| s l IH]; intros k lump i H; [discriminate |].
  cbn [same_lump_from] in H.
  destruct (isValid (data s) && (link s =? NO_LINK) && (lumpnum s =? lump))
    eqn:E.
  - injection H as <-. rewrite Z.sub_diag. cbn [length Z.to_nat nth].
    apply andb_true_iff in E. destruct E as [E _].
    apply andb_true_iff in E. destruct E as [E _].
    split; [lia | exact E].
  - destruct (IH _ _ _ H) as [Hr Hv]. cbn [length]. split; [lia |].
    replace (Z.to_nat (i - k)) with (S (Z.to_nat (i - (k + 1)))) by lia.
    exact Hv.
Qed.

(** The first step of a round: a sound without a lump gets the lump of the
    empty sound. *)
Lemma LoadSound_lump (st : SoundEngine BS) (sfx : Z) :
  inside st sfx ->
  let st0 := if lumpnum (sfx_at st sfx) =? -1
             then update_sfx st sfx (fun s => set_sfx_lumpnum s (sfx_empty st))
             else st in
  length (S_sfx st0) = length (S_sfx st) /\
  sfx_empty st0 = sfx_empty st /\
  (forall i, data (sfx_at st0 i) = data (sfx_at st i)) /\
  (lumpnum (sfx_at st sfx) = sfx_empty st ->
   lumpnum (sfx_at st0 sfx) = sfx_empty st).
Proof.
  intros Hin st0. subst st0.
  destruct (lumpnum (sfx_at st sfx) =? -1); [| repeat split; auto].
  split; [apply update_sfx_length |]. split; [reflexivity |].
  split; [intros i; now apply update_sfx_kept |].
  intros _. now rewrite update_sfx_here.
Qed.

(** What a round of the loop of [LoadSound] answers. *)
Lemma LoadSound_round_cases (st st' : SoundEngine BS) (sfx : Z)
    (r : LoadStep) :
  inside st sfx ->
  isValid (data (sfx_at st sfx)) = false ->
  LoadSound_round GSnd client st sfx = (st', r) ->
  length (S_sfx st') = length (S_sfx st) /\
  sfx_empty st' = sfx_empty st /\
  match r with
  | LoadDone i =>
      (inside st i /\ isValid (data (sfx_at st' i)) = true) \/
      (i = sfx /\ isValid (data (sfx_at st' sfx)) = false /\
       lumpnum (sfx_at st' sfx) = sfx_empty st)
  | LoadAgain =>
      isValid (data (sfx_at st' sfx)) = false /\
      lumpnum (sfx_at st' sfx) = sfx_empty st /\
      lumpnum (sfx_at st sfx) <> sfx_empty st
  end.
Proof.
  intros Hin Hdata. unfold LoadSound_round.
  destruct (LoadSound_lump st sfx Hin) as (Hlen0 & Hemp0 & Hdat0 & Hlump0).
  set (st0 := if lumpnum (sfx_at st sfx) =? -1
              then update_sfx st sfx
                     (fun s => set_sfx_lumpnum s (sfx_empty st))
              else st) in *.
  assert (Hin0 : inside st0 sfx) by (rewrite Hlen0; exact Hin).
  destruct (same_lump_from (S_sfx st0) 0 (lumpnum (sfx_at st0 sfx)))
    as [i |] eqn:Escan.
  - destruct (same_lump_from_found _ _ _ _ Escan) as [Hi Hv].
    rewrite Z.sub_0_r in Hv. fold (sfx_at st0 i) in Hv.
    intros H. injection H as <- <-.
    set (st1 := update_sfx st0 sfx (fun s => set_sfx_link s i)).
    destruct (Qeq_bool (MinDistance (Rolloff (sfx_at st1 sfx))) 0).
    + split; [unfold st1; now rewrite !update_sfx_length |].
      split; [exact Hemp0 |]. left. split; [lia |].
      unfold st1. rewrite !(update_sfx_kept data) by reflexivity. exact Hv.
    + split; [unfold st1; now rewrite update_sfx_length |].
      split; [exact Hemp0 |]. left. split; [lia |].
      unfold st1. rewrite (update_sfx_kept data) by reflexivity. exact Hv.
  - set (sfxdata := client_ReadSound client (lumpnum (sfx_at st0 sfx))).
    set (st2 := if (8 <? length sfxdata)%nat
                then
                  let '(snd, also3d, bs) :=
                    GSnd_Decode GSnd (GSndState st0) (sfx_at st0 sfx)
                                sfxdata in
                  let st := set_GSndState st0 bs in
                  let st := update_sfx st sfx (fun s => set_sfx_data s snd) in
                  if also3d
                  then update_sfx st sfx (fun s => set_sfx_data3d s (data s))
                  else st
                else st0).
    assert (H2 : length (S_sfx st2) = length (S_sfx st0) /\
                 sfx_empty st2 = sfx_empty st0 /\
                 lumpnum (sfx_at st2 sfx) = lumpnum (sfx_at st0 sfx)).
    { subst st2. destruct (8 <? length sfxdata)%nat; [| auto].
      destruct (GSnd_Decode GSnd (GSndState st0) (sfx_at st0 sfx) sfxdata)
        as [[snd also3d] bs].
      destruct also3d.
      - rewrite !update_sfx_length, !(update_sfx_kept lumpnum)
          by reflexivity.
        auto.
      - rewrite !update_sfx_length, !(update_sfx_kept lumpnum)
          by reflexivity.
        auto. }
    destruct H2 as (Hlen2 & Hemp2 & Hlump2).
    assert (Hin2 : inside st2 sfx) by (rewrite Hlen2; exact Hin0).
    destruct (isValid (data (sfx_at st2 sfx))) eqn:Hvalid; cbn [negb andb].
    + intros H. injection H as <- <-.
      split; [congruence |]. split; [congruence |].
      left. split; [exact Hin | exact Hvalid].
    + destruct (lumpnum (sfx_at st2 sfx) =? sfx_empty st2) eqn:Hemp;
        cbn [negb]; intros H; injection H as <- <-.
      * apply Z.eqb_eq in Hemp.
        split; [congruence |]. split; [congruence |].
        right. split; [reflexivity |].
        split; [exact Hvalid | congruence].
      * apply Z.eqb_neq in Hemp.
        split; [rewrite update_sfx_length; congruence |].
        split; [cbn; congruence |].
        rewrite (update_sfx_kept data) by reflexivity.
        split; [exact Hvalid |].
        rewrite update_sfx_here by exact Hin2. cbn [lumpnum set_sfx_lumpnum].
        split; [congruence |].
        intros Hwas. apply Hemp. rewrite Hlump2, Hemp2, Hemp0.
        now apply Hlump0.
Qed.

(** [LoadSound] of an entry of the table ends after two rounds at most: a
    round that asks for another has put the lump of the empty sound in, and
    the round after it asks for no more.  With a backend that is not the
    null one, the entry returned holds valid data, or else it is the entry
    asked for, left without data and with the lump of the empty sound (which
    could not be read either).  The table keeps its size. *)
Theorem LoadSound_ends (st : SoundEngine BS) (sfx : Z) :
  inside st sfx ->
  GSnd_IsNull GSnd (GSndState st) = false ->
  let st' := fst (LoadSound GSnd client st sfx) in
  let i := snd (LoadSound GSnd client st sfx) in
  length (S_sfx st') = length (S_sfx st) /\
  ((inside st i /\ isValid (data (sfx_at st' i)) = true) \/
   (i = sfx /\ isValid (data (sfx_at st' sfx)) = false /\
    lumpnum (sfx_at st' sfx) = sfx_empty st)) /\
  (forall st1 st2 r,
     isValid (data (sfx_at st sfx)) = false ->
     LoadSound_round GSnd client st sfx = (st1, LoadAgain) ->
     LoadSound_round GSnd client st1 sfx = (st2, r) ->
     r <> LoadAgain).
Proof.
  intros Hin Hnull.
  assert (Hsecond : forall st1 st2 r,
             isValid (data (sfx_at st sfx)) = false ->
             LoadSound_round GSnd client st sfx = (st1, LoadAgain) ->
             LoadSound_round GSnd client st1 sfx = (st2, r) ->
             r <> LoadAgain).
  { intros st1 st2 r Hdata H1 H2.
    destruct (LoadSound_round_cases st st1 sfx LoadAgain Hin Hdata H1)
      as (Hlen1 & Hemp1 & Hd1 & Hl1 & _).
    assert (Hin1 : inside st1 sfx) by (rewrite Hlen1; exact Hin).
    destruct r as [i |]; [discriminate |].
    destruct (LoadSound_round_cases st1 st2 sfx LoadAgain Hin1 Hd1 H2)
      as (_ & _ & _ & _ & Hne).
    exfalso. apply Hne. congruence. }
  cbv zeta. unfold LoadSound. rewrite Hnull.
  destruct (isValid (data (sfx_at st sfx))) eqn:Hdata.
  { cbn [fst snd]. split; [reflexivity |]. split; [| exact Hsecond].
    left. split; [exact Hin | exact Hdata]. }
  destruct (LoadSound_round GSnd client st sfx) as [st1 [i |]] eqn:H1.
  { cbn [fst snd].
    destruct (LoadSound_round_cases st st1 sfx (LoadDone i) Hin Hdata H1)
      as (Hlen1 & _ & Hres).
    split; [exact Hlen1 |]. split; [exact Hres | exact Hsecond]. }
  destruct (LoadSound_round_cases st st1 sfx LoadAgain Hin Hdata H1)
    as (Hlen1 & Hemp1 & Hd1 & Hl1 & _).
  assert (Hin1 : inside st1 sfx) by (rewrite Hlen1; exact Hin).
  rewrite Hd1.
  destruct (LoadSound_round GSnd client st1 sfx) as [st2 [i |]] eqn:H2.
  - cbn [fst snd].
    destruct (LoadSound_round_cases st1 st2 sfx (LoadDone i) Hin1 Hd1 H2)
      as (Hlen2 & _ & Hres).
    split; [congruence |]. split; [| exact Hsecond].
    rewrite Hlen1, Hemp1 in Hres. exact Hres.
  - exfalso. now apply (Hsecond st1 st2 LoadAgain eq_refl eq_refl H2).
Qed.

End LoadingFacts.

Section LoadingScenes.
Import Rolloff Sound World.
Local Open Scope Z_scope.

(** Sound 3 of the small world is read from its lump. *)
Lemma LoadSound_ends_witness :
  length (S_sfx (fst (LoadSound granting still silence 3)))
  = length (S_sfx silence).
Proof.
  refine (proj1 (LoadSound_ends granting still silence 3 _ _)).
  - vm_compute. split; [discriminate | reflexivity].
  - reflexivity.
Defined.

End LoadingScenes.
